(** * gptrepl: the session engine of a command-line chat client

    A shallow embedding of the Go sources ([main.go], [util.go], the command
    handlers and the collaborator interfaces) together with the properties of
    the conversation context, the persistence adapter, the retry loop and the
    stream drain.

    Conventions of the embedding:
    - a Go [string] is a [string] (a sequence of bytes);
    - a Go slice [[]Message] is a [list Message] (value semantics; no property
      below depends on slices sharing a backing array); the empty list stands
      for the empty slice that is not [nil], and what [encoding/json] writes
      for the [nil] slice is given apart ([RefJson.MarshalIndent_nil]);
    - a Go function returning [(T, error)] returns a pair [T * option error],
      [None] standing for the [nil] error;
    - [int], [int64] and [uint] (64 bits wide) are integers of [Z] with the
      wrap-around of a conversion written out;
    - a [float64] is the rational it stands for, and every operation of the
      backoff is rounded to the nearest binary64 number ([float64]);
    - methods on [*App] are programs of the monad [Prog]: they thread the
      [App] value and the outside [World] (file system, pseudo-random source,
      text editor, and the trace of observable effects), and may return,
      block forever on a channel receive, or leave through [os.Exit]. *)

From Stdlib Require Import ZArith QArith String Ascii List DecimalString.
From stdpp Require Import base gmap strings list.

Open Scope string_scope.
Open Scope list_scope.
Open Scope Z_scope.

(** ** Strings *)

Definition nl : string := String "010" EmptyString.
Definition dq : string := String "034" EmptyString.
Definition tab : string := String "009" EmptyString.

(** [%v] of an integer. *)
Definition itoa (n : Z) : string := NilZero.string_of_int (Z.to_int n).

(** ** Data model *)

Record Message := mkMessage { Role : string; Content : string }.

#[global] Instance Message_eq_dec : EqDecision Message.
Proof. solve_decision. Defined.

Definition isRoleValid (role : string) : bool :=
  (role =? "user")%string || (role =? "assistant")%string || (role =? "system")%string.

(** Go error values.  [fmt.Errorf] with [%v] builds a fresh error out of a
    message; [io.EOF] is a sentinel; [wrapError] is an error that unwraps to
    another one (what a collaborator may hand over). *)
Inductive error : Type :=
| io_EOF
| errorString (msg : string)
| wrapError (msg : string) (inner : error).

#[global] Instance error_eq_dec : EqDecision error.
Proof. solve_decision. Defined.

Definition Error (e : error) : string :=
  match e with
  | io_EOF => "EOF"
  | errorString msg => msg
  | wrapError msg _ => msg
  end.

Fixpoint unwraps_to (e target : error) : bool :=
  if decide (e = target) then true
  else match e with
       | wrapError _ inner => unwraps_to inner target
       | _ => false
       end.

(** [errors.Is(err, target)]; a [nil] error is nothing. *)
Definition errors_Is (err : option error) (target : error) : bool :=
  match err with
  | None => false
  | Some e => unwraps_to e target
  end.

Record CompletionDelta := mkDelta { delta : string; err : option error }.

(** A receive-only channel as its consumer sees it: the values that will
    still arrive, in order, and whether the producer closes it after them.
    The [nil] channel never delivers. *)
Inductive chan : Type :=
| nil_chan
| make_chan (buf : list CompletionDelta) (closed : bool).

(** ** The outside world *)

(** [EvPrint], [EvPrintWarning] and [EvPrintError] are the calls of the
    [UserPrinter]; [EvStdout] is a write to the standard output that does not
    go through the printer. *)
Inductive Event : Type :=
| EvPrint (s : string)
| EvPrintWarning (s : string)
| EvPrintError (s : string)
| EvStdout (s : string)
| EvSleep (d : Z)
| EvSendContext (ctx : list Message)
| EvWriteFile (path data : string) (ok : bool)
| EvEditor.

(** The package [fatih/color] as the program uses it.  What its functions
    make of a text depends on the terminal (the package's [NoColor]):
    [color_CyanString] and [color_MagentaString] are [color.CyanString] and
    [color.MagentaString] of a text without verbs, [color_BoldFgWhite_Sprintf]
    is [c.Sprintf("%v", s)] of the colour [c] with the attributes [color.Bold]
    and [color.FgWhite], and [color_BoldFgWhite_Set] is what [c.Set()] writes
    to the standard output: nothing at all when colours are off. *)
Record Color := mkColor {
  color_CyanString : string -> string;
  color_MagentaString : string -> string;
  color_BoldFgWhite_Sprintf : string -> string;
  color_BoldFgWhite_Set : option string
}.

(** Colours off: every text is left as it is, and [Set] writes nothing. *)
Definition NoColor : Color :=
  mkColor (fun s => s) (fun s => s) (fun s => s) None.

Record World := mkWorld {
  files : gmap string string;
  denied : gset string;
  rand_source : nat -> Q;
  rand_calls : nat;
  editor : nat -> string * option error;
  editor_calls : nat;
  colors : Color;
  trace : list Event
}.

Definition emit (e : Event) (w : World) : World :=
  mkWorld (files w) (denied w) (rand_source w) (rand_calls w)
          (editor w) (editor_calls w) (colors w) (trace w ++ [e]).

Definition set_files (fs : gmap string string) (w : World) : World :=
  mkWorld fs (denied w) (rand_source w) (rand_calls w)
          (editor w) (editor_calls w) (colors w) (trace w).

Definition tick_rand (w : World) : World :=
  mkWorld (files w) (denied w) (rand_source w) (S (rand_calls w))
          (editor w) (editor_calls w) (colors w) (trace w).

Definition tick_editor (w : World) : World :=
  mkWorld (files w) (denied w) (rand_source w) (rand_calls w)
          (editor w) (S (editor_calls w)) (colors w) (trace w).

(** ** Collaborator interfaces *)

(** [type CompletionAPI interface { SendContext([]Message) (<-chan CompletionDelta, error) }] *)
Class CompletionAPI (C : Type) :=
  SendContext : C -> list Message -> C * (chan * option error).

(** [type Readliner interface { Readline() (string, error) }] *)
Class Readliner (R : Type) :=
  Readline : R -> R * (string * option error).

(** The two entry points of [encoding/json] the program calls, at the type
    [[]Message]. *)
Class Json := {
  json_MarshalIndent : list Message -> string * option error;
  json_Unmarshal : string -> list Message * option error
}.

(** ** The application state *)

Inductive CommandFn : Type :=
| helpCommand_fn | saveCommand_fn | replaceFromCommand_fn | appendFromCommand_fn
| prependFromCommand_fn | clearCommand_fn | printCommand_fn | appendCommand_fn
| prependCommand_fn | modelCommand_fn | popCommand_fn | escapeCommand_fn
| nanoCommand_fn | nanoSendCommand_fn | sendCommand_fn | autosaveCommand_fn
| exitCommand_fn.

Record Command := NewCommand {
  fn : CommandFn;
  description : string;
  args : list (list string)
}.

(** The [App] structure.  Its [printer] field is not kept: a [UserPrinter]
    is observed through the trace of the world.  [C] is the state of the
    completion client behind the [capi] interface value.  [maxRetries] is a
    [uint], of 64 bits. *)
Record App (C : Type) := mkApp {
  context : list Message;
  model : string;
  slashCommandsDisabled : bool;
  quiet : bool;
  forgetful : bool;
  maxRetries : Z;
  apiKey : string;
  commandHandlers : gmap string Command;
  autosaveFilePath : string;
  capi : C
}.

Arguments mkApp {C}.
Arguments context {C}.
Arguments model {C}.
Arguments slashCommandsDisabled {C}.
Arguments quiet {C}.
Arguments forgetful {C}.
Arguments maxRetries {C}.
Arguments apiKey {C}.
Arguments commandHandlers {C}.
Arguments autosaveFilePath {C}.
Arguments capi {C}.

Definition set_context {C} (ctx : list Message) (a : App C) : App C :=
  mkApp ctx (model a) (slashCommandsDisabled a) (quiet a) (forgetful a)
        (maxRetries a) (apiKey a) (commandHandlers a) (autosaveFilePath a) (capi a).

Definition set_model {C} (m : string) (a : App C) : App C :=
  mkApp (context a) m (slashCommandsDisabled a) (quiet a) (forgetful a)
        (maxRetries a) (apiKey a) (commandHandlers a) (autosaveFilePath a) (capi a).

Definition set_commandHandlers {C} (h : gmap string Command) (a : App C) : App C :=
  mkApp (context a) (model a) (slashCommandsDisabled a) (quiet a) (forgetful a)
        (maxRetries a) (apiKey a) h (autosaveFilePath a) (capi a).

Definition set_autosaveFilePath {C} (p : string) (a : App C) : App C :=
  mkApp (context a) (model a) (slashCommandsDisabled a) (quiet a) (forgetful a)
        (maxRetries a) (apiKey a) (commandHandlers a) p (capi a).

Definition set_capi {C} (c : C) (a : App C) : App C :=
  mkApp (context a) (model a) (slashCommandsDisabled a) (quiet a) (forgetful a)
        (maxRetries a) (apiKey a) (commandHandlers a) (autosaveFilePath a) c.

Definition set_forgetful {C} (b : bool) (a : App C) : App C :=
  mkApp (context a) (model a) (slashCommandsDisabled a) (quiet a) b
        (maxRetries a) (apiKey a) (commandHandlers a) (autosaveFilePath a) (capi a).

Definition set_maxRetries {C} (n : Z) (a : App C) : App C :=
  mkApp (context a) (model a) (slashCommandsDisabled a) (quiet a) (forgetful a)
        n (apiKey a) (commandHandlers a) (autosaveFilePath a) (capi a).

(** ** The monad of programs over [*App] *)

Inductive Res (C A : Type) : Type :=
| Ret (a : A) (app : App C) (w : World)
| Hang (app : App C) (w : World)
| Exit (code : Z) (app : App C) (w : World).

Arguments Ret {C A}.
Arguments Hang {C A}.
Arguments Exit {C A}.

Definition Prog (C A : Type) : Type := App C -> World -> Res C A.

Definition ret {C A} (a : A) : Prog C A := fun app w => Ret a app w.

Definition bind {C A B} (m : Prog C A) (k : A -> Prog C B) : Prog C B :=
  fun app w =>
    match m app w with
    | Ret a app' w' => k a app' w'
    | Hang app' w' => Hang app' w'
    | Exit code app' w' => Exit code app' w'
    end.

Notation "'let*' x := m 'in' k" := (bind m (fun x => k))
  (at level 10, x name, m at level 100, k at level 200, only parsing).

(** A receive that is never served. *)
Definition hang {C A} : Prog C A := fun app w => Hang app w.

Definition os_Exit {C A} (code : Z) : Prog C A := fun app w => Exit code app w.

Definition get_app {C} : Prog C (App C) := fun app w => Ret app app w.

Definition modify_app {C} (f : App C -> App C) : Prog C unit :=
  fun app w => Ret tt (f app) w.

Definition log {C} (e : Event) : Prog C unit :=
  fun app w => Ret tt app (emit e w).

(** [UserPrinter]: the three methods return nothing, so a printer is known
    by what it was asked to print. *)
Definition Print {C} (s : string) : Prog C unit := log (EvPrint s).
Definition PrintWarning {C} (s : string) : Prog C unit := log (EvPrintWarning s).
Definition PrintError {C} (s : string) : Prog C unit := log (EvPrintError s).

(** The colour package of the run, and [color.Set(color.Bold, color.FgWhite)]:
    the colour is made and switched on at once, by a write to the standard
    output that the printer does not see. *)
Definition get_colors {C} : Prog C Color := fun app w => Ret (colors w) app w.

Definition color_Set_BoldFgWhite {C} : Prog C unit :=
  fun app w =>
    match color_BoldFgWhite_Set (colors w) with
    | Some sequence => Ret tt app (emit (EvStdout sequence) w)
    | None => Ret tt app w
    end.

(** ** Draining a stream ([main.go], [printAndCollectStream]) *)

Fixpoint printAndCollectStream_loop {C} (buf : list CompletionDelta) (closed : bool)
    (collect : string) : Prog C (string * option error) :=
  match buf with
  | [] =>
      (* the receive: [ok] is false on a closed channel, and there is no
         answer at all on an open one *)
      if closed then let* _ := Print nl in ret (collect, None) else hang
  | response :: rest =>
      if errors_Is (err response) io_EOF then
        let* _ := Print nl in ret (collect, None)
      else
        match err response with
        | Some e => ret ("", Some e)
        | None =>
            let* _ := Print (delta response) in
            printAndCollectStream_loop rest closed (collect +:+ delta response)
        end
  end.

Definition printAndCollectStream {C} (stream : chan) : Prog C (string * option error) :=
  match stream with
  | nil_chan => hang
  | make_chan buf closed => printAndCollectStream_loop buf closed ""
  end.

Notation "'let*' ' p := m 'in' k" := (bind m (fun x => match x with p => k end))
  (at level 10, p pattern, m at level 100, k at level 200, only parsing).

Definition not_nil {A} (e : option A) : bool :=
  match e with Some _ => true | None => false end.

(** ** Operating system, clock and random source *)

(** [os.ReadFile]. *)
Definition os_ReadFile {C} (path : string) : Prog C (string * option error) :=
  fun app w =>
    match files w !! path with
    | Some data => Ret (data, None) app w
    | None =>
        Ret ("", Some (errorString ("open " +:+ path +:+ ": no such file or directory"))) app w
    end.

(** [os.WriteFile]: the write goes through unless the path is empty or one
    the system refuses ([denied]); a refused write leaves the files as they
    were.  Every call is recorded in the trace. *)
Definition os_WriteFile {C} (path data : string) : Prog C (option error) :=
  fun app w =>
    if bool_decide (path = "" \/ path ∈ denied w) then
      Ret (Some (errorString ("open " +:+ path +:+ ": permission denied"))) app
          (emit (EvWriteFile path data false) w)
    else
      Ret None app (emit (EvWriteFile path data true) (set_files (<[path := data]> (files w)) w)).

(** [time.Sleep]: only the requested duration (nanoseconds) is observable. *)
Definition time_Sleep {C} (d : Z) : Prog C unit := log (EvSleep d).

(** The binary64 number nearest to a rational, ties going to the even
    mantissa: a mantissa of 53 bits, and of fewer below [2^-1022].  (Rationals
    from [2^1024] on, where [float64] has only its infinity, are rounded in
    the same way; the backoff gets there after more than a thousand
    doublings.) *)
Definition round_half_even (a b : Z) : Z :=
  let k := a / b in
  match 2 * (a mod b) ?= b with
  | Lt => k
  | Gt => k + 1
  | Eq => if Z.even k then k else k + 1
  end.

Definition float64 (q : Q) : Q :=
  let n := Z.abs (Qnum q) in
  let d := Zpos (Qden q) in
  if n =? 0 then 0%Q
  else
    (* [2^e <= n/d < 2^(e+1)] *)
    let e0 := Z.log2 n - Z.log2 d in
    let below := if 0 <=? e0 then n <? d * 2 ^ e0 else n * 2 ^ (- e0) <? d in
    let e := if below then e0 - 1 else e0 in
    (* the unit in the last place is [2^u] *)
    let u := Z.max (e - 52) (- 1074) in
    let k := if 0 <=? u then round_half_even n (d * 2 ^ u)
             else round_half_even (n * 2 ^ (- u)) d in
    let m := Z.sgn (Qnum q) * k in
    Qred (if 0 <=? u then inject_Z (m * 2 ^ u) else Qmake m (Z.to_pos (2 ^ (- u)))).

(** [rand.Float64()]: the next value of the source, in [0, 1). *)
Definition rand_Float64 {C} : Prog C Q :=
  fun app w => Ret (float64 (rand_source w (rand_calls w))) app (tick_rand w).

Definition time_Second : Z := 1000000000.

(** Conversion to [int64]: wrap-around of an integer, truncation toward zero
    of a float.  (For a float outside the range of [int64] the language leaves
    the result to the implementation; the truncation is kept as it is
    here.) *)
Definition to_int64 (z : Z) : Z := (z + 2 ^ 63) mod 2 ^ 64 - 2 ^ 63.
Definition float_to_int64 (f : Q) : Z := Z.quot (Qnum f) (Zpos (Qden f)).

(** [time.Duration(waitTime) * time.Second] *)
Definition seconds_of_float (waitTime : Q) : Z :=
  to_int64 (float_to_int64 waitTime * time_Second).

(** ** Persistence ([util.go]) *)

Section Program.

Context {C : Type} `{CompletionAPI C} `{Json}.

Definition writeContextFile (path : string) (context : list Message) : Prog C (option error) :=
  let '(marshaled, err) := json_MarshalIndent context in
  match err with
  | Some e => ret (Some e)
  | None => os_WriteFile path marshaled
  end.

(** The [range] loop of [parseContextFile]: the error of the first message
    whose role is not valid, [idx] being the index of the head of [msgs]. *)
Fixpoint parseContextFile_loop (path : string) (idx : Z) (msgs : list Message) : option error :=
  match msgs with
  | [] => None
  | msg :: rest =>
      if negb (isRoleValid (Role msg)) then
        Some (errorString (path +:+ ": message #" +:+ itoa idx
                +:+ " (starting from zero) has an invalid " +:+ dq +:+ "role" +:+ dq
                +:+ " attribute"))
      else parseContextFile_loop path (idx + 1) rest
  end.

Definition parseContextFile (path : string) : Prog C (list Message * option error) :=
  let* '(data, err) := os_ReadFile path in
  match err with
  | Some e => ret ([], Some e)
  | None =>
      let '(unmarshaled, err) := json_Unmarshal data in
      match err with
      | Some e => ret ([], Some e)
      | None =>
          match parseContextFile_loop path 0 unmarshaled with
          | Some e => ret ([], Some e)
          | None => ret (unmarshaled, None)
          end
      end
  end.

(** ** Context store ([main.go]) *)

Definition tryUpdateAutosaveFile : Prog C unit :=
  let* app := get_app in
  if (autosaveFilePath app =? "")%string then ret tt
  else
    let* err := writeContextFile (autosaveFilePath app) (context app) in
    match err with
    | Some e =>
        PrintError ("failed to write to file " +:+ dq +:+ autosaveFilePath app +:+ dq
                      +:+ ": " +:+ Error e +:+ nl)
    | None => ret tt
    end.

Definition appendToContext (msg : Message) : Prog C unit :=
  let* _ := modify_app (fun app => set_context (context app ++ [msg]) app) in
  tryUpdateAutosaveFile.

Definition len {A} (l : list A) : Z := Z.of_nat (length l).

Definition popFromContext (n : Z) : Prog C (option error) :=
  let* app := get_app in
  if n <? 1 then ret (Some (errorString "n must be at least 1"))
  else if len (context app) <? n then
    ret (Some (errorString ("can't pop " +:+ itoa n
            +:+ " elements from the context because it only contains "
            +:+ itoa (len (context app)) +:+ " elements")))
  else
    let* _ := modify_app (fun app =>
                set_context (take (Z.to_nat (len (context app) - n)) (context app)) app) in
    let* _ := tryUpdateAutosaveFile in
    ret None.

(** ** Completion client: establishment with retries, then the drain *)

Definition capi_SendContext (ctx : list Message) : Prog C (chan * option error) :=
  fun app w =>
    let '(c', r) := SendContext (capi app) ctx in
    Ret r (set_capi c' app) (emit (EvSendContext ctx) w).

Definition waitTimeMultiplier : Q := 2.

(** The [for retries >= 0] loop.  [fuel] bounds the number of iterations;
    [sendContextAndProcessResponse] passes [retries + 1], which the loop never
    uses up. *)
Fixpoint sendContext_loop (fuel : nat) (retries : Z) (waitTime : Q)
    (stream : chan) (err : option error) : Prog C (chan * option error) :=
  if 0 <=? retries then
    match fuel with
    | O => hang
    | S fuel' =>
        let* app := get_app in
        let* '(stream, err) := capi_SendContext (context app) in
        if not_nil err && (0 <? retries) then
          let retries := retries - 1 in
          let* _ := time_Sleep (seconds_of_float waitTime) in
          let waitTime := float64 (waitTime * waitTimeMultiplier) in
          let* r := rand_Float64 in
          let waitTime := float64 (waitTime + float64 (r / 3)) in
          sendContext_loop fuel' retries waitTime stream err
        else ret (stream, err)
    end
  else ret (stream, err).

Definition sendContextAndProcessResponse : Prog C (string * option error) :=
  let* app := get_app in
  let retries := to_int64 (maxRetries app) in
  let* '(stream, err) :=
    sendContext_loop (Z.to_nat (retries + 1)) retries 1%Q nil_chan None in
  match err with
  | Some e => ret ("", Some (errorString ("failed to send context: " +:+ Error e)))
  | None =>
      let* '(responseContent, err) := printAndCollectStream stream in
      match err with
      | Some e => ret ("", Some (errorString ("stream error: " +:+ Error e)))
      | None => ret (responseContent, None)
      end
  end.

End Program.

(** ** The [strings] and [strconv] functions the program calls *)

Definition bytes (codes : list nat) : list ascii := map ascii_of_nat codes.

(** The UTF-8 encodings of the code points [unicode.IsSpace] accepts. *)
Definition unicode_spaces : list (list ascii) :=
  map bytes
    [ [9]; [10]; [11]; [12]; [13]; [32]; [194; 133]; [194; 160]; [225; 154; 128];
      [226; 128; 128]; [226; 128; 129]; [226; 128; 130]; [226; 128; 131];
      [226; 128; 132]; [226; 128; 133]; [226; 128; 134]; [226; 128; 135];
      [226; 128; 136]; [226; 128; 137]; [226; 128; 138]; [226; 128; 168];
      [226; 128; 169]; [226; 128; 175]; [226; 129; 159]; [227; 128; 128] ]%nat.

Fixpoint strip_prefix (p l : list ascii) : option (list ascii) :=
  match p, l with
  | [], _ => Some l
  | _ :: _, [] => None
  | a :: p', b :: l' => if Ascii.eqb a b then strip_prefix p' l' else None
  end.

Fixpoint strip_any (ps : list (list ascii)) (l : list ascii) : option (list ascii) :=
  match ps with
  | [] => None
  | p :: ps' =>
      match strip_prefix p l with
      | Some rest => Some rest
      | None => strip_any ps' l
      end
  end.

Fixpoint trim_left (spaces : list (list ascii)) (fuel : nat) (l : list ascii) : list ascii :=
  match fuel with
  | O => l
  | S fuel' =>
      match strip_any spaces l with
      | Some rest => trim_left spaces fuel' rest
      | None => l
      end
  end.

(** [strings.TrimSpace] *)
Definition strings_TrimSpace (s : string) : string :=
  let l := list_ascii_of_string s in
  let l := trim_left unicode_spaces (length l) l in
  let r := trim_left (map (@rev ascii) unicode_spaces) (length l) (rev l) in
  string_of_list_ascii (rev r).

(** [strings.Cut] *)
Definition strings_Cut (s sep : string) : string * string * bool :=
  match String.index 0 sep s with
  | Some i =>
      (String.substring 0 i s,
       String.substring (i + String.length sep)
                        (String.length s - (i + String.length sep)) s,
       true)
  | None => (s, "", false)
  end.

Definition flush_word (cur : list ascii) : list string :=
  match cur with
  | [] => []
  | _ => [string_of_list_ascii cur]
  end.

Fixpoint Fields_loop (fuel : nat) (l cur : list ascii) : list string :=
  match fuel with
  | O => flush_word cur
  | S fuel' =>
      match l with
      | [] => flush_word cur
      | c :: l' =>
          match strip_any unicode_spaces l with
          | Some rest => flush_word cur ++ Fields_loop fuel' rest []
          | None => Fields_loop fuel' l' (cur ++ [c])
          end
      end
  end.

(** [strings.Fields] *)
Definition strings_Fields (s : string) : list string :=
  let l := list_ascii_of_string s in
  Fields_loop (S (length l)) l [].

(** [strings.Join] *)
Definition strings_Join (elems : list string) (sep : string) : string :=
  String.concat sep elems.

Definition slen (s : string) : Z := Z.of_nat (String.length s).

(** [util.go], [textWrap]: the pair is [(lines, currentLine)]. *)
Definition textWrap_step (maxLineLen : Z) (st : list string * string) (word : string)
    : list string * string :=
  let '(lines, currentLine) := st in
  if maxLineLen <? slen currentLine + slen word + 1 then
    (lines ++ [currentLine], word)
  else if negb (slen currentLine =? 0) then
    (lines, currentLine +:+ " " +:+ word)
  else (lines, currentLine +:+ word).

Definition textWrap (text : string) (maxLineLen : Z) : list string :=
  let words := strings_Fields text in
  let '(lines, currentLine) := fold_left (textWrap_step maxLineLen) words ([], "") in
  if negb (slen currentLine =? 0) then lines ++ [currentLine] else lines.

Definition digit_of (c : ascii) : option Z :=
  let n := Z.of_nat (nat_of_ascii c) in
  if (48 <=? n) && (n <=? 57) then Some (n - 48) else None.

Fixpoint parse_digits (l : list ascii) (acc : Z) : option Z :=
  match l with
  | [] => Some acc
  | c :: l' =>
      match digit_of c with
      | Some d => parse_digits l' (10 * acc + d)
      | None => None
      end
  end.

Definition ParseInt_error (s reason : string) : error :=
  errorString ("strconv.ParseInt: parsing " +:+ dq +:+ s +:+ dq +:+ ": " +:+ reason).

(** [strconv.ParseInt(s, 10, bitSize)]: an optional sign, then at least one
    decimal digit and nothing else; the value must fit [bitSize] bits. *)
Definition strconv_ParseInt (s : string) (bitSize : Z) : Z * option error :=
  let l := list_ascii_of_string s in
  let '(neg, ds) :=
    match l with
    | "+"%char :: ds => (false, ds)
    | "-"%char :: ds => (true, ds)
    | _ => (false, l)
    end in
  match ds with
  | [] => (0, Some (ParseInt_error s "invalid syntax"))
  | _ =>
      match parse_digits ds 0 with
      | None => (0, Some (ParseInt_error s "invalid syntax"))
      | Some v =>
          let n := if neg then - v else v in
          if n <? - 2 ^ (bitSize - 1) then
            (- 2 ^ (bitSize - 1), Some (ParseInt_error s "value out of range"))
          else if 2 ^ (bitSize - 1) - 1 <? n then
            (2 ^ (bitSize - 1) - 1, Some (ParseInt_error s "value out of range"))
          else (n, None)
      end
  end.

(** ** Command handlers *)

Section Commands.

Context {C : Type} `{CompletionAPI C} `{Json}.

Definition ErrExpectNoArguments : error := errorString "expected no arguments".

Fixpoint for_each {A} (l : list A) (body : A -> Prog C unit) : Prog C unit :=
  match l with
  | [] => ret tt
  | x :: rest => let* _ := body x in for_each rest body
  end.

(** [presentTextEditor] runs an external editor on a temporary file; what it
    hands back is the editor's business. *)
Definition presentTextEditor : Prog C (string * option error) :=
  fun app w => Ret (editor w (editor_calls w)) app (emit EvEditor (tick_editor w)).

Definition parseSingleIntegerFromArguments (args : string) (defaultValue : Z)
    : Z * option error :=
  if (args =? "")%string then (defaultValue, None)
  else
    let '(n, err) := strconv_ParseInt args 32 in
    match err with
    | Some e => (0, Some e)
    | None => (n, None)
    end.

Definition parseSingleMessageFromArguments (args : string)
    : string * string * option error :=
  if (args =? "")%string then ("", "", Some (errorString "expected two arguments"))
  else
    let '(role, msg, _) := strings_Cut args " " in
    if negb (isRoleValid role) then
      ("", "", Some (errorString ("invalid role: " +:+ dq +:+ role +:+ dq)))
    else (role, msg, None).

Definition readContextFileFromArguments (args : string)
    : Prog C (list Message * option error) :=
  if (args =? "")%string then
    ret ([], Some (errorString "exactly one argument required (path to JSON file)"))
  else
    let* '(ctx, err) := parseContextFile args in
    match err with
    | Some e => ret ([], Some e)
    | None => ret (ctx, None)
    end.

(** A Go map is ranged over in no particular order; the entries are taken in
    the order of [map_to_list]. *)
Definition helpCommand (arguments : string) : Prog C (option error) :=
  let* _ := if negb (arguments =? "")%string
            then PrintWarning ("This command takes no arguments. Showing help anyways" +:+ nl)
            else ret tt in
  let* color := get_colors in
  let* app := get_app in
  let* _ := for_each (map_to_list (commandHandlers app)) (fun '(name, command) =>
              let* _ := Print ("/" +:+ color_CyanString color name) in
              let* _ := for_each (args command) (fun choices =>
                          let colored := map (color_MagentaString color) choices in
                          Print (" <" +:+ strings_Join colored "|" +:+ ">")) in
              let* _ := Print nl in
              for_each (textWrap (description command) 50) (fun line =>
                Print ("  " +:+ line +:+ nl))) in
  ret None.

Definition saveCommand (path : string) : Prog C (option error) :=
  if (path =? "")%string then
    ret (Some (errorString "exactly one argument required (path to JSON file)"))
  else
    let* app := get_app in
    writeContextFile path (context app).

Definition replaceFromCommand (path : string) : Prog C (option error) :=
  let* '(ctx, err) := readContextFileFromArguments path in
  match err with
  | Some e => ret (Some e)
  | None =>
      let* _ := modify_app (set_context ctx) in
      ret None
  end.

Definition appendFromCommand (path : string) : Prog C (option error) :=
  let* '(ctx, err) := readContextFileFromArguments path in
  match err with
  | Some e => ret (Some e)
  | None =>
      let* _ := modify_app (fun app => set_context (context app ++ ctx) app) in
      ret None
  end.

Definition prependFromCommand (path : string) : Prog C (option error) :=
  let* '(ctx, err) := readContextFileFromArguments path in
  match err with
  | Some e => ret (Some e)
  | None =>
      let* _ := modify_app (fun app => set_context (ctx ++ context app) app) in
      ret None
  end.

Definition clearCommand (args : string) : Prog C (option error) :=
  if negb (args =? "")%string then ret (Some ErrExpectNoArguments)
  else
    let* _ := modify_app (set_context []) in
    let* _ := tryUpdateAutosaveFile in
    ret None.

Definition printCommand (args : string) : Prog C (option error) :=
  let* _ := if negb (args =? "")%string
            then PrintWarning ("this command takes no arguments. Printing context anyways" +:+ nl)
            else ret tt in
  let* _ := color_Set_BoldFgWhite in
  let* color := get_colors in
  let* app := get_app in
  let* _ := for_each (context app) (fun msg =>
              let* _ := Print (color_CyanString color "["
                                 +:+ color_BoldFgWhite_Sprintf color (Role msg)
                                 +:+ color_CyanString color "]" +:+ nl) in
              Print (Content msg +:+ nl +:+ nl)) in
  ret None.

Definition appendCommand (args : string) : Prog C (option error) :=
  let '(role, msg, err) := parseSingleMessageFromArguments args in
  match err with
  | Some e => ret (Some e)
  | None =>
      let msg := strings_TrimSpace msg in
      let* _ := if (msg =? "")%string
                then PrintWarning ("appending empty string to context" +:+ nl)
                else ret tt in
      let* _ := appendToContext (mkMessage role msg) in
      ret None
  end.

Definition prependCommand (args : string) : Prog C (option error) :=
  let '(role, msg, err) := parseSingleMessageFromArguments args in
  match err with
  | Some e => ret (Some e)
  | None =>
      let msg := strings_TrimSpace msg in
      let* _ := if (msg =? "")%string
                then PrintWarning ("prepending empty string to context" +:+ nl)
                else ret tt in
      let* _ := modify_app (fun app =>
                  let new := [] in
                  let new := new ++ [mkMessage role msg] in
                  let new := new ++ context app in
                  set_context new app) in
      ret None
  end.

Definition modelCommand (model : string) : Prog C (option error) :=
  if (model =? "")%string then
    ret (Some (errorString "expected exactly one argument (the identifier of the model)"))
  else
    let* _ := modify_app (set_model model) in
    ret None.

Definition popCommand (args : string) : Prog C (option error) :=
  let '(n, err) := parseSingleIntegerFromArguments args 2 in
  match err with
  | Some e => ret (Some e)
  | None => popFromContext n
  end.

Definition escapeCommand (messageContent : string) : Prog C (option error) :=
  let* _ := appendToContext (mkMessage "user" messageContent) in
  let* '(resp, err) := sendContextAndProcessResponse in
  match err with
  | Some e => ret (Some e)
  | None =>
      let* _ := appendToContext (mkMessage "assistant" resp) in
      ret None
  end.

Definition nanoCommand (role : string) : Prog C (option error) :=
  if negb (isRoleValid role) then
    ret (Some (errorString ("invalid role: " +:+ dq +:+ role +:+ dq)))
  else
    let* '(content, err) := presentTextEditor in
    match err with
    | Some e => ret (Some e)
    | None =>
        let content := strings_TrimSpace content in
        if (content =? "")%string then ret (Some (errorString "no content in file"))
        else
          let* _ := appendToContext (mkMessage role content) in
          ret None
    end.

Definition sendCommand (args : string) : Prog C (option error) :=
  if negb (args =? "")%string then ret (Some ErrExpectNoArguments)
  else
    let* '(responseContent, err) := sendContextAndProcessResponse in
    match err with
    | Some e => ret (Some e)
    | None =>
        let* _ := appendToContext (mkMessage "assistant" responseContent) in
        ret None
    end.

Definition nanoSendCommand (role : string) : Prog C (option error) :=
  let role := if (role =? "")%string then "user" else role in
  if negb (isRoleValid role) then
    ret (Some (errorString ("invalid role: " +:+ dq +:+ role +:+ dq)))
  else
    let* '(content, err) := presentTextEditor in
    match err with
    | Some e => ret (Some e)
    | None =>
        let content := strings_TrimSpace content in
        if (content =? "")%string then ret (Some (errorString "no content in file"))
        else
          let* _ := appendToContext (mkMessage role content) in
          let* _ := Print (content +:+ nl) in
          let* '(responseContent, err) := sendContextAndProcessResponse in
          match err with
          | Some e => ret (Some e)
          | None =>
              let* _ := appendToContext (mkMessage "assistant" responseContent) in
              ret None
          end
    end.

Definition autosaveCommand (path : string) : Prog C (option error) :=
  let* _ := modify_app (set_autosaveFilePath path) in
  let* _ := tryUpdateAutosaveFile in
  ret None.

Definition exitCommand (code : string) : Prog C (option error) :=
  let '(n, err) := parseSingleIntegerFromArguments code 0 in
  match err with
  | Some e => ret (Some e)
  | None => os_Exit n
  end.

(** [command.fn(app, arguments)] *)
Definition call (f : CommandFn) : string -> Prog C (option error) :=
  match f with
  | helpCommand_fn => helpCommand
  | saveCommand_fn => saveCommand
  | replaceFromCommand_fn => replaceFromCommand
  | appendFromCommand_fn => appendFromCommand
  | prependFromCommand_fn => prependFromCommand
  | clearCommand_fn => clearCommand
  | printCommand_fn => printCommand
  | appendCommand_fn => appendCommand
  | prependCommand_fn => prependCommand
  | modelCommand_fn => modelCommand
  | popCommand_fn => popCommand
  | escapeCommand_fn => escapeCommand
  | nanoCommand_fn => nanoCommand
  | nanoSendCommand_fn => nanoSendCommand
  | sendCommand_fn => sendCommand
  | autosaveCommand_fn => autosaveCommand
  | exitCommand_fn => exitCommand
  end.

(** A line break inside a raw string literal of the command table, with the
    indentation of the source file that follows it. *)
Definition brk : string := nl +:+ tab +:+ tab.

Definition registerCommandHandlers : Prog C unit :=
  modify_app (set_commandHandlers (list_to_map
    [ ("help", NewCommand helpCommand_fn "Shows this help page." []);
      ("save", NewCommand saveCommand_fn
         "Saves current conversation context in a JSON file." [["path"]]);
      ("replacefrom", NewCommand replaceFromCommand_fn
         "Replaces the current conversation context from JSON file in the same format as created by /save."
         [["path"]]);
      ("appendfrom", NewCommand appendFromCommand_fn
         "Appends the context from the JSON file to the current context." [["path"]]);
      ("prependfrom", NewCommand prependFromCommand_fn
         "Adds the context from the JSON file to the beggining of the current context."
         [["path"]]);
      ("clear", NewCommand clearCommand_fn "Clears the current conversation context." []);
      ("print", NewCommand printCommand_fn "Prints the current conversation context." []);
      ("append", NewCommand appendCommand_fn
         "Appends a message to the current conversation context."
         [["user"; "assistant"; "system"]; ["message"]]);
      ("prepend", NewCommand prependCommand_fn
         "Adds a message to the beggining of the current conversation context."
         [["user"; "assistant"; "system"]; ["message"]]);
      ("model", NewCommand modelCommand_fn
         "Switches the current model (e.g. gpt-3.5-turbo), keeping the conversation context."
         [["model-name"]]);
      ("pop", NewCommand popCommand_fn
         ("Removes the last N messages from the context. N defaults to 2, as to pop the last answer given by the model and"
          +:+ brk +:+ "the question that led to it.")
         [["N?"]]);
      ("escape", NewCommand escapeCommand_fn
         ("Appends the following text and sends the context to the model, storing its response in the context. Useful for"
          +:+ brk +:+ "sending empty strings or messages beggining with the slash "
          +:+ dq +:+ "/" +:+ dq +:+ " character.")
         [["text"]]);
      ("nano", NewCommand nanoCommand_fn
         ("Opens a nano (by default) text editor instance. You can write a multi-line prompt in it, which will be appended"
          +:+ brk +:+ "to the context (without sending it) once saved and closed. To use a different text editor, specify its path in the GPTREPL_TEXT_EDITOR environment variable."
          +:+ brk +:+ "See also /ns, which may be more useful for interactive sessions in most cases.")
         [["user"; "assistant"; "system"]]);
      ("ns", NewCommand nanoSendCommand_fn
         ("The same as running /nano and then /send. Role is set to " +:+ dq +:+ "user" +:+ dq
          +:+ " by default. Also prints the message when not in quiet mode.")
         [["user?"; "assistant?"; "system?"]]);
      ("send", NewCommand sendCommand_fn
         "Sends the current context as-is to the model and stores its response in the context."
         []);
      ("autosave", NewCommand autosaveCommand_fn
         ("Changes the autosave file path. Every time the context changes, it is automatically saved to this file. Run"
          +:+ brk +:+ "with no arguments to disable this feature. WARNING: The file will be overwritten. You may want to load it first with"
          +:+ brk +:+ "/replacefrom, /appendfrom or /prependfrom.")
         [["path?"]]);
      ("exit", NewCommand exitCommand_fn "Exits the program." [["status-code?"]]) ])).

(** ** Session engine ([main.go], [appMain]) *)

Definition first_byte_is (c : ascii) (s : string) : bool :=
  match s with
  | String c' _ => Ascii.eqb c' c
  | EmptyString => false
  end.

(** [s[1:]] *)
Definition from_1 (s : string) : string :=
  String.substring 1 (String.length s - 1) s.

Definition appMain {R : Type} `{Readliner R} (reader : R) : Prog C (bool * R) :=
  let '(reader, (line, err)) := Readline reader in
  match err with
  | Some _ => ret (false, reader)
  | None =>
      let line := strings_TrimSpace line in
      if (line =? "")%string then ret (true, reader)
      else
        let* app := get_app in
        if first_byte_is "/" line && negb (slashCommandsDisabled app) then
          let '(commandName, arguments, _) := strings_Cut line " " in
          let commandName := strings_TrimSpace (from_1 commandName) in
          match commandHandlers app !! commandName with
          | None =>
              let* _ := PrintError ("unknown command: " +:+ commandName +:+ nl) in
              ret (true, reader)
          | Some command =>
              let* err := call (fn command) (strings_TrimSpace arguments) in
              let* _ := match err with
                        | Some e => PrintError (commandName +:+ ": " +:+ Error e +:+ nl)
                        | None => ret tt
                        end in
              ret (true, reader)
          end
        else
          let* _ := appendToContext (mkMessage "user" line) in
          let* '(responseContent, err) := sendContextAndProcessResponse in
          match err with
          | Some e =>
              let* _ := PrintError (Error e +:+ " (no changes done to context)" +:+ nl) in
              let* _ := popFromContext 1 in
              ret (true, reader)
          | None =>
              let* app := get_app in
              if forgetful app then
                let* _ := popFromContext 1 in
                ret (true, reader)
              else
                let* _ := appendToContext (mkMessage "assistant" responseContent) in
                ret (true, reader)
          end
  end.

(** The loop of [mainLoop], for at most [fuel] input lines: [appMain] is
    called again as long as it answers [true]. *)
Fixpoint mainLoop_for {R : Type} `{Readliner R} (fuel : nat) (reader : R) : Prog C (bool * R) :=
  match fuel with
  | O => ret (true, reader)
  | S fuel' =>
      let* '(running, reader) := appMain reader in
      if running then mainLoop_for fuel' reader else ret (false, reader)
  end.

End Commands.

(** ** Test doubles ([gptrepl_test.go]) and [encoding/json]

    These instances make the model runnable on concrete sessions. *)

Record MockCompletionAPI := mkMockCompletionAPI {
  receivedContext : list Message;
  contentToSend : list CompletionDelta;
  mock_err : option error
}.

#[global] Instance MockCompletionAPI_SendContext : CompletionAPI MockCompletionAPI :=
  fun mca context =>
    match mock_err mca with
    | Some e => (mca, (nil_chan, Some e))
    | None =>
        (mkMockCompletionAPI context (contentToSend mca) (mock_err mca),
         (make_chan (contentToSend mca) false, None))
    end.

Definition makeTestCompletionAPI : MockCompletionAPI :=
  mkMockCompletionAPI []
    [mkDelta "One" None; mkDelta "Two" None; mkDelta "Three" None; mkDelta "" (Some io_EOF)]
    None.

(** A completion service that plays a fixed sequence of establishment
    outcomes, one per call, and refuses once the sequence is over. *)
Definition ScriptedAPI : Type := list (chan * option error).

#[global] Instance ScriptedAPI_SendContext : CompletionAPI ScriptedAPI :=
  fun script _ =>
    match script with
    | [] => ([], (nil_chan, Some (errorString "script exhausted")))
    | outcome :: rest => (rest, outcome)
    end.

Record MockReadliner := mkMockReadliner {
  lines : list string;
  reader_err : option error;
  current : nat
}.

#[global] Instance MockReadliner_Readline : Readliner MockReadliner :=
  fun mr =>
    match reader_err mr with
    | Some e => (mr, ("", Some e))
    | None =>
        match lines mr !! current mr with
        | None => (mr, ("", Some io_EOF))
        | Some ret => (mkMockReadliner (lines mr) (reader_err mr) (S (current mr)), (ret, None))
        end
    end.

Definition makeTestApp {C} (c : C) : App C :=
  mkApp [] "test-model" false true false 0 "sk-test" ∅ "" c.

Definition emptyWorld : World :=
  mkWorld ∅ ∅ (fun _ => 0%Q) 0 (fun _ => ("", Some (errorString "text editor failed to run"))) 0
          NoColor [].

Module RefJson.

(** [encoding/json] at the type [[]Message]: the text [json.MarshalIndent]
    writes with the empty prefix and a tab as the indentation, and what
    [json.Unmarshal] makes of a text.

    The writer follows [appendString] with HTML escaping: the short escapes,
    the escape [u00XX] for the other control bytes and for [<], [>] and [&],
    the escape [ufffd] for every byte that is not part of a UTF-8 encoding,
    [u2028] and [u2029] for the two separators; everything else is copied.
    The empty list stands for the empty slice that is not [nil], written as
    the empty array; [MarshalIndent_nil] is what is written for the [nil]
    slice.

    The reader follows the scanner and the decoder: the whole text must be
    one JSON value ([checkValid]); an array gives one message per element
    and [null] gives none; in an object the members [role] and [content],
    matched without regard to case, set the fields when their value is a
    string, leave them when it is [null], and are a type error otherwise;
    other members are skipped.  The first type error is returned once the
    text has been decoded. *)

Local Open Scope N_scope.

Definition byte (c : ascii) : N := N_of_ascii c.
Definition chr (n : N) : ascii := ascii_of_N n.
Definition lit (s : string) : list ascii := list_ascii_of_string s.

(** The backslash. *)
Definition bs : string := String "092" EmptyString.

Definition hex_digit (n : N) : ascii := chr (if n <? 10 then 48 + n else 87 + n).

Definition hex_value (c : ascii) : option N :=
  let n := byte c in
  if (48 <=? n) && (n <=? 57) then Some (n - 48)
  else if (97 <=? n) && (n <=? 102) then Some (n - 87)
  else if (65 <=? n) && (n <=? 70) then Some (n - 55)
  else None.

(** *** [unicode/utf8] *)

Definition RuneError : N := 65533.

Definition between (lo hi : N) (c : ascii) : bool := (lo <=? byte c) && (byte c <=? hi).

(** The six low bits of a continuation byte. *)
Definition low6 (c : ascii) : N := byte c mod 64.

(** [utf8.DecodeRune]: the first rune of the bytes and its width; [RuneError]
    with the width 1 when the bytes do not begin with an encoding. *)
Definition DecodeRune (l : list ascii) : N * nat :=
  match l with
  | [] => (RuneError, 0%nat)
  | c0 :: l1 =>
      let b0 := byte c0 in
      if b0 <? 128 then (b0, 1%nat)
      else if b0 <? 194 then (RuneError, 1%nat)
      else if b0 <? 224 then
        match l1 with
        | c1 :: _ =>
            if between 128 191 c1 then ((b0 mod 32) * 64 + low6 c1, 2%nat)
            else (RuneError, 1%nat)
        | _ => (RuneError, 1%nat)
        end
      else if b0 <? 240 then
        let lo := if b0 =? 224 then 160 else 128 in
        let hi := if b0 =? 237 then 159 else 191 in
        match l1 with
        | c1 :: c2 :: _ =>
            if between lo hi c1 && between 128 191 c2
            then (((b0 mod 16) * 64 + low6 c1) * 64 + low6 c2, 3%nat)
            else (RuneError, 1%nat)
        | _ => (RuneError, 1%nat)
        end
      else if b0 <? 245 then
        let lo := if b0 =? 240 then 144 else 128 in
        let hi := if b0 =? 244 then 143 else 191 in
        match l1 with
        | c1 :: c2 :: c3 :: _ =>
            if between lo hi c1 && between 128 191 c2 && between 128 191 c3
            then ((((b0 mod 8) * 64 + low6 c1) * 64 + low6 c2) * 64 + low6 c3, 4%nat)
            else (RuneError, 1%nat)
        | _ => (RuneError, 1%nat)
        end
      else (RuneError, 1%nat)
  end.

(** [utf8.EncodeRune]; a surrogate or a value beyond [U+10FFFF] is encoded
    as [RuneError]. *)
Definition EncodeRune (r : N) : list ascii :=
  if r <? 128 then [chr r]
  else if r <? 2048 then [chr (192 + r / 64); chr (128 + r mod 64)]
  else if (1114111 <? r) || ((55296 <=? r) && (r <? 57344)) then
    [chr 239; chr 191; chr 189]
  else if r <? 65536 then
    [chr (224 + r / 4096); chr (128 + (r / 64) mod 64); chr (128 + r mod 64)]
  else
    [chr (240 + r / 262144); chr (128 + (r / 4096) mod 64);
     chr (128 + (r / 64) mod 64); chr (128 + r mod 64)].

(** Does the width-1 [RuneError] stand at the head: a byte that begins no
    encoding. *)
Definition invalid_rune (d : N * nat) : bool := (fst d =? RuneError) && (snd d =? 1)%nat.

(** [utf8.ValidString] *)
Fixpoint Valid_loop (fuel : nat) (l : list ascii) : bool :=
  match fuel, l with
  | S fuel', c :: l' =>
      if byte c <? 128 then Valid_loop fuel' l'
      else
        let d := DecodeRune l in
        if invalid_rune d then false else Valid_loop fuel' (drop (snd d) l)
  | _, _ => true
  end.

Definition ValidString (s : string) : bool :=
  let l := list_ascii_of_string s in Valid_loop (length l) l.

(** A text with every byte that begins no encoding replaced by the encoding
    of [U+FFFD]: what is read back of a text that was written. *)
Fixpoint coerce_loop (fuel : nat) (l : list ascii) : list ascii :=
  match fuel, l with
  | S fuel', c :: l' =>
      if byte c <? 128 then c :: coerce_loop fuel' l'
      else
        let d := DecodeRune l in
        EncodeRune (fst d) ++ coerce_loop fuel' (drop (snd d) l)
  | _, _ => []
  end.

Definition coerce (s : string) : string :=
  let l := list_ascii_of_string s in string_of_list_ascii (coerce_loop (length l) l).

(** *** The writer *)

Definition escape_byte (c : ascii) : list ascii :=
  let n := byte c in
  if n =? 34 then [chr 92; chr 34]
  else if n =? 92 then [chr 92; chr 92]
  else if n =? 8 then [chr 92; chr 98]
  else if n =? 12 then [chr 92; chr 102]
  else if n =? 10 then [chr 92; chr 110]
  else if n =? 13 then [chr 92; chr 114]
  else if n =? 9 then [chr 92; chr 116]
  else if (n <? 32) || (n =? 60) || (n =? 62) || (n =? 38) then
    lit (bs +:+ "u00") ++ [hex_digit (n / 16); hex_digit (n mod 16)]
  else [c].

(** The loop of [appendString]. *)
Fixpoint appendString_loop (fuel : nat) (l : list ascii) : list ascii :=
  match fuel, l with
  | S fuel', c :: l' =>
      if byte c <? 128 then escape_byte c ++ appendString_loop fuel' l'
      else
        let d := DecodeRune l in
        if invalid_rune d then lit (bs +:+ "ufffd") ++ appendString_loop fuel' l'
        else if (fst d =? 8232) || (fst d =? 8233) then
          lit (bs +:+ "u202") ++ [hex_digit (fst d mod 16)]
          ++ appendString_loop fuel' (drop (snd d) l)
        else take (snd d) l ++ appendString_loop fuel' (drop (snd d) l)
  | _, _ => []
  end.

Definition quote (s : string) : list ascii :=
  let l := list_ascii_of_string s in
  [chr 34] ++ appendString_loop (length l) l ++ [chr 34].

Definition encode_message (m : Message) : list ascii :=
  lit (tab +:+ "{" +:+ nl +:+ tab +:+ tab) ++ quote "role" ++ lit ": " ++ quote (Role m)
  ++ lit ("," +:+ nl +:+ tab +:+ tab) ++ quote "content" ++ lit ": " ++ quote (Content m)
  ++ lit (nl +:+ tab +:+ "}").

Fixpoint encode_messages (ms : list Message) : list ascii :=
  match ms with
  | [] => []
  | [m] => encode_message m
  | m :: rest => encode_message m ++ lit ("," +:+ nl) ++ encode_messages rest
  end.

Definition MarshalIndent (context : list Message) : string * option error :=
  match context with
  | [] => ("[]", None)
  | _ => (string_of_list_ascii (lit ("[" +:+ nl) ++ encode_messages context ++ lit (nl +:+ "]")),
          None)
  end.

Definition MarshalIndent_nil : string * option error := ("null", None).

(** *** The scanner: syntax errors *)

(** [quoteChar]: the offending byte as the error message shows it. *)
Definition hex2 (n : N) : list ascii := [hex_digit (n / 16); hex_digit (n mod 16)].

Definition quoteChar (c : ascii) : string :=
  let n := byte c in
  let apostrophe := chr 39 in
  let inside : list ascii :=
    if n =? 39 then [chr 92; chr 39]
    else if n =? 34 then [chr 34]
    else if n =? 92 then [chr 92; chr 92]
    else if (32 <=? n) && (n <=? 126) then [c]
    else if n =? 7 then [chr 92; chr 97]
    else if n =? 8 then [chr 92; chr 98]
    else if n =? 12 then [chr 92; chr 102]
    else if n =? 10 then [chr 92; chr 110]
    else if n =? 13 then [chr 92; chr 114]
    else if n =? 9 then [chr 92; chr 116]
    else if n =? 11 then [chr 92; chr 118]
    else if (n <? 32) || (n =? 127) then [chr 92; chr 120] ++ hex2 n
    else if (161 <=? n) && negb (n =? 173) then EncodeRune n
    else lit (bs +:+ "u00") ++ hex2 n in
  string_of_list_ascii ([apostrophe] ++ inside ++ [apostrophe]).

Definition invalid_character (c : ascii) (context : string) : string :=
  "invalid character " +:+ quoteChar c +:+ " " +:+ context.

Definition unexpected_end : string := "unexpected end of JSON input".

(** At the end of the text the scanner is handed a space: in the middle of
    a token that does not take one, the space is the invalid character. *)
Definition ends_in (context : string) : string := invalid_character " " context.

Inductive result (A : Type) : Type :=
| Ok (a : A)
| Err (msg : string).

Arguments Ok {A}.
Arguments Err {A}.

Definition prepend {A} (p : list A) (r : result (list A * list ascii))
    : result (list A * list ascii) :=
  match r with
  | Ok (s, rest) => Ok (p ++ s, rest)
  | Err msg => Err msg
  end.

Definition is_space (c : ascii) : bool :=
  let n := byte c in (n =? 32) || (n =? 9) || (n =? 13) || (n =? 10).

Fixpoint skip_space (l : list ascii) : list ascii :=
  match l with
  | c :: l' => if is_space c then skip_space l' else l
  | [] => []
  end.

Definition in_hex_escape : string := "in " +:+ bs +:+ "u hexadecimal character escape".

(** The four hexadecimal digits of a [u] escape. *)
Definition hex4 (l : list ascii) : result (N * list ascii) :=
  match l with
  | [] => Err (ends_in in_hex_escape)
  | h1 :: l1 =>
      match hex_value h1 with
      | None => Err (invalid_character h1 in_hex_escape)
      | Some x1 =>
          match l1 with
          | [] => Err (ends_in in_hex_escape)
          | h2 :: l2 =>
              match hex_value h2 with
              | None => Err (invalid_character h2 in_hex_escape)
              | Some x2 =>
                  match l2 with
                  | [] => Err (ends_in in_hex_escape)
                  | h3 :: l3 =>
                      match hex_value h3 with
                      | None => Err (invalid_character h3 in_hex_escape)
                      | Some x3 =>
                          match l3 with
                          | [] => Err (ends_in in_hex_escape)
                          | h4 :: l4 =>
                              match hex_value h4 with
                              | None => Err (invalid_character h4 in_hex_escape)
                              | Some x4 => Ok (((x1 * 16 + x2) * 16 + x3) * 16 + x4, l4)
                              end
                          end
                      end
                  end
              end
          end
      end
  end.

(** [getu4]: the value of a [u] escape at the head, if there is one. *)
Definition getu4 (l : list ascii) : option (N * list ascii) :=
  match l with
  | b :: u :: l2 =>
      if (byte b =? 92) && (byte u =? 117) then
        match hex4 l2 with
        | Ok r => Some r
        | Err _ => None
        end
      else None
  | _ => None
  end.

Definition simple_escape (e : ascii) : option ascii :=
  let n := byte e in
  if (n =? 34) || (n =? 92) || (n =? 47) then Some e
  else if n =? 98 then Some (chr 8)
  else if n =? 102 then Some (chr 12)
  else if n =? 110 then Some (chr 10)
  else if n =? 114 then Some (chr 13)
  else if n =? 116 then Some (chr 9)
  else None.

Definition is_surrogate (r : N) : bool := (55296 <=? r) && (r <? 57344).

(** [utf16.DecodeRune] *)
Definition utf16_DecodeRune (r1 r2 : N) : N :=
  if (55296 <=? r1) && (r1 <? 56320) && (56320 <=? r2) && (r2 <? 57344)
  then (r1 - 55296) * 1024 + (r2 - 56320) + 65536
  else RuneError.

(** A string literal after its opening quote, up to the closing one: its
    value ([unquote]) and what follows it. *)
Fixpoint string_body (fuel : nat) (l : list ascii) : result (list ascii * list ascii) :=
  match fuel with
  | O => Err unexpected_end
  | S fuel' =>
      match l with
      | [] => Err unexpected_end
      | c :: l1 =>
          if byte c =? 34 then Ok ([], l1)
          else if byte c =? 92 then
            match l1 with
            | [] => Err (ends_in "in string escape code")
            | e :: l2 =>
                if byte e =? 117 then
                  match hex4 l2 with
                  | Err msg => Err msg
                  | Ok (rr, l6) =>
                      if is_surrogate rr then
                        match getu4 l6 with
                        | Some (rr1, l12) =>
                            if utf16_DecodeRune rr rr1 =? RuneError
                            then prepend (EncodeRune RuneError) (string_body fuel' l6)
                            else prepend (EncodeRune (utf16_DecodeRune rr rr1))
                                         (string_body fuel' l12)
                        | None => prepend (EncodeRune RuneError) (string_body fuel' l6)
                        end
                      else prepend (EncodeRune rr) (string_body fuel' l6)
                  end
                else
                  match simple_escape e with
                  | Some b => prepend [b] (string_body fuel' l2)
                  | None => Err (invalid_character e "in string escape code")
                  end
            end
          else if byte c <? 32 then Err (invalid_character c "in string literal")
          else if byte c <? 128 then prepend [c] (string_body fuel' l1)
          else
            let d := DecodeRune l in
            prepend (EncodeRune (fst d)) (string_body fuel' (drop (snd d) l))
      end
  end.

Definition is_digit (c : ascii) : bool := (48 <=? byte c) && (byte c <=? 57).

Fixpoint skip_digits (l : list ascii) : list ascii :=
  match l with
  | c :: l' => if is_digit c then skip_digits l' else l
  | [] => []
  end.

(** What follows the integer part of a number: a fraction and an exponent,
    each optional. *)
Definition number_exponent (l : list ascii) : result (list ascii) :=
  match l with
  | e :: l1 =>
      if (byte e =? 101) || (byte e =? 69) then
        let l2 := match l1 with
                  | s :: l2 => if (byte s =? 43) || (byte s =? 45) then l2 else l1
                  | [] => l1
                  end in
        match l2 with
        | [] => Err (ends_in "in exponent of numeric literal")
        | d :: l3 =>
            if is_digit d then Ok (skip_digits l3)
            else Err (invalid_character d "in exponent of numeric literal")
        end
      else Ok l
  | [] => Ok l
  end.

Definition number_fraction (l : list ascii) : result (list ascii) :=
  match l with
  | p :: l1 =>
      if byte p =? 46 then
        match l1 with
        | [] => Err (ends_in "after decimal point in numeric literal")
        | d :: l2 =>
            if is_digit d then number_exponent (skip_digits l2)
            else Err (invalid_character d "after decimal point in numeric literal")
        end
      else number_exponent l
  | [] => Ok l
  end.

(** A number that begins at the head (a digit or the minus sign). *)
Definition number (l : list ascii) : result (list ascii) :=
  let digits :=
    match l with
    | c :: l1 => if byte c =? 45 then l1 else l
    | [] => l
    end in
  match digits with
  | [] => Err (ends_in "in numeric literal")
  | d :: l2 =>
      if byte d =? 48 then number_fraction l2
      else if is_digit d then number_fraction (skip_digits l2)
      else Err (invalid_character d "in numeric literal")
  end.

(** The letters of [true], [false] or [null] after the first one. *)
Fixpoint literal (name : string) (expected l : list ascii) : result (list ascii) :=
  match expected with
  | [] => Ok l
  | x :: expected' =>
      let context :=
        "in literal " +:+ name +:+ " (expecting " +:+ quoteChar x +:+ ")" in
      match l with
      | [] => Err (ends_in context)
      | c :: l' =>
          if Ascii.eqb c x then literal name expected' l'
          else Err (invalid_character c context)
      end
  end.

(** A JSON value. *)
#[local] Unset Elimination Schemes.

Inductive value : Type :=
| JNull
| JBool (b : bool)
| JNumber
| JString (s : list ascii)
| JArray (elements : list value)
| JObject (members : list (list ascii * value)).

#[local] Set Elimination Schemes.

Definition maxNestingDepth : N := 10000.

Definition after_value {A} (r : result (list ascii)) (v : A) : result (A * list ascii) :=
  match r with
  | Ok rest => Ok (v, rest)
  | Err msg => Err msg
  end.

(** [parse_value] reads a value after optional space; [parse_elements]
    the elements of an array from the first one on, up to the closing
    bracket; [parse_members] the members of an object from the first key
    on, up to the closing brace.  [depth] counts the arrays and objects that
    are open. *)
Fixpoint parse_value (fuel : nat) (depth : N) (l : list ascii) : result (value * list ascii) :=
  match fuel with
  | O => Err unexpected_end
  | S fuel' =>
      match skip_space l with
      | [] => Err unexpected_end
      | c :: l1 =>
          let n := byte c in
          if n =? 123 then
            if maxNestingDepth <=? depth then Err (invalid_character c "exceeded max depth")
            else
              match skip_space l1 with
              | [] => Err unexpected_end
              | c1 :: l2 =>
                  if byte c1 =? 125 then Ok (JObject [], l2)
                  else
                    match parse_members fuel' (depth + 1) l1 with
                    | Ok (ms, rest) => Ok (JObject ms, rest)
                    | Err msg => Err msg
                    end
              end
          else if n =? 91 then
            if maxNestingDepth <=? depth then Err (invalid_character c "exceeded max depth")
            else
              match skip_space l1 with
              | [] => Err unexpected_end
              | c1 :: l2 =>
                  if byte c1 =? 93 then Ok (JArray [], l2)
                  else
                    match parse_elements fuel' (depth + 1) l1 with
                    | Ok (vs, rest) => Ok (JArray vs, rest)
                    | Err msg => Err msg
                    end
              end
          else if n =? 34 then
            match string_body (length l1) l1 with
            | Ok (s, rest) => Ok (JString s, rest)
            | Err msg => Err msg
            end
          else if (n =? 45) || is_digit c then after_value (number (c :: l1)) JNumber
          else if n =? 116 then after_value (literal "true" (lit "rue") l1) (JBool true)
          else if n =? 102 then after_value (literal "false" (lit "alse") l1) (JBool false)
          else if n =? 110 then after_value (literal "null" (lit "ull") l1) JNull
          else Err (invalid_character c "looking for beginning of value")
      end
  end
with parse_elements (fuel : nat) (depth : N) (l : list ascii) : result (list value * list ascii) :=
  match fuel with
  | O => Err unexpected_end
  | S fuel' =>
      match parse_value fuel' depth l with
      | Err msg => Err msg
      | Ok (v, l1) =>
          match skip_space l1 with
          | [] => Err unexpected_end
          | c :: l2 =>
              if byte c =? 44 then
                match parse_elements fuel' depth l2 with
                | Ok (vs, rest) => Ok (v :: vs, rest)
                | Err msg => Err msg
                end
              else if byte c =? 93 then Ok ([v], l2)
              else Err (invalid_character c "after array element")
          end
      end
  end
with parse_members (fuel : nat) (depth : N) (l : list ascii)
    : result (list (list ascii * value) * list ascii) :=
  match fuel with
  | O => Err unexpected_end
  | S fuel' =>
      match skip_space l with
      | [] => Err unexpected_end
      | q :: l1 =>
          if byte q =? 34 then
            match string_body (length l1) l1 with
            | Err msg => Err msg
            | Ok (key, l2) =>
                match skip_space l2 with
                | [] => Err unexpected_end
                | colon :: l3 =>
                    if byte colon =? 58 then
                      match parse_value fuel' depth l3 with
                      | Err msg => Err msg
                      | Ok (v, l4) =>
                          match skip_space l4 with
                          | [] => Err unexpected_end
                          | c :: l5 =>
                              if byte c =? 44 then
                                match parse_members fuel' depth l5 with
                                | Ok (ms, rest) => Ok ((key, v) :: ms, rest)
                                | Err msg => Err msg
                                end
                              else if byte c =? 125 then Ok ([(key, v)], l5)
                              else Err (invalid_character c "after object key:value pair")
                          end
                      end
                    else Err (invalid_character colon "after object key")
                end
            end
          else Err (invalid_character q "looking for beginning of object key string")
      end
  end.

(** [checkValid] and the value of the text. *)
Definition parse_document (l : list ascii) : result value :=
  match parse_value (2 * length l + 2) 0 l with
  | Err msg => Err msg
  | Ok (v, rest) =>
      match skip_space rest with
      | [] => Ok v
      | c :: _ => Err (invalid_character c "after top-level value")
      end
  end.

(** *** The decoder: type errors *)

Definition kind (v : value) : string :=
  match v with
  | JNull => "null"
  | JBool _ => "bool"
  | JNumber => "number"
  | JString _ => "string"
  | JArray _ => "array"
  | JObject _ => "object"
  end.

Definition lower (c : ascii) : ascii :=
  if (65 <=? byte c) && (byte c <=? 90) then chr (byte c + 32) else c.

(** Keys are matched exactly, or else without regard to case. *)
Definition key_is (name : string) (key : list ascii) : bool :=
  String.eqb (string_of_list_ascii (map lower key)) name.

Definition first_error (e1 e2 : option string) : option string :=
  match e1 with
  | Some _ => e1
  | None => e2
  end.

Definition field_error (v : value) (name : string) : string :=
  "json: cannot unmarshal " +:+ kind v +:+ " into Go struct field Message." +:+ name
  +:+ " of type string".

Definition value_error (v : value) (type : string) : string :=
  "json: cannot unmarshal " +:+ kind v +:+ " into Go value of type " +:+ type.

(** One member of an object, stored into a message. *)
Definition set_member (member : list ascii * value) (m : Message) : Message * option string :=
  let '(key, v) := member in
  if key_is "role" key then
    match v with
    | JString s => (mkMessage (string_of_list_ascii s) (Content m), None)
    | JNull => (m, None)
    | _ => (m, Some (field_error v "role"))
    end
  else if key_is "content" key then
    match v with
    | JString s => (mkMessage (Role m) (string_of_list_ascii s), None)
    | JNull => (m, None)
    | _ => (m, Some (field_error v "content"))
    end
  else (m, None).

Fixpoint decode_members (ms : list (list ascii * value)) (m : Message)
    : Message * option string :=
  match ms with
  | [] => (m, None)
  | member :: rest =>
      let '(m1, e1) := set_member member m in
      let '(m2, e2) := decode_members rest m1 in
      (m2, first_error e1 e2)
  end.

Definition decode_element (v : value) : Message * option string :=
  match v with
  | JObject ms => decode_members ms (mkMessage "" "")
  | JNull => (mkMessage "" "", None)
  | _ => (mkMessage "" "", Some (value_error v "main.Message"))
  end.

Fixpoint decode_elements (vs : list value) : list Message * option string :=
  match vs with
  | [] => ([], None)
  | v :: rest =>
      let '(m, e1) := decode_element v in
      let '(ms, e2) := decode_elements rest in
      (m :: ms, first_error e1 e2)
  end.

Definition decode (v : value) : list Message * option string :=
  match v with
  | JArray vs => decode_elements vs
  | JNull => ([], None)
  | _ => ([], Some (value_error v "[]main.Message"))
  end.

Definition Unmarshal (data : string) : list Message * option error :=
  match parse_document (list_ascii_of_string data) with
  | Err msg => ([], Some (errorString msg))
  | Ok v =>
      let '(ms, e) := decode v in
      (ms, option_map errorString e)
  end.

(** *** What is read back of what was written *)

(** The body of the literal written for a text, and the value read of it. *)
Definition body (s : string) : list ascii := appendString_loop (length (lit s)) (lit s).
Definition read_back (s : string) : list ascii := coerce_loop (length (lit s)) (lit s).

Definition coerce_message (m : Message) : Message :=
  mkMessage (coerce (Role m)) (coerce (Content m)).

(** The JSON value of the object written for a message. *)
Definition message_value (m : Message) : value :=
  JObject [(lit "role", JString (read_back (Role m)));
           (lit "content", JString (read_back (Content m)))].

#[global] Instance codec : Json := {|
  json_MarshalIndent := MarshalIndent;
  json_Unmarshal := Unmarshal
|}.

End RefJson.

(** ** Plain-text rendering of a context (the revision of [util.go] that
    follows [completion_api.go]) *)

(** [strings.Split(s, sep)] for a separator of at least one byte (the
    program's is the newline): the pieces of [s] between the occurrences of
    [sep], from left to right.  [fuel] bounds the bytes still to look at. *)
Fixpoint Split_loop (sep : list ascii) (fuel : nat) (l : list ascii) : list (list ascii) :=
  match fuel with
  | O => [l]
  | S fuel' =>
      match l with
      | [] => [[]]
      | c :: l' =>
          match strip_prefix sep l with
          | Some rest => [] :: Split_loop sep fuel' rest
          | None =>
              match Split_loop sep fuel' l' with
              | piece :: more => (c :: piece) :: more
              | [] => [[c]]
              end
          end
      end
  end.

Definition strings_Split (s sep : string) : list string :=
  let l := list_ascii_of_string s in
  map string_of_list_ascii (Split_loop (list_ascii_of_string sep) (length l) l).

(** [line[len(line)-1] == c] *)
Definition last_byte_is (c : ascii) (s : string) : bool :=
  match String.get (String.length s - 1) s with
  | Some c' => Ascii.eqb c' c
  | None => false
  end.

Section PlainText.

(** [color.CyanString] and [color.Set(color.Bold, color.FgWhite).Sprintf]
    applied to a text. *)
Variables CyanString BoldFgWhiteString : string -> string.

Definition plainTextRepresentation (context : list Message) (useColor : bool) : string :=
  let maybeBoldFgWhiteString := if useColor then BoldFgWhiteString else fun s => s in
  let maybeCyanString := if useColor then CyanString else fun s => s in
  fold_left (fun result msg =>
               (result
                  +:+ (maybeCyanString "[" +:+ maybeBoldFgWhiteString (Role msg)
                         +:+ maybeCyanString "]" +:+ nl))
                 +:+ (Content msg +:+ nl +:+ nl))
            context "".

End PlainText.

(** The message under construction is closed and joins the context. *)
Definition close_message (context : list Message) (currentRole currentMessageContent : string)
    : list Message :=
  context ++ [mkMessage currentRole (strings_TrimSpace currentMessageContent)].

(** The [range] loop of [parseUncoloredPlainTextRepresentation] and what
    follows it. *)
Fixpoint parsePlain_loop (lines : list string) (context : list Message)
    (currentMessageContent currentRole : string) : list Message * option error :=
  match lines with
  | [] =>
      if 0 <? slen currentMessageContent
      then (close_message context currentRole currentMessageContent, None)
      else (context, None)
  | line :: rest =>
      let line := strings_TrimSpace line in
      if (3 <=? slen line) && first_byte_is "[" line && last_byte_is "]" line then
        let context :=
          if negb (currentRole =? "")%string
          then close_message context currentRole currentMessageContent
          else context in
        let currentRole := String.substring 1 (String.length line - 2) line in
        if negb (isRoleValid currentRole) then
          ([], Some (errorString ("invalid role: " +:+ currentRole)))
        else parsePlain_loop rest context "" currentRole
      else if negb (currentRole =? "")%string && (0 <? slen line) then
        parsePlain_loop rest context (currentMessageContent +:+ line +:+ nl) currentRole
      else if negb (line =? "")%string then
        ([], Some (errorString ("expected a [role], found " +:+ line)))
      else parsePlain_loop rest context currentMessageContent currentRole
  end.

Definition parseUncoloredPlainTextRepresentation (repr : string) : list Message * option error :=
  parsePlain_loop (strings_Split repr nl) [] "" "".

(** ** Vocabulary of the statements *)

(** The text of a run of fragments, in arrival order. *)
Definition text_of (ds : list CompletionDelta) : string :=
  fold_right (fun d s => delta d +:+ s) "" ds.

(** The world after each fragment of [ds] has been echoed to the printer. *)
Definition echoed (ds : list CompletionDelta) (w : World) : World :=
  fold_left (fun w d => emit (EvPrint (delta d)) w) ds w.

Definition is_fragment (d : CompletionDelta) : Prop := err d = None.

Definition valid_roles (ctx : list Message) : Prop :=
  Forall (fun m => isRoleValid (Role m) = true) ctx.

Definition invalid_role_error (path : string) (idx : Z) : error :=
  errorString (path +:+ ": message #" +:+ itoa idx
     +:+ " (starting from zero) has an invalid " +:+ dq +:+ "role" +:+ dq +:+ " attribute").

(** What a trace says about the completion service, the clock and the disk. *)
Definition sends (tr : list Event) : list (list Message) :=
  flat_map (fun e => match e with EvSendContext ctx => [ctx] | _ => [] end) tr.

Definition sleeps (tr : list Event) : list Z :=
  flat_map (fun e => match e with EvSleep d => [d] | _ => [] end) tr.

Definition writes (tr : list Event) : list (string * string) :=
  flat_map (fun e => match e with EvWriteFile p d _ => [(p, d)] | _ => [] end) tr.

(** The final application state and world of a run, however it ended. *)
Definition app_of {C A} (r : Res C A) : App C :=
  match r with
  | Ret _ app _ | Hang app _ | Exit _ app _ => app
  end.

Definition world_of {C A} (r : Res C A) : World :=
  match r with
  | Ret _ _ w | Hang _ w | Exit _ _ w => w
  end.

(** [keeps m Q]: started with valid roles in the context, the program [m]
    ends, however it ends, with valid roles in the context, and the value it
    returns satisfies [Q]. *)
Definition keeps {C A} (m : Prog C A) (Q : A -> Prop) : Prop :=
  forall (app : App C) (w : World),
    valid_roles (context app) ->
    match m app w with
    | Ret a app' _ => valid_roles (context app') /\ Q a
    | Hang app' _ => valid_roles (context app')
    | Exit _ app' _ => valid_roles (context app')
    end.

(** [frame app app']: nothing but the completion client changed. *)
Definition frame {C} (app app' : App C) : Prop := app' = set_capi (capi app') app.

(** The outcomes a completion service gives to [n] calls in a row with the
    same context. *)
Fixpoint outcomes {C} `{CompletionAPI C} (c : C) (ctx : list Message) (n : nat)
    : list (chan * option error) :=
  match n with
  | O => []
  | S n' => let '(c', r) := SendContext c ctx in r :: outcomes c' ctx n'
  end.

(** How many of a list of outcomes are consumed when one stops at the first
    success or at the end of the list, and the outcome one stops at. *)
Fixpoint attempts (outs : list (chan * option error)) : nat :=
  match outs with
  | [] => 0
  | (_, None) :: _ => 1
  | (_, Some _) :: rest => S (attempts rest)
  end.

Definition final (outs : list (chan * option error)) : chan * option error :=
  nth (attempts outs - 1) outs (nil_chan, None).

(** The values the variable [waitTime] takes: [k] of them from [waitTime] on,
    the jitter of step [i] being the [i]-th value of the random source.
    [backoff] is the recurrence in exact arithmetic, [backoff64] the one the
    program computes, every operation rounded to [float64]. *)
Fixpoint backoff (waitTime : Q) (rnd : nat -> Q) (i k : nat) : list Q :=
  match k with
  | O => []
  | S k' => waitTime :: backoff (waitTime * waitTimeMultiplier + rnd i / 3)%Q rnd (S i) k'
  end.

Fixpoint backoff64 (waitTime : Q) (rnd : nat -> Q) (i k : nat) : list Q :=
  match k with
  | O => []
  | S k' =>
      waitTime
      :: backoff64 (float64 (float64 (waitTime * waitTimeMultiplier)
                             + float64 (float64 (rnd i) / 3)))
           rnd (S i) k'
  end.

(** What [sendContextAndProcessResponse] does with the drained stream. *)
Definition finish {C} (drained : string * option error) : Prog C (string * option error) :=
  let '(responseContent, err) := drained in
  match err with
  | Some e => ret ("", Some (errorString ("stream error: " +:+ Error e)))
  | None => ret (responseContent, None)
  end.

(** A session: the command table is registered, then the lines of [input]
    are read and processed one after the other. *)
Definition session {C} `{CompletionAPI C} `{Json} (input : list string)
    : Prog C (bool * MockReadliner) :=
  let* _ := registerCommandHandlers in
  mainLoop_for (length input) (mkMockReadliner input None 0).

(** A completion service that always refuses, and one whose stream breaks
    after a first fragment. *)
Definition refusingAPI : MockCompletionAPI :=
  mkMockCompletionAPI [] [] (Some (errorString "connection refused")).

Definition breakingAPI : MockCompletionAPI :=
  mkMockCompletionAPI []
    [mkDelta "par" None; mkDelta "" (Some (errorString "connection reset"))] None.

Definition abcdefAPI : MockCompletionAPI :=
  mkMockCompletionAPI []
    [mkDelta "abc " None; mkDelta "def" None; mkDelta "" (Some io_EOF)] None.

(** A service that refuses twice and then streams [abc def]. *)
Definition flakyAPI : ScriptedAPI :=
  [ (nil_chan, Some (errorString "timeout"));
    (nil_chan, Some (errorString "rate limited"));
    (make_chan [mkDelta "abc " None; mkDelta "def" None; mkDelta "" (Some io_EOF)] true, None) ].

(** The application with the mirror [P] configured; a world whose random
    source always answers [0.9]; two contexts, and a world holding the second
    one, whose third record has the role [narrator], as the file [ctx.json]. *)
Definition mirrored : App MockCompletionAPI :=
  set_autosaveFilePath "P" (makeTestApp makeTestCompletionAPI).

Definition jitteryWorld : World :=
  mkWorld ∅ ∅ (fun _ => 9 # 10) 0 (fun _ => ("", None)) 0 NoColor [].

(** A world whose random source always answers the largest [float64] below
    one, [1 - 2^-53]. *)
Definition roundingWorld : World :=
  mkWorld ∅ ∅ (fun _ => 9007199254740991 # 9007199254740992) 0 (fun _ => ("", None)) 0
          NoColor [].

Definition three_messages : list Message :=
  [mkMessage "system" "a"; mkMessage "user" "b"; mkMessage "assistant" "c"].

Definition narrator_messages : list Message :=
  [mkMessage "system" "a"; mkMessage "user" "b"; mkMessage "narrator" "c"].

Definition narratorWorld : World :=
  set_files {[ "ctx.json" := fst (json_MarshalIndent narrator_messages) ]} emptyWorld.

(** A text of one line. *)
Definition single_line (s : string) : bool :=
  forallb (fun c => negb (Ascii.eqb c "010")) (list_ascii_of_string s).

(** The test by which [parseUncoloredPlainTextRepresentation] takes a
    trimmed line for a [[role]] header. *)
Definition reads_as_header (line : string) : bool :=
  (3 <=? slen line) && first_byte_is "[" line && last_byte_is "]" line.

(** A content the plain-text format can carry: one line, not empty, with no
    white space around it, and not of the shape of a header. *)
Definition plain_line (s : string) : Prop :=
  s <> "" /\ strings_TrimSpace s = s /\ single_line s = true /\ reads_as_header s = false.

Definition plain_messages (ctx : list Message) : Prop :=
  Forall (fun m => isRoleValid (Role m) = true /\ plain_line (Content m)) ctx.

(** The three lines a message is rendered as. *)
Definition rendered_lines (m : Message) : list string :=
  ["[" +:+ Role m +:+ "]"; Content m; ""].

(** The rendering without colours. *)
Definition uncoloured (ctx : list Message) : string :=
  plainTextRepresentation (fun s => s) (fun s => s) ctx false.

(** * Properties *)

Lemma string_app_assoc (a b c : string) : (a +:+ b) +:+ c = a +:+ (b +:+ c).
Proof.
  induction a as [|ch a IH]; [reflexivity |].
  change (String ch ((a +:+ b) +:+ c) = String ch (a +:+ (b +:+ c))).
  now rewrite IH.
Qed.

Lemma string_app_nil_r (a : string) : a +:+ "" = a.
Proof.
  induction a as [|ch a IH]; [reflexivity |].
  change (String ch (a +:+ "") = String ch a).
  now rewrite IH.
Qed.

Lemma text_of_app (xs ys : list CompletionDelta) :
  text_of (xs ++ ys) = text_of xs +:+ text_of ys.
Proof.
  induction xs as [|d xs IH]; simpl; [reflexivity |].
  now rewrite IH, string_app_assoc.
Qed.

Ltac run :=
  unfold bind, ret, hang, get_app, modify_app, Print, PrintWarning, PrintError,
         time_Sleep, log in *; simpl in *.

(** ** The drain *)

Section Drain.

Context {C : Type}.

Lemma errors_Is_fragment (d : CompletionDelta) (target : error) :
  is_fragment d -> errors_Is (err d) target = false.
Proof. unfold is_fragment; intros ->; reflexivity. Qed.

(** The loop eats a run of fragments, echoing and collecting each. *)
Lemma drain_fragments (frags rest : list CompletionDelta) (closed : bool) :
  Forall is_fragment frags ->
  forall (collect : string) (app : App C) (w : World),
    printAndCollectStream_loop (frags ++ rest) closed collect app w
    = printAndCollectStream_loop rest closed (collect +:+ text_of frags) app (echoed frags w).
Proof.
  induction 1 as [|d frags Hd _ IH]; intros collect app w; simpl.
  - now rewrite string_app_nil_r.
  - rewrite (errors_Is_fragment d io_EOF Hd). rewrite Hd. run.
    rewrite IH. now rewrite string_app_assoc.
Qed.

(** C7. Draining returns the concatenation of the fragments, in arrival
    order, when the first delta that is not a plain fragment is the
    end-of-stream marker; when that delta carries another error, draining
    returns that error with the empty text, the fragments collected so far
    being dropped. *)
Theorem drain_concatenates_or_fails (app : App C) (w : World)
    (frags : list CompletionDelta) (last : CompletionDelta)
    (rest : list CompletionDelta) (closed : bool) :
  Forall is_fragment frags ->
  (errors_Is (err last) io_EOF = true ->
   printAndCollectStream (make_chan (frags ++ last :: rest) closed) app w
   = Ret (text_of frags, None) app (emit (EvPrint nl) (echoed frags w)))
  /\
  (forall e : error,
     err last = Some e -> errors_Is (Some e) io_EOF = false ->
     printAndCollectStream (make_chan (frags ++ last :: rest) closed) app w
     = Ret ("", Some e) app (echoed frags w)).
Proof.
  intros Hfrags; split.
  - intros Heof. unfold printAndCollectStream.
    rewrite drain_fragments by assumption. simpl. rewrite Heof. reflexivity.
  - intros e He Hne. unfold printAndCollectStream.
    rewrite drain_fragments by assumption. simpl. rewrite He, Hne. reflexivity.
Qed.

(** C10. A channel the producer closes after plain fragments only, with no
    terminal value, drains to the text collected so far and no error. *)
Theorem drain_closed_channel_is_clean_end (app : App C) (w : World)
    (frags : list CompletionDelta) :
  Forall is_fragment frags ->
  printAndCollectStream (make_chan frags true) app w
  = Ret (text_of frags, None) app (emit (EvPrint nl) (echoed frags w)).
Proof.
  intros Hfrags. unfold printAndCollectStream.
  rewrite <- (app_nil_r frags) at 1.
  rewrite drain_fragments by assumption. reflexivity.
Qed.

(** X1. An open channel that stops delivering leaves the consumer waiting. *)
Lemma drain_open_channel_blocks (app : App C) (w : World) (frags : list CompletionDelta) :
  Forall is_fragment frags ->
  printAndCollectStream (make_chan frags false) app w = Hang app (echoed frags w).
Proof.
  intros Hfrags. unfold printAndCollectStream.
  rewrite <- (app_nil_r frags) at 1.
  rewrite drain_fragments by assumption. reflexivity.
Qed.

End Drain.

(** ** Context store and persistence *)

Section Store.

Context {C : Type} `{CompletionAPI C} `{Json}.

Lemma len_app {A} (xs ys : list A) : len (xs ++ ys) = len xs + len ys.
Proof. unfold len. rewrite length_app. lia. Qed.

(** Writing a context file always returns, and leaves the application alone. *)
Lemma writeContextFile_returns (path : string) (ctx : list Message) (app : App C) (w : World) :
  exists e, writeContextFile path ctx app w
            = Ret e app (world_of (writeContextFile path ctx app w)).
Proof.
  unfold writeContextFile. destruct (json_MarshalIndent ctx) as [data [e|]].
  - now exists (Some e).
  - unfold os_WriteFile. case bool_decide; eexists; reflexivity.
Qed.

(** The autosave refresh always returns and never touches the application
    state, whether the write went through or not. *)
Lemma tryUpdateAutosaveFile_returns (app : App C) (w : World) :
  tryUpdateAutosaveFile app w
  = Ret tt app (world_of (tryUpdateAutosaveFile app w)).
Proof.
  unfold tryUpdateAutosaveFile. run.
  destruct (autosaveFilePath app =? "")%string; [reflexivity |].
  destruct (writeContextFile_returns (autosaveFilePath app) (context app) app w) as [e ->].
  destruct e; reflexivity.
Qed.

Lemma appendToContext_returns (msg : Message) (app : App C) (w : World) :
  appendToContext msg app w
  = Ret tt (set_context (context app ++ [msg]) app)
        (world_of (tryUpdateAutosaveFile (set_context (context app ++ [msg]) app) w)).
Proof.
  unfold appendToContext. run. now rewrite tryUpdateAutosaveFile_returns.
Qed.

Lemma popFromContext_in_range (app : App C) (w : World) (n : Z) :
  1 <= n <= len (context app) ->
  let kept := take (Z.to_nat (len (context app) - n)) (context app) in
  popFromContext n app w
  = Ret None (set_context kept app)
        (world_of (tryUpdateAutosaveFile (set_context kept app) w)).
Proof.
  intros [Hlo Hhi] kept. unfold popFromContext. run.
  destruct (Z.ltb_spec n 1); [lia |].
  destruct (Z.ltb_spec (len (context app)) n); [lia |].
  fold kept. now rewrite tryUpdateAutosaveFile_returns.
Qed.

Lemma popFromContext_out_of_range (app : App C) (w : World) (n : Z) :
  n < 1 \/ len (context app) < n ->
  exists e, popFromContext n app w = Ret (Some e) app w.
Proof.
  intros Hbad. unfold popFromContext. run.
  destruct (Z.ltb_spec n 1); [eexists; reflexivity |].
  destruct (Z.ltb_spec (len (context app)) n); [eexists; reflexivity | lia].
Qed.

(** C5. For [1 <= n <= len(context)], [popFromContext(n)] returns no error
    and keeps exactly the first [len(context) - n] messages, the [n] last
    ones being removed; for [n < 1] or [n > len(context)] it returns an error
    and changes neither the context nor anything else. *)
Theorem popFromContext_removes_last_n (app : App C) (w : World) (n : Z) :
  (1 <= n <= len (context app) ->
   let kept := take (Z.to_nat (len (context app) - n)) (context app) in
   popFromContext n app w
   = Ret None (set_context kept app)
         (world_of (tryUpdateAutosaveFile (set_context kept app) w))
   /\ exists removed, context app = kept ++ removed /\ len removed = n)
  /\
  (n < 1 \/ len (context app) < n ->
   exists e, popFromContext n app w = Ret (Some e) app w).
Proof.
  split.
  - intros Hn kept. split.
    + now apply popFromContext_in_range.
    + exists (drop (Z.to_nat (len (context app) - n)) (context app)). split.
      * subst kept. now rewrite take_drop.
      * unfold len in *. rewrite length_drop. lia.
  - apply popFromContext_out_of_range.
Qed.

(** Appending one message and popping it again gives the context back. *)
Lemma pop_after_append (ctx : list Message) (msg : Message) :
  take (Z.to_nat (len (ctx ++ [msg]) - 1)) (ctx ++ [msg]) = ctx.
Proof.
  assert (E : Z.to_nat (len (ctx ++ [msg]) - 1) = length ctx)
    by (rewrite len_app; unfold len; simpl; lia).
  rewrite E. apply take_app_length.
Qed.

Lemma valid_roles_loop (path : string) (msgs : list Message) :
  valid_roles msgs -> forall idx, parseContextFile_loop path idx msgs = None.
Proof.
  induction 1 as [|m msgs Hm _ IH]; intros idx; simpl; [reflexivity |].
  rewrite Hm. simpl. apply IH.
Qed.

(** The loop stops at the first message whose role is not valid. *)
Lemma first_invalid_loop (path : string) (msgs : list Message) :
  forall (i : nat) (m : Message) (idx : Z),
    msgs !! i = Some m ->
    isRoleValid (Role m) = false ->
    (forall j m', (j < i)%nat -> msgs !! j = Some m' -> isRoleValid (Role m') = true) ->
    parseContextFile_loop path idx msgs = Some (invalid_role_error path (idx + Z.of_nat i)).
Proof.
  induction msgs as [|m0 msgs IH]; intros i m idx Hi Hbad Hbefore; [discriminate |].
  destruct i as [|i]; simpl in *.
  - injection Hi as ->. rewrite Hbad. simpl. now rewrite Z.add_0_r.
  - rewrite (Hbefore 0%nat m0) by (lia || reflexivity). simpl.
    rewrite (IH i m (idx + 1) Hi Hbad).
    + do 2 f_equal. lia.
    + intros j m' Hj Hm'. apply (Hbefore (S j) m'); [lia | assumption].
Qed.

(** Reading the file that [writeContextFile] has written: the write stores
    the text of the codec, and the read returns what the codec makes of this
    text, when the roles it finds are valid. *)
Lemma parse_after_write (app app' : App C) (w w' : World)
    (path : string) (ctx read : list Message) :
  valid_roles read ->
  (forall data, json_MarshalIndent ctx = (data, None) -> json_Unmarshal data = (read, None)) ->
  writeContextFile path ctx app w = Ret None app' w' ->
  parseContextFile path app' w' = Ret (read, None) app' w'.
Proof.
  intros Hroles Hcodec Hwrite.
  unfold writeContextFile in Hwrite.
  destruct (json_MarshalIndent ctx) as [data [e|]] eqn:Hdata; [discriminate |].
  specialize (Hcodec data eq_refl).
  unfold os_WriteFile in Hwrite.
  destruct (bool_decide _); [discriminate |].
  injection Hwrite as <- <-.
  unfold parseContextFile, os_ReadFile. run.
  rewrite lookup_insert_eq. rewrite Hcodec.
  now rewrite (valid_roles_loop path read Hroles).
Qed.

End Store.

Section Loading.

Context {C : Type} `{CompletionAPI C} `{Json}.

(** C9. If the records of a stored file are well formed and the role of one
    of them is not valid, reading the file fails with the invalid-role error
    that names the zero-based index of the first such record, and so does
    [replaceFromCommand], which leaves the context (and the rest of the
    state) as it was. *)
Theorem invalid_role_rejected_at_first_index (app : App C) (w : World)
    (path data : string) (msgs : list Message) (i : nat) (m : Message) :
  files w !! path = Some data ->
  json_Unmarshal data = (msgs, None) ->
  msgs !! i = Some m ->
  isRoleValid (Role m) = false ->
  (forall j m', (j < i)%nat -> msgs !! j = Some m' -> isRoleValid (Role m') = true) ->
  parseContextFile path app w
  = Ret ([], Some (invalid_role_error path (Z.of_nat i))) app w
  /\ (path <> "" ->
      replaceFromCommand path app w
      = Ret (Some (invalid_role_error path (Z.of_nat i))) app w).
Proof.
  intros Hfile Hjson Hi Hbad Hbefore.
  assert (Hparse : parseContextFile path app w
                   = Ret ([], Some (invalid_role_error path (Z.of_nat i))) app w).
  { unfold parseContextFile, os_ReadFile. run. rewrite Hfile, Hjson.
    now rewrite (first_invalid_loop path msgs i m 0 Hi Hbad Hbefore). }
  split; [exact Hparse |].
  intros Hpath. unfold replaceFromCommand, readContextFileFromArguments.
  apply String.eqb_neq in Hpath. rewrite Hpath. run. now rewrite Hparse.
Qed.

End Loading.

(** ** [encoding/json] reads back what it writes, coerced to valid UTF-8 *)

Module RefJsonFacts.
Import RefJson.

Local Open Scope N_scope.

(** *** UTF-8: encoding after decoding *)

Lemma mod_offset (b k m : N) : m <> 0 -> k * m <= b < k * m + m -> b mod m = b - k * m.
Proof.
  intros Hm Hb. symmetry. apply (N.mod_unique b m k); [lia | lia].
Qed.

Lemma digits2 (x0 x1 : N) :
  x1 < 64 -> let r := x0 * 64 + x1 in r / 64 = x0 /\ r mod 64 = x1.
Proof.
  intros H1 r. subst r. split.
  - symmetry. apply (N.div_unique _ 64 x0 x1); lia.
  - symmetry. apply (N.mod_unique _ 64 x0 x1); lia.
Qed.

Lemma digits3 (x0 x1 x2 : N) :
  x1 < 64 -> x2 < 64 ->
  let r := (x0 * 64 + x1) * 64 + x2 in
  r / 4096 = x0 /\ (r / 64) mod 64 = x1 /\ r mod 64 = x2.
Proof.
  intros H1 H2 r. subst r.
  destruct (digits2 (x0 * 64 + x1) x2 H2) as [E1 E2]. cbv zeta in E1, E2.
  destruct (digits2 x0 x1 H1) as [E3 E4]. cbv zeta in E3, E4.
  split; [|split].
  - symmetry. apply (N.div_unique _ 4096 x0 (x1 * 64 + x2)); lia.
  - now rewrite E1.
  - exact E2.
Qed.

Lemma digits4 (x0 x1 x2 x3 : N) :
  x1 < 64 -> x2 < 64 -> x3 < 64 ->
  let r := ((x0 * 64 + x1) * 64 + x2) * 64 + x3 in
  r / 262144 = x0 /\ (r / 4096) mod 64 = x1 /\ (r / 64) mod 64 = x2 /\ r mod 64 = x3.
Proof.
  intros H1 H2 H3 r. subst r.
  destruct (digits2 ((x0 * 64 + x1) * 64 + x2) x3 H3) as [E1 E2]. cbv zeta in E1, E2.
  destruct (digits3 x0 x1 x2 H1 H2) as (E3 & E4 & E5). cbv zeta in E3, E4, E5.
  split; [|split; [|split]].
  - symmetry. apply (N.div_unique _ 262144 x0 ((x1 * 64 + x2) * 64 + x3)); lia.
  - assert (E : (((x0 * 64 + x1) * 64 + x2) * 64 + x3) / 4096 = x0 * 64 + x1).
    { symmetry. apply (N.div_unique _ 4096 (x0 * 64 + x1) (x2 * 64 + x3)); lia. }
    rewrite E. apply (digits2 x0 x1 H1).
  - now rewrite E1.
  - exact E2.
Qed.

Lemma byte_bound (c : ascii) : byte c < 256.
Proof. apply N_ascii_bounded. Qed.

Lemma chr_byte (c : ascii) : chr (byte c) = c.
Proof. apply ascii_N_embedding. Qed.

Lemma chr_eq (n : N) (c : ascii) : n = byte c -> chr n = c.
Proof. intros ->. apply chr_byte. Qed.

Lemma between_spec (lo hi : N) (c : ascii) :
  between lo hi c = true -> lo <= byte c <= hi.
Proof.
  unfold between. intros Hb. apply andb_prop in Hb as [H1 H2].
  apply N.leb_le in H1, H2. now split.
Qed.

Lemma low6_continuation (c : ascii) : 128 <= byte c <= 191 -> low6 c = byte c - 128.
Proof. intros Hc. unfold low6. apply (mod_offset _ 2 64); lia. Qed.

(** The encoding of a rune that was decoded from two, three and four bytes
    is these bytes. *)
Lemma EncodeRune_2 (c0 c1 : ascii) :
  194 <= byte c0 < 224 -> 128 <= byte c1 <= 191 ->
  EncodeRune ((byte c0 mod 32) * 64 + low6 c1) = [c0; c1].
Proof.
  intros H0 H1. rewrite (low6_continuation c1 H1).
  rewrite (mod_offset (byte c0) 6 32) by lia.
  destruct (digits2 (byte c0 - 6 * 32) (byte c1 - 128)) as [E0 E1]; [lia |].
  cbv zeta in E0, E1.
  set (r := (byte c0 - 6 * 32) * 64 + (byte c1 - 128)) in *.
  assert (Hr : 128 <= r < 2048) by (subst r; lia).
  unfold EncodeRune.
  destruct (N.ltb_spec r 128); [lia |]. destruct (N.ltb_spec r 2048); [|lia].
  rewrite E0, E1. f_equal; [|f_equal]; apply chr_eq; lia.
Qed.

Lemma EncodeRune_3 (c0 c1 c2 : ascii) :
  224 <= byte c0 < 240 ->
  (if byte c0 =? 224 then 160 else 128) <= byte c1
                                        <= (if byte c0 =? 237 then 159 else 191) ->
  128 <= byte c2 <= 191 ->
  EncodeRune (((byte c0 mod 16) * 64 + low6 c1) * 64 + low6 c2) = [c0; c1; c2].
Proof.
  intros H0 H1 H2.
  assert (H1' : 128 <= byte c1 <= 191).
  { destruct (byte c0 =? 224); destruct (byte c0 =? 237); lia. }
  rewrite (low6_continuation c1 H1'), (low6_continuation c2 H2).
  rewrite (mod_offset (byte c0) 14 16) by lia.
  destruct (digits3 (byte c0 - 14 * 16) (byte c1 - 128) (byte c2 - 128)) as (E0 & E1 & E2);
    [lia | lia |].
  cbv zeta in E0, E1, E2.
  set (r := ((byte c0 - 14 * 16) * 64 + (byte c1 - 128)) * 64 + (byte c2 - 128)) in *.
  assert (Hr : 2048 <= r < 65536 /\ (r < 55296 \/ 57344 <= r)).
  { subst r. destruct (N.eqb_spec (byte c0) 224); destruct (N.eqb_spec (byte c0) 237); lia. }
  destruct Hr as [Hr Hs]. unfold EncodeRune.
  destruct (N.ltb_spec r 128); [lia |]. destruct (N.ltb_spec r 2048); [lia |].
  destruct (N.ltb_spec 1114111 r); [lia |].
  assert (Hsur : (55296 <=? r) && (r <? 57344) = false).
  { destruct (N.leb_spec 55296 r); destruct (N.ltb_spec r 57344); (reflexivity || lia). }
  rewrite Hsur. cbn [orb]. destruct (N.ltb_spec r 65536); [|lia].
  rewrite E0, E1, E2. f_equal; [|f_equal; [|f_equal]]; apply chr_eq; lia.
Qed.

Lemma EncodeRune_4 (c0 c1 c2 c3 : ascii) :
  240 <= byte c0 < 245 ->
  (if byte c0 =? 240 then 144 else 128) <= byte c1
                                        <= (if byte c0 =? 244 then 143 else 191) ->
  128 <= byte c2 <= 191 -> 128 <= byte c3 <= 191 ->
  EncodeRune ((((byte c0 mod 8) * 64 + low6 c1) * 64 + low6 c2) * 64 + low6 c3)
  = [c0; c1; c2; c3].
Proof.
  intros H0 H1 H2 H3.
  assert (H1' : 128 <= byte c1 <= 191).
  { destruct (byte c0 =? 240); destruct (byte c0 =? 244); lia. }
  rewrite (low6_continuation c1 H1'), (low6_continuation c2 H2), (low6_continuation c3 H3).
  rewrite (mod_offset (byte c0) 30 8) by lia.
  destruct (digits4 (byte c0 - 30 * 8) (byte c1 - 128) (byte c2 - 128) (byte c3 - 128))
    as (E0 & E1 & E2 & E3); [lia | lia | lia |].
  cbv zeta in E0, E1, E2, E3.
  set (r := (((byte c0 - 30 * 8) * 64 + (byte c1 - 128)) * 64 + (byte c2 - 128)) * 64
            + (byte c3 - 128)) in *.
  assert (Hr : 65536 <= r <= 1114111).
  { subst r. destruct (N.eqb_spec (byte c0) 240); destruct (N.eqb_spec (byte c0) 244); lia. }
  unfold EncodeRune.
  destruct (N.ltb_spec r 128); [lia |]. destruct (N.ltb_spec r 2048); [lia |].
  destruct (N.ltb_spec 1114111 r); [lia |].
  assert (Hsur : (55296 <=? r) && (r <? 57344) = false).
  { destruct (N.leb_spec 55296 r); destruct (N.ltb_spec r 57344); (reflexivity || lia). }
  rewrite Hsur. cbn [orb]. destruct (N.ltb_spec r 65536); [lia |].
  rewrite E0, E1, E2, E3. f_equal; [|f_equal; [|f_equal; [|f_equal]]]; apply chr_eq; lia.
Qed.

Lemma invalid_rune_error : invalid_rune (RuneError, 1%nat) = true.
Proof. reflexivity. Qed.

Ltac not_invalid Hv :=
  exfalso; cbv beta iota zeta in Hv; vm_compute in Hv; discriminate Hv.

(** What [DecodeRune] finds at a byte that begins an encoding: between two
    and four bytes, which are the encoding of the rune, and which decode to
    it whatever follows them. *)
Lemma DecodeRune_valid (c0 : ascii) (l1 : list ascii) :
  128 <= byte c0 ->
  invalid_rune (DecodeRune (c0 :: l1)) = false ->
  (2 <= snd (DecodeRune (c0 :: l1)) <= 4)%nat /\
  (snd (DecodeRune (c0 :: l1)) <= length (c0 :: l1))%nat /\
  EncodeRune (fst (DecodeRune (c0 :: l1))) = take (snd (DecodeRune (c0 :: l1))) (c0 :: l1) /\
  forall t, DecodeRune (take (snd (DecodeRune (c0 :: l1))) (c0 :: l1) ++ t)
            = DecodeRune (c0 :: l1).
Proof.
  intros H0 Hv. unfold DecodeRune at 1 2 3 4 5 7. unfold DecodeRune in Hv.
  cbv zeta in Hv. cbv zeta.
  destruct (byte c0 <? 128) eqn:E1; [apply N.ltb_lt in E1; lia |].
  destruct (byte c0 <? 194) eqn:E2; [not_invalid Hv |].
  destruct (byte c0 <? 224) eqn:E3.
  { destruct l1 as [|c1 l2]; [not_invalid Hv |].
    destruct (between 128 191 c1) eqn:B1; [|not_invalid Hv].
    cbn [fst snd length firstn app]. split; [lia |]. split; [lia |]. split.
    - apply N.ltb_ge in E2. apply N.ltb_lt in E3. apply between_spec in B1.
      apply EncodeRune_2; lia.
    - intros t. unfold DecodeRune. now rewrite E1, E2, E3, B1. }
  destruct (byte c0 <? 240) eqn:E4.
  { destruct l1 as [|c1 [|c2 l3]]; [not_invalid Hv | not_invalid Hv |].
    destruct (between _ _ c1) eqn:B1; [|not_invalid Hv].
    destruct (between 128 191 c2) eqn:B2; [|not_invalid Hv].
    cbn [andb fst snd length firstn app]. split; [lia |]. split; [lia |]. split.
    - apply N.ltb_ge in E3. apply N.ltb_lt in E4.
      apply between_spec in B1, B2. apply EncodeRune_3; lia.
    - intros t. unfold DecodeRune. now rewrite E1, E2, E3, E4, B1, B2. }
  destruct (byte c0 <? 245) eqn:E5; [|not_invalid Hv].
  destruct l1 as [|c1 [|c2 [|c3 l4]]]; [not_invalid Hv | not_invalid Hv | not_invalid Hv |].
  destruct (between _ _ c1) eqn:B1; [|not_invalid Hv].
  destruct (between 128 191 c2) eqn:B2; [|not_invalid Hv].
  destruct (between 128 191 c3) eqn:B3; [|not_invalid Hv].
  cbn [andb fst snd length firstn app]. split; [lia |]. split; [lia |]. split.
  - apply N.ltb_ge in E4. apply N.ltb_lt in E5.
    apply between_spec in B1, B2, B3. apply EncodeRune_4; lia.
  - intros t. unfold DecodeRune. now rewrite E1, E2, E3, E4, E5, B1, B2, B3.
Qed.

(** The width [DecodeRune] reports is never more than four bytes, and at
    least one when there is a byte. *)
Lemma DecodeRune_width (c0 : ascii) (l1 : list ascii) :
  (1 <= snd (DecodeRune (c0 :: l1)) <= 4)%nat.
Proof.
  unfold DecodeRune.
  repeat match goal with
         | |- context [if ?b then _ else _] => destruct b
         | |- context [match ?l with [] => _ | _ :: _ => _ end] => destruct l
         end; cbn [snd]; lia.
Qed.

(** One step of the reader over what the writer makes of an ASCII byte. *)
Lemma string_body_escape_byte (fuel : nat) (c : ascii) (t : list ascii) :
  byte c < 128 ->
  string_body (S fuel) (escape_byte c ++ t) = prepend [c] (string_body fuel t).
Proof.
  destruct c as [[] [] [] [] [] [] [] []]; intros Hc;
    solve [exfalso; vm_compute in Hc; discriminate Hc | reflexivity].
Qed.

Lemma string_body_multibyte (fuel : nat) (c : ascii) (t : list ascii) :
  128 <= byte c ->
  string_body (S fuel) (c :: t)
  = prepend (EncodeRune (fst (DecodeRune (c :: t))))
            (string_body fuel (drop (snd (DecodeRune (c :: t))) (c :: t))).
Proof.
  intros Hc. cbn [string_body].
  destruct (N.eqb_spec (byte c) 34); [lia |].
  destruct (N.eqb_spec (byte c) 92); [lia |].
  destruct (N.ltb_spec (byte c) 32); [lia |].
  destruct (N.ltb_spec (byte c) 128); [lia |].
  reflexivity.
Qed.

Lemma string_body_ufffd (fuel : nat) (t : list ascii) :
  string_body (S fuel) (lit (bs +:+ "ufffd") ++ t)
  = prepend (EncodeRune RuneError) (string_body fuel t).
Proof. reflexivity. Qed.

Lemma string_body_separator (fuel : nat) (r : N) (t : list ascii) :
  (r =? 8232) || (r =? 8233) = true ->
  string_body (S fuel) (lit (bs +:+ "u202") ++ [hex_digit (r mod 16)] ++ t)
  = prepend (EncodeRune r) (string_body fuel t).
Proof.
  intros Hr. apply orb_prop in Hr as [Hr | Hr]; apply N.eqb_eq in Hr; subst r; reflexivity.
Qed.

Lemma length_escape_byte (c : ascii) : (1 <= length (escape_byte c))%nat.
Proof.
  unfold escape_byte.
  repeat match goal with |- context [if ?b then _ else _] => destruct b end;
    cbn [length]; try lia.
  rewrite length_app. cbn [length]. lia.
Qed.

(** The writer never produces fewer bytes than it reads. *)
Lemma length_appendString_loop (fuel : nat) (l : list ascii) :
  (length l <= fuel)%nat -> (length l <= length (appendString_loop fuel l))%nat.
Proof.
  revert l. induction fuel as [|fuel IH]; intros [|c l'] Hl; cbn [length] in *; try lia.
  cbn [appendString_loop].
  destruct (byte c <? 128) eqn:E.
  { rewrite length_app. pose proof (length_escape_byte c). specialize (IH l'). lia. }
  destruct (invalid_rune (DecodeRune (c :: l'))) eqn:Hv.
  { rewrite length_app. specialize (IH l'). cbn [length lit]. 
    change (length (lit (bs +:+ "ufffd"))) with 6%nat. lia. }
  apply N.ltb_ge in E.
  destruct (DecodeRune_valid c l' E Hv) as (Hk & Hlen & _ & _).
  set (k := snd (DecodeRune (c :: l'))) in *.
  assert (Hdrop : (length (drop k (c :: l')) <= fuel)%nat).
  { rewrite length_drop. cbn [length]. lia. }
  specialize (IH _ Hdrop). rewrite length_drop in IH. cbn [length] in *.
  destruct ((fst (DecodeRune (c :: l')) =? 8232) || (fst (DecodeRune (c :: l')) =? 8233)).
  - rewrite !length_app. change (length (lit (bs +:+ "u202"))) with 5%nat. cbn [length]. lia.
  - rewrite length_app, length_take. cbn [length]. lia.
Qed.

(** Reading what was written of a text gives the text with its invalid
    bytes replaced: the closing quote ends the literal. *)
Lemma string_body_appendString_loop (n : nat) :
  forall (l rest : list ascii) (fuel : nat),
    (length l <= n)%nat -> (length l < fuel)%nat ->
    string_body fuel (appendString_loop n l ++ chr 34 :: rest)
    = Ok (coerce_loop n l, rest).
Proof.
  induction n as [|n IH]; intros l rest fuel Hn Hf.
  { destruct l; [|cbn [length] in Hn; lia]. destruct fuel; [lia |]. reflexivity. }
  destruct l as [|c l'].
  { destruct fuel; [cbn [length] in Hf; lia |]. reflexivity. }
  cbn [length] in Hn, Hf. destruct fuel as [|fuel]; [lia |].
  cbn [appendString_loop coerce_loop].
  destruct (byte c <? 128) eqn:E.
  { apply N.ltb_lt in E. rewrite <- app_assoc, string_body_escape_byte by exact E.
    rewrite IH by lia. reflexivity. }
  apply N.ltb_ge in E.
  destruct (invalid_rune (DecodeRune (c :: l'))) eqn:Hv.
  { rewrite <- app_assoc, string_body_ufffd, IH by lia.
    unfold invalid_rune in Hv. apply andb_prop in Hv as [H1 H2].
    apply N.eqb_eq in H1. apply Nat.eqb_eq in H2. rewrite H1, H2. reflexivity. }
  destruct (DecodeRune_valid c l' E Hv) as (Hk & Hlen & Henc & Hdec).
  set (d := DecodeRune (c :: l')) in *.
  assert (Hdrop : (length (drop (snd d) (c :: l')) <= length l')%nat).
  { rewrite length_drop. cbn [length]. lia. }
  destruct ((fst d =? 8232) || (fst d =? 8233)) eqn:Hsep.
  { rewrite <- !app_assoc. rewrite (app_assoc [_]), <- app_assoc.
    rewrite string_body_separator by exact Hsep. rewrite IH by lia. reflexivity. }
  rewrite <- app_assoc.
  assert (Htake : exists tl, take (snd d) (c :: l') = c :: tl).
  { destruct (snd d) as [|k]; [lia |]. eexists. reflexivity. }
  destruct Htake as [tl Htl].
  set (X := appendString_loop n (drop (snd d) (c :: l')) ++ chr 34 :: rest).
  pose proof (Hdec X) as Hdec'.
  pose proof (string_body_multibyte fuel c (tl ++ X) E) as Hm.
  change (c :: tl ++ X) with ((c :: tl) ++ X) in Hm. rewrite <- Htl in Hm.
  rewrite Hdec' in Hm. rewrite drop_app_length' in Hm by (rewrite length_take; lia).
  rewrite Hm. subst X. rewrite IH by lia. rewrite Henc. reflexivity.
Qed.

(** A text that is valid UTF-8 is read back as it is. *)
Lemma coerce_loop_valid (n : nat) :
  forall l : list ascii,
    (length l <= n)%nat -> Valid_loop n l = true -> coerce_loop n l = l.
Proof.
  induction n as [|n IH]; intros [|c l'] Hn Hv; cbn [length] in *; try reflexivity; try lia.
  cbn [Valid_loop coerce_loop] in *.
  destruct (byte c <? 128) eqn:E.
  { rewrite IH; [reflexivity | lia | exact Hv]. }
  apply N.ltb_ge in E.
  destruct (invalid_rune (DecodeRune (c :: l'))) eqn:Hi; [discriminate Hv |].
  destruct (DecodeRune_valid c l' E Hi) as (Hk & Hlen & Henc & _).
  rewrite IH; [| rewrite length_drop; cbn [length]; lia | exact Hv].
  rewrite Henc. apply take_drop.
Qed.

(** *** The parser and the decoder on the text of a context *)

Lemma quote_app (s : string) (rest : list ascii) :
  quote s ++ rest = chr 34 :: body s ++ chr 34 :: rest.
Proof. unfold quote, body, lit. cbv zeta. rewrite <- !app_assoc. reflexivity. Qed.

Lemma string_body_body (s : string) (rest : list ascii) (fuel : nat) :
  (length (lit s) < fuel)%nat ->
  string_body fuel (body s ++ chr 34 :: rest) = Ok (read_back s, rest).
Proof. intros Hf. apply string_body_appendString_loop; [lia | exact Hf]. Qed.

Lemma length_body (s : string) (rest : list ascii) :
  (length (lit s) < length (body s ++ chr 34 :: rest))%nat.
Proof.
  rewrite length_app. cbn [length].
  pose proof (length_appendString_loop (length (lit s)) (lit s) (le_n _)). unfold body. lia.
Qed.

Lemma skip_space_app (ws : list ascii) (c : ascii) (t : list ascii) :
  forallb is_space ws = true -> is_space c = false ->
  skip_space (ws ++ c :: t) = c :: t.
Proof.
  intros Hws Hc. induction ws as [|x ws IH]; cbn [app skip_space].
  - now rewrite Hc.
  - cbn [forallb] in Hws. apply andb_prop in Hws as [Hx Hws]. rewrite Hx. now apply IH.
Qed.

Lemma parse_value_quote (fuel : nat) (depth : N) (s : string) (rest : list ascii) :
  parse_value (S fuel) depth (chr 32 :: quote s ++ rest) = Ok (JString (read_back s), rest).
Proof.
  rewrite quote_app. cbn [parse_value].
  change (skip_space (chr 32 :: chr 34 :: ?x)) with (chr 34 :: x).
  cbv beta iota zeta.
  change (byte (chr 34) =? 123) with false.
  change (byte (chr 34) =? 91) with false.
  change (byte (chr 34) =? 34) with true.
  cbv beta iota.
  rewrite string_body_body by apply length_body. reflexivity.
Qed.

(** One member of an object as the writer lays it out: the key, a colon, a
    space and the string. *)
Lemma parse_members_member (fuel : nat) (depth : N) (ws : list ascii) (k s : string)
    (t : list ascii) :
  forallb is_space ws = true ->
  parse_members (S (S fuel)) depth (ws ++ quote k ++ lit ": " ++ quote s ++ t)
  = match skip_space t with
    | [] => Err unexpected_end
    | c :: l5 =>
        if byte c =? 44 then
          match parse_members (S fuel) depth l5 with
          | Ok (ms, rest) => Ok ((read_back k, JString (read_back s)) :: ms, rest)
          | Err msg => Err msg
          end
        else if byte c =? 125 then Ok ([(read_back k, JString (read_back s))], l5)
        else Err (invalid_character c "after object key:value pair")
    end.
Proof.
  intros Hws. rewrite quote_app. cbn [parse_members].
  rewrite skip_space_app by (exact Hws || reflexivity).
  change (byte (chr 34) =? 34) with true. cbv beta iota.
  rewrite string_body_body by apply length_body.
  change (lit ": " ++ ?x) with (chr 58 :: chr 32 :: x).
  change (skip_space (chr 58 :: ?x)) with (chr 58 :: x). cbv beta iota.
  change (byte (chr 58) =? 58) with true. cbv beta iota.
  rewrite parse_value_quote. reflexivity.
Qed.

Lemma encode_message_app (m : Message) (rest : list ascii) :
  encode_message m ++ rest
  = chr 9 :: chr 123
    :: (lit (nl +:+ tab +:+ tab) ++ quote "role" ++ lit ": " ++ quote (Role m)
        ++ chr 44
        :: (lit (nl +:+ tab +:+ tab) ++ quote "content" ++ lit ": " ++ quote (Content m)
            ++ chr 10 :: chr 9 :: chr 125 :: rest)).
Proof. unfold encode_message. rewrite <- !app_assoc. reflexivity. Qed.

(** The object written for a message, read as an element of the array. *)
Lemma parse_value_message (fuel : nat) (m : Message) (rest : list ascii) :
  (4 <= fuel)%nat ->
  parse_value fuel 1 (chr 10 :: encode_message m ++ rest) = Ok (message_value m, rest).
Proof.
  intros Hfuel. destruct fuel as [|[|[|[|fuel]]]]; try lia. clear Hfuel.
  rewrite encode_message_app. cbn [parse_value].
  change (skip_space (chr 10 :: chr 9 :: chr 123 :: ?x)) with (chr 123 :: x).
  cbv beta iota zeta.
  change (byte (chr 123) =? 123) with true.
  change (maxNestingDepth <=? 1) with false. cbv beta iota.
  change (skip_space (lit (nl +:+ tab +:+ tab) ++ quote "role" ++ ?x))
    with (chr 34 :: lit "role" ++ chr 34 :: x).
  cbv beta iota. change (byte (chr 34) =? 125) with false. cbv beta iota.
  rewrite parse_members_member by reflexivity.
  change (skip_space (chr 44 :: ?x)) with (chr 44 :: x). cbv beta iota.
  change (byte (chr 44) =? 44) with true. cbv beta iota.
  rewrite parse_members_member by reflexivity.
  change (skip_space (chr 10 :: chr 9 :: chr 125 :: ?x)) with (chr 125 :: x). cbv beta iota.
  change (byte (chr 125) =? 44) with false.
  change (byte (chr 125) =? 125) with true. cbv beta iota.
  reflexivity.
Qed.

Lemma encode_messages_cons (m : Message) (ms : list Message) :
  encode_messages (m :: ms)
  = encode_message m ++ match ms with
                        | [] => []
                        | _ => lit ("," +:+ nl) ++ encode_messages ms
                        end.
Proof. destruct ms; cbn [encode_messages]; [now rewrite app_nil_r | reflexivity]. Qed.

(** The elements of the array written for a context that is not empty. *)
Lemma parse_elements_messages (ms : list Message) :
  ms <> [] ->
  forall (fuel : nat) (rest : list ascii),
    (length ms + 4 <= fuel)%nat ->
    parse_elements fuel 1 (chr 10 :: encode_messages ms ++ lit (nl +:+ "]") ++ rest)
    = Ok (map message_value ms, rest).
Proof.
  induction ms as [|m ms IH]; intros Hne fuel rest Hfuel; [contradiction |].
  cbn [length] in Hfuel.
  destruct fuel as [|fuel]; [lia |].
  rewrite encode_messages_cons, <- app_assoc.
  cbn [parse_elements]. rewrite parse_value_message by lia.
  destruct ms as [|m2 ms'].
  - change (skip_space ([] ++ lit (nl +:+ "]") ++ rest)) with (chr 93 :: rest).
    cbv beta iota. change (byte (chr 93) =? 44) with false.
    change (byte (chr 93) =? 93) with true. reflexivity.
  - rewrite <- app_assoc.
    change (skip_space (lit ("," +:+ nl) ++ ?x)) with (chr 44 :: chr 10 :: x).
    cbv beta iota. change (byte (chr 44) =? 44) with true. cbv beta iota.
    rewrite IH; [reflexivity | discriminate | cbn [length] in *; lia].
Qed.

Lemma length_encode_message (m : Message) : (1 <= length (encode_message m))%nat.
Proof.
  pose proof (f_equal length (encode_message_app m [])) as E.
  rewrite app_nil_r in E. rewrite E. cbn [length]. lia.
Qed.

Lemma length_encode_messages (ms : list Message) :
  (length ms <= length (encode_messages ms))%nat.
Proof.
  induction ms as [|m ms IH]; [cbn; lia |].
  rewrite encode_messages_cons, length_app. pose proof (length_encode_message m).
  destruct ms; cbn [length] in *; [lia |]. rewrite length_app. lia.
Qed.

(** The text written for a context is a JSON document: the array of the
    values of its messages. *)
Lemma parse_document_messages (ms : list Message) :
  ms <> [] ->
  parse_document (lit ("[" +:+ nl) ++ encode_messages ms ++ lit (nl +:+ "]"))
  = Ok (JArray (map message_value ms)).
Proof.
  intros Hne. unfold parse_document.
  set (fuel := (2 * length _ + 2)%nat).
  assert (Hfuel : (length ms + 5 <= fuel)%nat).
  { subst fuel. rewrite !length_app. change (length (lit ("[" +:+ nl))) with 2%nat.
    pose proof (length_encode_messages ms). lia. }
  destruct fuel as [|fuel]; [lia |].
  change (lit ("[" +:+ nl) ++ ?x) with (chr 91 :: chr 10 :: x).
  cbn [parse_value].
  change (skip_space (chr 91 :: ?x)) with (chr 91 :: x). cbv beta iota zeta.
  change (byte (chr 91) =? 123) with false.
  change (byte (chr 91) =? 91) with true.
  change (maxNestingDepth <=? 0) with false. cbv beta iota.
  assert (Hfirst : exists x, skip_space (chr 10 :: encode_messages ms ++ lit (nl +:+ "]"))
                             = chr 123 :: x).
  { destruct ms as [|m ms']; [contradiction |].
    rewrite encode_messages_cons, <- app_assoc, encode_message_app. eexists. reflexivity. }
  destruct Hfirst as [x ->]. cbv beta iota.
  change (byte (chr 123) =? 93) with false. cbv beta iota.
  change (0 + 1) with 1.
  rewrite <- (app_nil_r (lit (nl +:+ "]"))).
  rewrite parse_elements_messages by (exact Hne || lia). reflexivity.
Qed.

Lemma decode_elements_messages (ms : list Message) :
  decode_elements (map message_value ms) = (map coerce_message ms, None).
Proof.
  induction ms as [|m ms IH]; [reflexivity |].
  cbn [map decode_elements]. rewrite IH. reflexivity.
Qed.

(** Reading what was written of a context gives the context with every
    text coerced to valid UTF-8. *)
Lemma round_trip (context : list Message) :
  Unmarshal (fst (MarshalIndent context)) = (map coerce_message context, None).
Proof.
  destruct context as [|m ms]; [reflexivity |].
  unfold MarshalIndent, Unmarshal. cbn [fst].
  rewrite list_ascii_of_string_of_list_ascii.
  rewrite parse_document_messages by discriminate.
  cbn [decode]. rewrite decode_elements_messages. reflexivity.
Qed.

Lemma round_trip_nil : Unmarshal (fst MarshalIndent_nil) = ([], None).
Proof. reflexivity. Qed.

Lemma coerce_valid (s : string) : ValidString s = true -> coerce s = s.
Proof.
  unfold ValidString, coerce. cbv zeta. intros Hv.
  rewrite coerce_loop_valid by (exact Hv || lia).
  apply string_of_list_ascii_of_string.
Qed.

End RefJsonFacts.

(** A valid role is ASCII: the codec reads it back as it is. *)
Lemma coerce_valid_role (role : string) :
  isRoleValid role = true -> RefJson.coerce role = role.
Proof.
  unfold isRoleValid. intros Hrole.
  apply orb_prop in Hrole as [Hrole | Hrole]; [apply orb_prop in Hrole as [Hrole | Hrole] |];
    apply String.eqb_eq in Hrole; subst role; reflexivity.
Qed.

Lemma coerce_message_valid_role (m : Message) :
  isRoleValid (Role m) = true ->
  RefJson.coerce_message m = mkMessage (Role m) (RefJson.coerce (Content m)).
Proof. intros Hrole. unfold RefJson.coerce_message. now rewrite coerce_valid_role. Qed.

Lemma coerce_messages_valid_roles (ctx : list Message) :
  valid_roles ctx ->
  map RefJson.coerce_message ctx
  = map (fun m => mkMessage (Role m) (RefJson.coerce (Content m))) ctx.
Proof.
  induction 1 as [|m ctx Hm _ IH]; [reflexivity |].
  cbn [map]. now rewrite IH, coerce_message_valid_role.
Qed.

Lemma coerce_messages_valid (ctx : list Message) :
  valid_roles ctx ->
  Forall (fun m => RefJson.ValidString (Content m) = true) ctx ->
  map RefJson.coerce_message ctx = ctx.
Proof.
  intros Hroles Hcontents. rewrite coerce_messages_valid_roles by exact Hroles.
  induction Hcontents as [|m ctx Hm _ IH]; [reflexivity |].
  apply Forall_cons in Hroles as [_ Hroles].
  cbn [map]. rewrite IH by exact Hroles. rewrite RefJsonFacts.coerce_valid by exact Hm.
  now destruct m.
Qed.

(** With [encoding/json], a write to a path the system accepts goes
    through, and reading the file gives the context with every content
    coerced to valid UTF-8. *)
Lemma write_then_parse {C : Type} (app : App C) (w : World)
    (path : string) (ctx : list Message) :
  valid_roles ctx ->
  path <> "" -> path ∉ denied w ->
  let w' := world_of (writeContextFile path ctx app w) in
  writeContextFile path ctx app w = Ret None app w'
  /\ parseContextFile path app w'
     = Ret (map (fun m => mkMessage (Role m) (RefJson.coerce (Content m))) ctx, None) app w'.
Proof.
  intros Hroles Hpath Hden w'.
  assert (Hwrite : writeContextFile path ctx app w = Ret None app w').
  { subst w'. unfold writeContextFile. simpl.
    destruct (RefJson.MarshalIndent ctx) as [data [e|]] eqn:Hdata.
    - destruct ctx; discriminate Hdata.
    - unfold os_WriteFile.
      destruct (bool_decide_reflect (path = "" \/ path ∈ denied w)) as [[?|?]|_];
        [contradiction | contradiction | reflexivity]. }
  split; [exact Hwrite |].
  apply (parse_after_write app app w w' path ctx); [| |exact Hwrite].
  - clear -Hroles. induction Hroles as [|m ctx Hm _ IH]; constructor; assumption.
  - intros data Hdata. simpl in *.
    assert (Hrt := RefJsonFacts.round_trip ctx). rewrite Hdata in Hrt.
    rewrite coerce_messages_valid_roles in Hrt by exact Hroles. exact Hrt.
Qed.

(** C6. Reading back the file [writeContextFile] has written to a path the
    system accepts gives the context that was written, message for message,
    when the roles of the context are valid (the invariant of a Context) and
    its contents are valid UTF-8; and what is written for the context that
    is the [nil] slice is read back as the context without messages. *)
Theorem parse_after_write_round_trip {C : Type} (app : App C) (w : World)
    (path : string) (ctx : list Message) :
  valid_roles ctx ->
  Forall (fun m => RefJson.ValidString (Content m) = true) ctx ->
  path <> "" -> path ∉ denied w ->
  let w' := world_of (writeContextFile path ctx app w) in
  writeContextFile path ctx app w = Ret None app w'
  /\ parseContextFile path app w' = Ret (ctx, None) app w'
  /\ json_Unmarshal (fst RefJson.MarshalIndent_nil) = ([], None).
Proof.
  intros Hroles Hcontents Hpath Hden w'.
  destruct (write_then_parse app w path ctx Hroles Hpath Hden) as [Hwrite Hparse].
  split; [exact Hwrite |]. split; [|reflexivity].
  fold w' in Hparse. rewrite Hparse.
  rewrite <- (coerce_messages_valid_roles ctx Hroles).
  now rewrite (coerce_messages_valid ctx Hroles Hcontents).
Qed.

(** C6, without the condition on the contents.  A content that is not valid
    UTF-8 is not read back: the byte 255 (which the text editor of [/nano]
    may hand over) is written as the escape of [U+FFFD], and read as the three
    bytes that encode this rune. *)
Theorem invalid_utf8_is_not_read_back :
  let ctx := [mkMessage "user" (String "255" EmptyString)] in
  let read := [mkMessage "user" (String "239" (String "191" (String "189" EmptyString)))] in
  let app := makeTestApp makeTestCompletionAPI in
  let w' := world_of (writeContextFile "P" ctx app emptyWorld) in
  valid_roles ctx
  /\ writeContextFile "P" ctx app emptyWorld = Ret None app w'
  /\ parseContextFile "P" app w' = Ret (read, None) app w'
  /\ read <> ctx.
Proof.
  intros ctx read app w'. split; [repeat constructor |].
  split; [vm_compute; reflexivity |]. split; [vm_compute; reflexivity |].
  discriminate.
Qed.

(** X19. With [encoding/json], every context with valid roles written to a
    path the system accepts is read back with its roles as they were and
    every content coerced to valid UTF-8: each byte that is not part of an
    encoding replaced by the encoding of [U+FFFD]. *)
Theorem reference_codec_round_trip {C : Type} (app : App C) (w : World)
    (path : string) (ctx : list Message) :
  valid_roles ctx ->
  path <> "" -> path ∉ denied w ->
  let w' := world_of (writeContextFile path ctx app w) in
  writeContextFile path ctx app w = Ret None app w'
  /\ parseContextFile path app w'
     = Ret (map (fun m => mkMessage (Role m) (RefJson.coerce (Content m))) ctx, None) app w'.
Proof. apply write_then_parse. Qed.

(** ** The exchange: establishment, retries, drain *)

Section Exchange.

Context {C : Type} `{CompletionAPI C} `{Json}.

Lemma frame_refl (app : App C) : frame app app.
Proof. unfold frame. now destruct app. Qed.

Lemma frame_trans (a b c : App C) : frame a b -> frame b c -> frame a c.
Proof. unfold frame. intros -> ->. reflexivity. Qed.

Lemma frame_set_capi (app : App C) (c : C) : frame app (set_capi c app).
Proof. reflexivity. Qed.

Lemma frame_context (a b : App C) : frame a b -> context b = context a.
Proof. intros ->. reflexivity. Qed.

Lemma frame_forgetful (a b : App C) : frame a b -> forgetful b = forgetful a.
Proof. intros ->. reflexivity. Qed.

Lemma frame_autosave (a b : App C) : frame a b -> autosaveFilePath b = autosaveFilePath a.
Proof. intros ->. reflexivity. Qed.

Lemma sends_app (t1 t2 : list Event) : sends (t1 ++ t2) = sends t1 ++ sends t2.
Proof. apply flat_map_app. Qed.

Lemma sleeps_app (t1 t2 : list Event) : sleeps (t1 ++ t2) = sleeps t1 ++ sleeps t2.
Proof. apply flat_map_app. Qed.

Lemma writes_app (t1 t2 : list Event) : writes (t1 ++ t2) = writes t1 ++ writes t2.
Proof. apply flat_map_app. Qed.

(** The drain talks to the printer only. *)
Lemma drain_loop_quiet (buf : list CompletionDelta) (closed : bool) :
  forall (collect : string) (app : App C) (w : World),
    let r := printAndCollectStream_loop buf closed collect app w in
    app_of r = app /\ sends (trace (world_of r)) = sends (trace w)
    /\ sleeps (trace (world_of r)) = sleeps (trace w)
    /\ writes (trace (world_of r)) = writes (trace w)
    /\ files (world_of r) = files w.
Proof.
  induction buf as [|d buf IH]; intros collect app w; simpl.
  - destruct closed; run; rewrite ?sends_app, ?sleeps_app, ?writes_app, ?app_nil_r; auto.
  - destruct (errors_Is (err d) io_EOF).
    + run. rewrite ?sends_app, ?sleeps_app, ?writes_app, ?app_nil_r. auto.
    + destruct (err d); [simpl; auto |]. run.
      destruct (IH (collect +:+ delta d) app (emit (EvPrint (delta d)) w))
        as (Ha & Hs & Hsl & Hw & Hf).
      rewrite Ha, Hs, Hsl, Hw, Hf. simpl.
      rewrite ?sends_app, ?sleeps_app, ?writes_app, ?app_nil_r. auto.
Qed.

Lemma drain_quiet (stream : chan) (app : App C) (w : World) :
  let r := printAndCollectStream stream app w in
  app_of r = app /\ sends (trace (world_of r)) = sends (trace w)
  /\ sleeps (trace (world_of r)) = sleeps (trace w)
  /\ writes (trace (world_of r)) = writes (trace w)
  /\ files (world_of r) = files w.
Proof.
  destruct stream as [|buf closed]; simpl; [auto |]. apply drain_loop_quiet.
Qed.

(** Every run of the establishment loop calls [SendContext] a number of
    times that is at most [retries + 1] (none at all when [retries] is
    negative), always with the context of the application, and changes the
    application in its completion client only. *)
Lemma sendContext_loop_calls (fuel : nat) :
  forall (retries : Z) (waitTime : Q) (stream : chan) (e : option error)
         (app : App C) (w : World),
    let r := sendContext_loop fuel retries waitTime stream e app w in
    frame app (app_of r)
    /\ files (world_of r) = files w
    /\ writes (trace (world_of r)) = writes (trace w)
    /\ exists k : nat,
         sends (trace (world_of r)) = sends (trace w) ++ repeat (context app) k
         /\ Z.of_nat k <= Z.max 0 (retries + 1)
         /\ (k = 0%nat -> r = Ret (stream, e) app w \/ r = Hang app w).
Proof.
  induction fuel as [|fuel IH]; intros retries waitTime stream e app w; simpl.
  - destruct (Z.leb_spec 0 retries); simpl.
    + repeat split; try apply frame_refl. exists 0%nat. simpl.
      rewrite app_nil_r. repeat split; [lia | auto].
    + repeat split; try apply frame_refl. exists 0%nat. simpl.
      rewrite app_nil_r. repeat split; [lia | auto].
  - destruct (Z.leb_spec 0 retries) as [Hr|Hr]; simpl.
    2:{ repeat split; try apply frame_refl. exists 0%nat. simpl.
        rewrite app_nil_r. repeat split; [lia | auto]. }
    unfold capi_SendContext. run.
    destruct (SendContext (capi app) (context app)) as [c' [s1 e1]] eqn:Hsend.
    destruct (not_nil e1 && (0 <? retries)) eqn:Hretry; simpl.
    + apply andb_prop in Hretry as [_ Hpos]. apply Z.ltb_lt in Hpos.
      unfold rand_Float64. simpl.
      match goal with
      | |- context [sendContext_loop fuel ?r' ?wt' ?s' ?e' ?a' ?w'] =>
          destruct (IH r' wt' s' e' a' w') as (Hfr & Hfiles & Hwr & k & Hk & Hle & _);
          destruct (sendContext_loop fuel r' wt' s' e' a' w') as [x a2 w2|a2 w2|cd a2 w2] eqn:Hloop
      end; simpl in *.
      all: repeat split;
        [ eapply frame_trans; [apply frame_set_capi | exact Hfr]
        | rewrite Hfiles; reflexivity
        | rewrite Hwr, !writes_app; simpl; now rewrite !app_nil_r
        | exists (S k); rewrite Hk, !sends_app; simpl; rewrite !app_nil_r, <- app_assoc;
          simpl; repeat split; [lia | discriminate] ].
    + repeat split; try apply frame_set_capi.
      * rewrite writes_app. simpl. now rewrite app_nil_r.
      * exists 1%nat. rewrite sends_app. simpl. repeat split; [lia | discriminate].
Qed.

(** Whatever the completion service does, and however
    [sendContextAndProcessResponse] ends, it changes the application in its
    completion client only, writes no file, and calls [SendContext] at most
    [retries + 1] times, each time with the context of the application. *)
Lemma send_frame (app : App C) (w : World) :
  let r := sendContextAndProcessResponse app w in
  frame app (app_of r)
  /\ files (world_of r) = files w
  /\ writes (trace (world_of r)) = writes (trace w)
  /\ exists k : nat,
       sends (trace (world_of r)) = sends (trace w) ++ repeat (context app) k
       /\ Z.of_nat k <= Z.max 0 (to_int64 (maxRetries app) + 1)
       /\ (k = 0%nat -> forall x a' w', r <> Ret x a' w').
Proof.
  unfold sendContextAndProcessResponse. run.
  set (retries := to_int64 (maxRetries app)).
  destruct (sendContext_loop_calls (Z.to_nat (retries + 1)) retries 1%Q nil_chan None app w)
    as (Hfr & Hfiles & Hwr & k & Hk & Hle & Hzero).
  destruct (sendContext_loop (Z.to_nat (retries + 1)) retries 1%Q nil_chan None app w)
    as [[s1 e1] a1 w1|a1 w1|cd a1 w1] eqn:Hloop; simpl in *.
  2,3: repeat split; auto; exists k; repeat split; auto; intros; discriminate.
  destruct e1 as [e1|].
  - simpl. repeat split; auto. exists k. repeat split; auto.
    intros Hk0 x a' w' Heq. destruct (Hzero Hk0) as [Hz|Hz]; discriminate.
  - destruct (drain_quiet s1 a1 w1) as (Ha & Hs & _ & Hw & Hf).
    destruct (printAndCollectStream s1 a1 w1) as [[resp e2] a2 w2|a2 w2|cd a2 w2] eqn:Hdrain;
      simpl in *; subst a2.
    + assert (Hnz : k = 0%nat -> False).
      { intros Hk0. destruct (Hzero Hk0) as [Hz|Hz]; [|discriminate].
        injection Hz as -> _ _. discriminate Hdrain. }
      destruct e2; simpl; repeat split; auto; try congruence;
        exists k; (repeat split; [congruence | assumption | intros Hk0; now destruct (Hnz Hk0)]).
    + repeat split; auto; try congruence.
      exists k. repeat split; [congruence | assumption | intros; discriminate].
    + repeat split; auto; try congruence.
      exists k. repeat split; [congruence | assumption | intros; discriminate].
Qed.

End Exchange.

(** ** The session engine *)

Section Engine.

Context {C : Type} `{CompletionAPI C} `{Json}.

Lemma tryUpdateAutosaveFile_sends (app : App C) (w : World) :
  sends (trace (world_of (tryUpdateAutosaveFile app w))) = sends (trace w).
Proof.
  unfold tryUpdateAutosaveFile. run.
  destruct (autosaveFilePath app =? "")%string; [reflexivity |].
  unfold writeContextFile. destruct (json_MarshalIndent (context app)) as [data [e|]].
  - simpl. rewrite sends_app. simpl. now rewrite app_nil_r.
  - unfold os_WriteFile. case bool_decide; simpl;
      rewrite ?sends_app; simpl; now rewrite ?app_nil_r.
Qed.

(** The step of [appMain] on a line that is conversational input, up to the
    point where the exchange has returned. *)
Lemma appMain_plain {R : Type} `{Readliner R} (reader reader' : R)
    (app : App C) (w : World) (raw : string) :
  let line := strings_TrimSpace raw in
  let app1 := set_context (context app ++ [mkMessage "user" line]) app in
  let w1 := world_of (tryUpdateAutosaveFile app1 w) in
  Readline reader = (reader', (raw, None)) ->
  line <> "" ->
  first_byte_is "/" line && negb (slashCommandsDisabled app) = false ->
  appMain reader app w
  = bind sendContextAndProcessResponse (fun '(responseContent, err) =>
      match err with
      | Some e =>
          bind (PrintError (Error e +:+ " (no changes done to context)" +:+ nl)) (fun _ =>
          bind (popFromContext 1) (fun _ => ret (true, reader')))
      | None =>
          bind get_app (fun app =>
          if forgetful app then bind (popFromContext 1) (fun _ => ret (true, reader'))
          else bind (appendToContext (mkMessage "assistant" responseContent))
                    (fun _ => ret (true, reader')))
      end) app1 w1.
Proof.
  intros line app1 w1 Hread Hline Hplain.
  unfold appMain. rewrite Hread. fold line.
  apply String.eqb_neq in Hline. rewrite Hline.
  unfold bind at 1. unfold get_app at 1. rewrite Hplain.
  unfold bind at 1. rewrite appendToContext_returns. reflexivity.
Qed.

(** C8. In forgetful mode a successful exchange on a conversational input
    line leaves the context as it was before the line was appended: the user
    message is popped and nothing is recorded (of the application, only the
    completion client may have changed), although in the course of [appMain]
    the completion service has been called, at least once, and each time with
    the context that has the user message at its end: these calls are the
    ones the world [appMain] ends in has gained. *)
Theorem forgetful_exchange_keeps_context {R : Type} `{Readliner R}
    (reader reader' : R) (app app2 : App C) (w w2 : World) (raw resp : string) :
  let line := strings_TrimSpace raw in
  let app1 := set_context (context app ++ [mkMessage "user" line]) app in
  let w1 := world_of (tryUpdateAutosaveFile app1 w) in
  Readline reader = (reader', (raw, None)) ->
  line <> "" ->
  first_byte_is "/" line && negb (slashCommandsDisabled app) = false ->
  forgetful app = true ->
  sendContextAndProcessResponse app1 w1 = Ret (resp, None) app2 w2 ->
  exists (app' : App C) (w' : World),
    appMain reader app w = Ret (true, reader') app' w'
    /\ context app' = context app
    /\ app' = set_capi (capi app2) app
    /\ exists k : nat,
         (0 < k)%nat
         /\ sends (trace w')
            = sends (trace w) ++ repeat (context app ++ [mkMessage "user" line]) k.
Proof.
  intros line app1 w1 Hread Hline Hplain Hforget Hsend.
  rewrite (appMain_plain reader reader' app w raw Hread Hline Hplain).
  fold line app1 w1.
  destruct (send_frame app1 w1) as (Hfr & _ & _ & k & Hk & _ & Hzero).
  rewrite Hsend in Hfr, Hk, Hzero. simpl in Hfr, Hk, Hzero.
  unfold bind at 1. rewrite Hsend. unfold bind at 1. unfold get_app at 1.
  rewrite (frame_forgetful _ _ Hfr). simpl. rewrite Hforget.
  assert (Hpop := popFromContext_in_range app2 w2 1).
  rewrite (frame_context _ _ Hfr) in Hpop. simpl in Hpop.
  specialize (Hpop ltac:(rewrite len_app; unfold len; simpl; lia)).
  unfold bind at 1. rewrite Hpop. unfold ret.
  do 2 eexists. split; [reflexivity |]. split; [|split].
  - simpl. apply pop_after_append.
  - rewrite pop_after_append. unfold frame in Hfr. rewrite Hfr at 1.
    subst app1. now destruct app.
  - exists k. split.
    + destruct k; [exfalso; now apply (Hzero eq_refl (resp, None) app2 w2) | lia].
    + rewrite tryUpdateAutosaveFile_sends. rewrite Hk. subst w1.
      now rewrite tryUpdateAutosaveFile_sends.
Qed.

(** X6. A conversational input line whose exchange fails: the error is
    reported and the user message is popped, so the context is the one
    before the line. *)
Lemma plain_exchange_failure_restores_context {R : Type} `{Readliner R}
    (reader reader' : R) (app app2 : App C) (w w2 : World) (raw resp : string) (e : error) :
  let line := strings_TrimSpace raw in
  let app1 := set_context (context app ++ [mkMessage "user" line]) app in
  let w1 := world_of (tryUpdateAutosaveFile app1 w) in
  Readline reader = (reader', (raw, None)) ->
  line <> "" ->
  first_byte_is "/" line && negb (slashCommandsDisabled app) = false ->
  sendContextAndProcessResponse app1 w1 = Ret (resp, Some e) app2 w2 ->
  exists (app' : App C) (w' : World),
    appMain reader app w = Ret (true, reader') app' w'
    /\ context app' = context app.
Proof.
  intros line app1 w1 Hread Hline Hplain Hsend.
  rewrite (appMain_plain reader reader' app w raw Hread Hline Hplain).
  fold line app1 w1.
  destruct (send_frame app1 w1) as (Hfr & _).
  rewrite Hsend in Hfr. simpl in Hfr.
  unfold bind at 1. rewrite Hsend. unfold bind at 1. unfold PrintError, log.
  assert (Hpop := popFromContext_in_range app2
              (emit (EvPrintError (Error e +:+ " (no changes done to context)" +:+ nl)) w2) 1).
  rewrite (frame_context _ _ Hfr) in Hpop. simpl in Hpop.
  specialize (Hpop ltac:(rewrite len_app; unfold len; simpl; lia)).
  unfold bind at 1. rewrite Hpop. unfold ret.
  do 2 eexists. split; [reflexivity |]. simpl. apply pop_after_append.
Qed.

(** X9. [/send] appends nothing before the exchange, so a failed exchange leaves
    the context as it was. *)
Lemma send_failure_keeps_context (app app2 : App C) (w w2 : World) (resp : string) (e : error) :
  sendContextAndProcessResponse app w = Ret (resp, Some e) app2 w2 ->
  sendCommand "" app w = Ret (Some e) app2 w2 /\ context app2 = context app.
Proof.
  intros Hsend. unfold sendCommand. simpl. unfold bind. rewrite Hsend. split; [reflexivity |].
  destruct (send_frame app w) as (Hfr & _). rewrite Hsend in Hfr.
  apply (frame_context _ _ Hfr).
Qed.

(** X10. [/escape] does not take its message back: after a failed exchange the
    context is the old one with the user message at its end. *)
Lemma escape_failure_keeps_user_message (app app2 : App C) (w w2 : World)
    (messageContent resp : string) (e : error) :
  let app1 := set_context (context app ++ [mkMessage "user" messageContent]) app in
  let w1 := world_of (tryUpdateAutosaveFile app1 w) in
  sendContextAndProcessResponse app1 w1 = Ret (resp, Some e) app2 w2 ->
  escapeCommand messageContent app w = Ret (Some e) app2 w2
  /\ context app2 = context app ++ [mkMessage "user" messageContent].
Proof.
  intros app1 w1 Hsend. unfold escapeCommand.
  unfold bind at 1. rewrite appendToContext_returns. fold app1 w1.
  unfold bind. rewrite Hsend. split; [reflexivity |].
  destruct (send_frame app1 w1) as (Hfr & _). rewrite Hsend in Hfr.
  apply (frame_context _ _ Hfr).
Qed.

End Engine.

(** ** Invariant: every role in the context is valid *)

Section Roles.

Context {C : Type} `{CompletionAPI C} `{Json}.

Lemma keeps_ret {A} (a : A) (Q : A -> Prop) : Q a -> keeps (C := C) (ret a) Q.
Proof. intros Ha app w Hinv. now split. Qed.

Lemma keeps_bind {A B} (m : Prog C A) (k : A -> Prog C B) (P : A -> Prop) (Q : B -> Prop) :
  keeps m P -> (forall a, P a -> keeps (k a) Q) -> keeps (bind m k) Q.
Proof.
  intros Hm Hk app w Hinv. unfold bind. specialize (Hm app w Hinv).
  destruct (m app w) as [a app' w'|app' w'|cd app' w']; [|assumption..].
  destruct Hm as [Hinv' Ha]. now apply Hk.
Qed.

Lemma keeps_weaken {A} (m : Prog C A) (P Q : A -> Prop) :
  keeps m P -> (forall a, P a -> Q a) -> keeps m Q.
Proof.
  intros Hm HPQ app w Hinv. specialize (Hm app w Hinv).
  destruct (m app w); [|assumption..]. destruct Hm. split; auto.
Qed.

Lemma keeps_get_app : keeps (C := C) get_app (fun app => valid_roles (context app)).
Proof. intros app w Hinv. now split. Qed.

Lemma keeps_modify_app (f : App C -> App C) :
  (forall app, valid_roles (context app) -> valid_roles (context (f app))) ->
  keeps (modify_app f) (fun _ => True).
Proof. intros Hf app w Hinv. split; auto. Qed.

Lemma keeps_log (e : Event) : keeps (C := C) (log e) (fun _ => True).
Proof. intros app w Hinv. now split. Qed.

Lemma keeps_get_colors : keeps (C := C) get_colors (fun _ => True).
Proof. intros app w Hinv. now split. Qed.

Lemma keeps_color_Set_BoldFgWhite : keeps (C := C) color_Set_BoldFgWhite (fun _ => True).
Proof.
  intros app w Hinv. unfold color_Set_BoldFgWhite.
  destruct (color_BoldFgWhite_Set (colors w)); now split.
Qed.

Lemma keeps_hang {A} (Q : A -> Prop) : keeps (C := C) hang Q.
Proof. intros app w Hinv. exact Hinv. Qed.

Lemma keeps_os_Exit {A} (code : Z) (Q : A -> Prop) : keeps (C := C) (os_Exit code) Q.
Proof. intros app w Hinv. exact Hinv. Qed.

(** A program that hands the application back untouched keeps the invariant. *)
Lemma keeps_app_of {A} (m : Prog C A) :
  (forall app w, context (app_of (m app w)) = context app) -> keeps m (fun _ => True).
Proof.
  intros Hm app w Hinv. specialize (Hm app w).
  destruct (m app w); simpl in Hm; unfold valid_roles in *; rewrite Hm; auto.
Qed.

Lemma keeps_tryUpdateAutosaveFile : keeps (C := C) tryUpdateAutosaveFile (fun _ => True).
Proof.
  apply keeps_app_of. intros app w. now rewrite tryUpdateAutosaveFile_returns.
Qed.

Lemma keeps_writeContextFile (path : string) (ctx : list Message) :
  keeps (C := C) (writeContextFile path ctx) (fun _ => True).
Proof.
  apply keeps_app_of. intros app w.
  destruct (writeContextFile_returns path ctx app w) as [e ->]. reflexivity.
Qed.

Lemma keeps_send : keeps (C := C) sendContextAndProcessResponse (fun _ => True).
Proof.
  apply keeps_app_of. intros app w.
  destruct (send_frame app w) as (Hfr & _). apply (frame_context _ _ Hfr).
Qed.

Lemma keeps_appendToContext (msg : Message) :
  isRoleValid (Role msg) = true -> keeps (C := C) (appendToContext msg) (fun _ => True).
Proof.
  intros Hrole app w Hinv. rewrite appendToContext_returns. split; [|exact I].
  simpl. apply Forall_app. split; [exact Hinv | now constructor].
Qed.

Lemma keeps_popFromContext (n : Z) : keeps (C := C) (popFromContext n) (fun _ => True).
Proof.
  intros app w Hinv.
  destruct (Z_lt_le_dec n 1) as [Hlo|Hlo].
  { destruct (popFromContext_out_of_range app w n) as [e ->]; [lia | now split]. }
  destruct (Z_lt_le_dec (len (context app)) n) as [Hhi|Hhi].
  { destruct (popFromContext_out_of_range app w n) as [e ->]; [lia | now split]. }
  rewrite popFromContext_in_range by lia. split; [|exact I].
  simpl. now apply Forall_take.
Qed.

Lemma loop_accepts_valid (path : string) (msgs : list Message) :
  forall idx, parseContextFile_loop path idx msgs = None -> valid_roles msgs.
Proof.
  induction msgs as [|m msgs IH]; intros idx Hloop; [constructor |].
  simpl in Hloop. destruct (isRoleValid (Role m)) eqn:Hm; [|discriminate].
  constructor; [exact Hm | now apply (IH (idx + 1))].
Qed.

(** What [parseContextFile] returns without an error has valid roles. *)
Lemma keeps_parseContextFile (path : string) :
  keeps (C := C) (parseContextFile path)
    (fun r => snd r = None -> valid_roles (fst r)).
Proof.
  intros app w Hinv. unfold parseContextFile, os_ReadFile. run.
  destruct (files w !! path) as [data|]; [|split; [assumption | discriminate]].
  destruct (json_Unmarshal data) as [msgs [e|]]; [split; [assumption | discriminate] |].
  destruct (parseContextFile_loop path 0 msgs) eqn:Hloop;
    split; try assumption; try discriminate.
  intros _. now apply (loop_accepts_valid path msgs 0).
Qed.

Lemma keeps_readContextFileFromArguments (args : string) :
  keeps (C := C) (readContextFileFromArguments args)
    (fun r => snd r = None -> valid_roles (fst r)).
Proof.
  unfold readContextFileFromArguments.
  destruct (args =? "")%string; [apply keeps_ret; discriminate |].
  eapply keeps_bind; [apply keeps_parseContextFile |].
  intros [ctx [e|]] Hctx; apply keeps_ret; [discriminate | exact Hctx].
Qed.

Lemma keeps_for_each {A} (l : list A) (body : A -> Prog C unit) :
  (forall x, keeps (body x) (fun _ => True)) -> keeps (for_each l body) (fun _ => True).
Proof.
  intros Hbody. induction l as [|x l IH]; simpl; [now apply keeps_ret |].
  eapply keeps_bind; [apply Hbody | intros _ _; exact IH].
Qed.

Lemma parseSingleMessage_role (args role msg : string) :
  parseSingleMessageFromArguments args = (role, msg, None) -> isRoleValid role = true.
Proof.
  unfold parseSingleMessageFromArguments.
  destruct (args =? "")%string; [discriminate |].
  destruct (strings_Cut args " ") as [[r m] found].
  destruct (isRoleValid r) eqn:Hr; simpl; [|discriminate].
  now intros [= <- _].
Qed.

Lemma loaded_valid (ctx : list Message) :
  (snd (ctx, @None error) = None -> valid_roles (fst (ctx, @None error))) -> valid_roles ctx.
Proof. intros Hctx. now apply Hctx. Qed.

Opaque keeps.

Ltac keeps_step :=
  first
    [ apply keeps_ret; exact I
    | apply keeps_hang
    | apply keeps_os_Exit
    | apply keeps_log
    | apply keeps_tryUpdateAutosaveFile
    | apply keeps_popFromContext
    | apply keeps_writeContextFile
    | eapply keeps_bind; [apply keeps_get_app | intros ? ?]
    | eapply keeps_bind; [apply keeps_log | intros ? _]
    | eapply keeps_bind; [apply keeps_tryUpdateAutosaveFile | intros ? _]
    | eapply keeps_bind; [apply keeps_send | intros [? [?|]] _]
    | eapply keeps_bind; [apply keeps_popFromContext | intros ? _]
    | eapply keeps_bind; [apply keeps_appendToContext; try reflexivity | intros ? _]
    | eapply keeps_bind;
        [apply keeps_readContextFileFromArguments | intros [? [?|]] ?]
    | eapply keeps_bind; [apply keeps_modify_app | intros ? _] ].

(** Every command handler keeps the roles of the context valid. *)
Lemma keeps_call (f : CommandFn) (args : string) : keeps (C := C) (call f args) (fun _ => True).
Proof.
  destruct f; simpl.
  - (* help *)
    unfold helpCommand. eapply keeps_bind with (P := fun _ => True).
    { destruct (negb _); [apply keeps_log | now apply keeps_ret]. }
    intros _ _. eapply keeps_bind; [apply keeps_get_colors | intros color _].
    keeps_step. eapply keeps_bind with (P := fun _ => True); [|intros; keeps_step].
    apply keeps_for_each. intros [name command]. unfold Print.
    keeps_step. eapply keeps_bind with (P := fun _ => True).
    { apply keeps_for_each. intros choices. apply keeps_log. }
    intros _ _. keeps_step. apply keeps_for_each. intros line. apply keeps_log.
  - (* save *)
    unfold saveCommand. destruct (args =? "")%string; [now apply keeps_ret |].
    keeps_step. eapply keeps_weaken; [apply keeps_writeContextFile | auto].
  - (* replacefrom *)
    unfold replaceFromCommand. keeps_step; [keeps_step |].
    keeps_step; [|keeps_step]. intros app _. simpl. now apply loaded_valid.
  - (* appendfrom *)
    unfold appendFromCommand. keeps_step; [keeps_step |].
    keeps_step; [|keeps_step]. intros app Happ. simpl.
    apply Forall_app. split; [exact Happ | now apply loaded_valid].
  - (* prependfrom *)
    unfold prependFromCommand. keeps_step; [keeps_step |].
    keeps_step; [|keeps_step]. intros app Happ. simpl.
    apply Forall_app. split; [now apply loaded_valid | exact Happ].
  - (* clear *)
    unfold clearCommand. destruct (negb _); [now apply keeps_ret |].
    keeps_step; [|repeat keeps_step]. intros app _. constructor.
  - (* print *)
    unfold printCommand, PrintWarning, Print. eapply keeps_bind with (P := fun _ => True).
    { destruct (negb _); [apply keeps_log | now apply keeps_ret]. }
    intros _ _. eapply keeps_bind; [apply keeps_color_Set_BoldFgWhite | intros _ _].
    eapply keeps_bind; [apply keeps_get_colors | intros color _].
    keeps_step. eapply keeps_bind with (P := fun _ => True); [|intros; keeps_step].
    apply keeps_for_each. intros msg. keeps_step. apply keeps_log.
  - (* append *)
    unfold appendCommand.
    destruct (parseSingleMessageFromArguments args) as [[role msg] [e|]] eqn:Hparse;
      [now apply keeps_ret |].
    eapply keeps_bind with (P := fun _ => True).
    { destruct (_ =? "")%string; [apply keeps_log | now apply keeps_ret]. }
    intros _ _. eapply keeps_bind; [apply keeps_appendToContext | intros; keeps_step].
    simpl. now apply (parseSingleMessage_role args role msg).
  - (* prepend *)
    unfold prependCommand.
    destruct (parseSingleMessageFromArguments args) as [[role msg] [e|]] eqn:Hparse;
      [now apply keeps_ret |].
    eapply keeps_bind with (P := fun _ => True).
    { destruct (_ =? "")%string; [apply keeps_log | now apply keeps_ret]. }
    intros _ _. keeps_step; [|keeps_step]. intros app Happ. simpl.
    constructor; [|exact Happ]. simpl. now apply (parseSingleMessage_role args role msg).
  - (* model *)
    unfold modelCommand. destruct (args =? "")%string; [now apply keeps_ret |].
    keeps_step; [|keeps_step]. auto.
  - (* pop *)
    unfold popCommand. destruct (parseSingleIntegerFromArguments args 2) as [n [e|]];
      [now apply keeps_ret | keeps_step].
  - (* escape *)
    unfold escapeCommand. repeat keeps_step.
  - (* nano *)
    unfold nanoCommand. destruct (isRoleValid args) eqn:Hrole; simpl; [|now apply keeps_ret].
    eapply keeps_bind with (P := fun _ => True).
    { apply keeps_app_of. reflexivity. }
    intros [content [e|]] _; [now apply keeps_ret |].
    destruct (strings_TrimSpace content =? "")%string; [now apply keeps_ret |].
    eapply keeps_bind; [apply keeps_appendToContext; exact Hrole | intros; keeps_step].
  - (* ns *)
    unfold nanoSendCommand.
    destruct (isRoleValid (if (args =? "")%string then "user" else args)) eqn:Hrole; simpl;
      [|now apply keeps_ret].
    eapply keeps_bind with (P := fun _ => True).
    { apply keeps_app_of. reflexivity. }
    intros [content [e|]] _; [now apply keeps_ret |].
    destruct (strings_TrimSpace content =? "")%string; [now apply keeps_ret |].
    eapply keeps_bind; [apply keeps_appendToContext; exact Hrole |].
    intros _ _. unfold Print. repeat keeps_step.
  - (* send *)
    unfold sendCommand. destruct (negb _); [now apply keeps_ret |]. repeat keeps_step.
  - (* autosave *)
    unfold autosaveCommand. keeps_step; [|repeat keeps_step]. auto.
  - (* exit *)
    unfold exitCommand. destruct (parseSingleIntegerFromArguments args 0) as [n [e|]];
      [now apply keeps_ret | keeps_step].
Qed.

(** Invariant (1) of the data model: a step of the session engine started
    with valid roles ends with valid roles, whether it returns, blocks or
    exits; so every context the engine hands to [writeContextFile] is one
    [parseContextFile] accepts. *)
Theorem appMain_keeps_valid_roles {R : Type} `{Readliner R} (reader : R) :
  keeps (C := C) (appMain reader) (fun _ => True).
Proof.
  unfold appMain. destruct (Readline reader) as [reader' [raw [e|]]]; [now apply keeps_ret |].
  destruct (_ =? "")%string; [now apply keeps_ret |].
  keeps_step.
  destruct (first_byte_is _ _ && _).
  - destruct (strings_Cut _ _) as [[commandName arguments] found].
    destruct (commandHandlers _ !! _) as [command|].
    + eapply keeps_bind; [apply keeps_call |]. intros err _.
      eapply keeps_bind with (P := fun _ => True); [|intros; keeps_step].
      destruct err; [apply keeps_log | now apply keeps_ret].
    + unfold PrintError. repeat keeps_step.
  - unfold PrintError. repeat keeps_step.
    destruct (forgetful _); repeat keeps_step.
Qed.

Lemma mainLoop_for_keeps_valid_roles {R : Type} `{Readliner R} (fuel : nat) :
  forall reader : R, keeps (C := C) (mainLoop_for fuel reader) (fun _ => True).
Proof.
  induction fuel as [|fuel IH]; intros reader; simpl; [now apply keeps_ret |].
  eapply keeps_bind; [apply appMain_keeps_valid_roles |].
  intros [running reader'] _. destruct running; [apply IH | now apply keeps_ret].
Qed.

Transparent keeps.

End Roles.

(** ** The retry policy, for retry counts that fit [int64] *)

Section Retry.

Context {C : Type} `{CompletionAPI C} `{Json}.

Lemma attempts_le_length (outs : list (chan * option error)) :
  (attempts outs <= length outs)%nat.
Proof.
  induction outs as [|[s [e|]] outs IH]; simpl; lia.
Qed.

Lemma attempts_pos (outs : list (chan * option error)) :
  outs <> [] -> (1 <= attempts outs)%nat.
Proof. destruct outs as [|[s [e|]] outs]; simpl; [congruence | lia | lia]. Qed.

(** Every attempt before the last one made has failed. *)
Lemma attempts_earlier_failed (outs : list (chan * option error)) :
  forall i : nat, (i < attempts outs - 1)%nat ->
    exists s e, outs !! i = Some (s, Some e).
Proof.
  induction outs as [|[s [e|]] outs IH]; simpl; intros i Hi; [lia | | lia].
  destruct i as [|i]; [now exists s, e |]. simpl. apply IH. lia.
Qed.

Lemma final_cons_failure (s : chan) (e : error) (outs : list (chan * option error)) :
  outs <> [] -> final ((s, Some e) :: outs) = final outs.
Proof.
  intros Hne. unfold final. simpl. rewrite Nat.sub_0_r.
  assert (Hpos := attempts_pos outs Hne).
  destruct (attempts outs) as [|k]; [lia |]. simpl. now rewrite Nat.sub_0_r.
Qed.

(** An error is the final outcome only when the whole list was consumed. *)
Lemma final_error_exhausts (outs : list (chan * option error)) (s : chan) (e : error) :
  outs <> [] -> final outs = (s, Some e) -> attempts outs = length outs.
Proof.
  induction outs as [|[s0 [e0|]] outs IH]; intros Hne Hfin; [congruence | |].
  - destruct outs as [|o outs]; [reflexivity |].
    rewrite final_cons_failure in Hfin by discriminate.
    change (S (attempts (o :: outs)) = S (length (o :: outs))).
    f_equal. apply IH; [discriminate | exact Hfin].
  - discriminate Hfin.
Qed.

Lemma outcomes_nonempty (c : C) (ctx : list Message) (n : nat) :
  outcomes c ctx (S n) <> [].
Proof. simpl. destruct (SendContext c ctx). discriminate. Qed.

Lemma outcomes_S (c : C) (ctx : list Message) (n : nat) :
  outcomes c ctx (S n)
  = let '(c', r) := SendContext c ctx in r :: outcomes c' ctx n.
Proof. reflexivity. Qed.

(** One iteration of the loop. *)
Lemma sendContext_loop_step (fuel : nat) (retries : Z) (waitTime : Q)
    (stream : chan) (e : option error) (app : App C) (w : World) :
  0 <= retries ->
  sendContext_loop (S fuel) retries waitTime stream e app w
  = let '(c', (s1, e1)) := SendContext (capi app) (context app) in
    let app1 := set_capi c' app in
    let w1 := emit (EvSendContext (context app)) w in
    if not_nil e1 && (0 <? retries) then
      sendContext_loop fuel (retries - 1)
        (float64 (float64 (waitTime * waitTimeMultiplier)
                  + float64 (float64 (rand_source w (rand_calls w)) / 3))) s1 e1 app1
        (tick_rand (emit (EvSleep (seconds_of_float waitTime)) w1))
    else Ret (s1, e1) app1 w1.
Proof.
  intros Hr. cbn [sendContext_loop].
  destruct (Z.leb_spec 0 retries); [|lia].
  unfold capi_SendContext, rand_Float64. run.
  destruct (SendContext (capi app) (context app)) as [c' [s1 e1]].
  destruct (not_nil e1 && (0 <? retries)); reflexivity.
Qed.

(** The loop started with [retries = r >= 0]: it stops at the first success
    among the outcomes of [r + 1] calls, or after all of them, and sleeps
    between two attempts for the integral number of seconds in [waitTime]. *)
Lemma sendContext_loop_exact (r : nat) :
  forall (waitTime : Q) (stream : chan) (e : option error) (app : App C) (w : World),
    let outs := outcomes (capi app) (context app) (S r) in
    exists (app' : App C) (w' : World),
      sendContext_loop (S r) (Z.of_nat r) waitTime stream e app w = Ret (final outs) app' w'
      /\ sends (trace w') = sends (trace w) ++ repeat (context app) (attempts outs)
      /\ sleeps (trace w')
         = sleeps (trace w)
           ++ map seconds_of_float
                (backoff64 waitTime (rand_source w) (rand_calls w) (attempts outs - 1)).
Proof.
  induction r as [|r IH]; intros waitTime stream e app w outs; subst outs;
    rewrite sendContext_loop_step by lia; rewrite outcomes_S;
    destruct (SendContext (capi app) (context app)) as [c' [s1 e1]] eqn:Hsend.
  - change (0 <? Z.of_nat 0) with false. rewrite andb_false_r.
    do 2 eexists. split; [|split].
    + unfold final. destruct e1; reflexivity.
    + simpl. rewrite sends_app. destruct e1; reflexivity.
    + simpl. rewrite sleeps_app. destruct e1; simpl; now rewrite !app_nil_r.
  - destruct e1 as [e1|]; cbn [not_nil andb].
    + destruct (Z.ltb_spec 0 (Z.of_nat (S r))) as [_|?]; [|lia].
      replace (Z.of_nat (S r) - 1) with (Z.of_nat r) by lia.
      match goal with
      | |- context [sendContext_loop (S r) _ ?wt1 ?s1' ?e1' ?a1 ?w1] =>
          destruct (IH wt1 s1' e1' a1 w1) as (app' & w' & Hloop & Hsends & Hsleeps)
      end.
      cbn [capi context set_capi trace rand_source rand_calls emit tick_rand]
        in Hloop, Hsends, Hsleeps.
      exists app', w'. split; [|split].
      * rewrite final_cons_failure by apply outcomes_nonempty. exact Hloop.
      * rewrite Hsends, !sends_app. cbn [sends flat_map attempts repeat].
        rewrite !app_nil_r, <- app_assoc. reflexivity.
      * rewrite Hsleeps, !sleeps_app. cbn [sleeps flat_map attempts].
        rewrite !app_nil_r, <- app_assoc.
        assert (Hpos := attempts_pos _ (outcomes_nonempty c' (context app) r)).
        destruct (attempts (outcomes c' (context app) (S r))) as [|k] eqn:Hk; [lia |].
        cbn [Nat.sub backoff64 map Datatypes.app]. rewrite Nat.sub_0_r. reflexivity.
    + do 2 eexists. split; [reflexivity | split].
      * simpl. rewrite sends_app. reflexivity.
      * simpl. rewrite sleeps_app. simpl. now rewrite !app_nil_r.
Qed.

Lemma bind_finish_world (m : Prog C (string * option error)) (app : App C) (w : World) :
  world_of (bind m finish app w) = world_of (m app w).
Proof.
  unfold bind. destruct (m app w) as [[resp [e|]] a0 w0|a0 w0|cd a0 w0]; reflexivity.
Qed.

Lemma to_int64_small (z : Z) : 0 <= z < 2 ^ 63 -> to_int64 z = z.
Proof.
  intros Hz. unfold to_int64.
  rewrite Z.mod_small by lia. lia.
Qed.

(** The run of [sendContextAndProcessResponse] in the model, for a retry
    count [0 <= R < 2^63]: the calls, the sleeps and the result. *)
Lemma retry_policy_run (app : App C) (w : World) :
  0 <= maxRetries app < 2 ^ 63 ->
  let outs := outcomes (capi app) (context app) (S (Z.to_nat (maxRetries app))) in
  let r := sendContextAndProcessResponse app w in
  sends (trace (world_of r)) = sends (trace w) ++ repeat (context app) (attempts outs)
  /\ (1 <= Z.of_nat (attempts outs) <= maxRetries app + 1)
  /\ sleeps (trace (world_of r))
     = sleeps (trace w)
       ++ map seconds_of_float
            (backoff64 1 (rand_source w) (rand_calls w) (attempts outs - 1))
  /\ exists (app1 : App C) (w1 : World),
       match final outs with
       | (_, Some e) =>
           r = Ret ("", Some (errorString ("failed to send context: " +:+ Error e))) app1 w1
       | (stream, None) =>
           r = bind (printAndCollectStream stream) finish app1 w1
       end.
Proof.
  intros HR outs r.
  assert (Hlen : length outs = S (Z.to_nat (maxRetries app))).
  { subst outs. generalize (capi app). generalize (S (Z.to_nat (maxRetries app))).
    induction n as [|n IHn]; intros c; simpl; [reflexivity |].
    destruct (SendContext c (context app)). simpl. now rewrite IHn. }
  assert (Hbound : 1 <= Z.of_nat (attempts outs) <= maxRetries app + 1).
  { assert (H1 := attempts_le_length outs).
    assert (H2 := attempts_pos outs (outcomes_nonempty _ _ _)). lia. }
  destruct (sendContext_loop_exact (Z.to_nat (maxRetries app)) 1%Q nil_chan None app w)
    as (app1 & w1 & Hloop & Hsends & Hsleeps).
  rewrite Z2Nat.id in Hloop by lia. fold outs in Hloop, Hsends, Hsleeps.
  clearbody outs.
  assert (Hrun : sendContextAndProcessResponse app w
                 = let '(stream, err) := final outs in
                   match err with
                   | Some e =>
                       Ret ("", Some (errorString ("failed to send context: " +:+ Error e)))
                           app1 w1
                   | None => bind (printAndCollectStream stream) finish app1 w1
                   end).
  { unfold sendContextAndProcessResponse.
    unfold bind at 1. unfold get_app at 1. cbv beta iota zeta.
    rewrite (to_int64_small _ HR).
    replace (Z.to_nat (maxRetries app + 1)) with (S (Z.to_nat (maxRetries app))) by lia.
    unfold bind at 1. rewrite Hloop.
    destruct (final outs) as [stream [e|]]; reflexivity. }
  subst r. rewrite Hrun. clear Hrun Hloop.
  destruct (final outs) as [stream [e|]].
  - cbn [world_of].
    split; [assumption | split; [lia | split; [assumption |]]]. now exists app1, w1.
  - rewrite bind_finish_world.
    destruct (drain_quiet stream app1 w1) as (_ & Hs & Hsl & _).
    split; [congruence | split; [lia | split; [congruence |]]].
    now exists app1, w1.
Qed.

Lemma length_backoff64 (rnd : nat -> Q) (k : nat) :
  forall (waitTime : Q) (i : nat), length (backoff64 waitTime rnd i k) = k.
Proof. induction k as [|k IH]; intros waitTime i; simpl; [reflexivity | now rewrite IH]. Qed.

(** X4. The retry policy of [sendContextAndProcessResponse] when the configured
    count [R] satisfies [0 <= R < 2^63].  Of the outcomes the service gives
    to [R + 1] calls, the client consumes [attempts]: at least one, at most
    [R + 1], all failures but possibly the last, which is the first success
    if there is one; each call is given the context.  The client sleeps once
    between two attempts, so one time less than it calls.  When the final
    outcome is an error it is returned, wrapped; otherwise the stream is
    drained, and the drain causes no further call. *)
Theorem retry_policy_in_range (app : App C) (w : World) :
  0 <= maxRetries app < 2 ^ 63 ->
  let outs := outcomes (capi app) (context app) (S (Z.to_nat (maxRetries app))) in
  let r := sendContextAndProcessResponse app w in
  sends (trace (world_of r)) = sends (trace w) ++ repeat (context app) (attempts outs)
  /\ (1 <= Z.of_nat (attempts outs) <= maxRetries app + 1)
  /\ length (sleeps (trace (world_of r)))
     = (length (sleeps (trace w)) + (attempts outs - 1))%nat
  /\ exists (app1 : App C) (w1 : World),
       match final outs with
       | (_, Some e) =>
           r = Ret ("", Some (errorString ("failed to send context: " +:+ Error e))) app1 w1
       | (stream, None) =>
           r = bind (printAndCollectStream stream) finish app1 w1
       end.
Proof.
  intros HR outs r.
  destruct (retry_policy_run app w HR) as (Hsends & Hbound & Hsleeps & Hrun).
  fold outs r in Hsends, Hbound, Hsleeps, Hrun.
  split; [exact Hsends | split; [exact Hbound | split; [|exact Hrun]]].
  rewrite Hsleeps, length_app, length_map. now rewrite length_backoff64.
Qed.

(** X29. The waits of the retry loop, for a retry count of at most 60 (the
    waits then stay below [2^63] seconds, where the conversion
    [time.Duration(waitTime)] is defined by the language).  The variable
    [waitTime] starts at 1 and becomes [waitTime * 2 + rand.Float64() / 3]
    after each wait, every operation rounded to [float64]; before a further
    attempt the client sleeps [time.Duration(waitTime) * time.Second] for the
    current value: the fraction of the value is cut off by the conversion,
    before the multiplication (a product of [int64]). *)
Theorem retry_sleeps_are_truncated_backoff (app : App C) (w : World) :
  0 <= maxRetries app <= 60 ->
  let outs := outcomes (capi app) (context app) (S (Z.to_nat (maxRetries app))) in
  let r := sendContextAndProcessResponse app w in
  sleeps (trace (world_of r))
  = sleeps (trace w)
    ++ map (fun waitTime => to_int64 (float_to_int64 waitTime * time_Second))
         (backoff64 1 (rand_source w) (rand_calls w) (attempts outs - 1)).
Proof.
  intros HR outs r.
  destruct (retry_policy_run app w) as (_ & _ & Hsleeps & _); [lia |].
  exact Hsleeps.
Qed.

End Retry.

(** ** The autosave mirror *)

Section Mirror.

Context {C : Type} `{CompletionAPI C} `{Json}.

(** With a mirror configured, the refresh attempts exactly one write, of the
    serialized context to the mirror path; when the system accepts the write,
    the mirror holds the serialized context afterwards. *)
Lemma tryUpdateAutosaveFile_mirrors (app : App C) (w : World) (data : string) :
  autosaveFilePath app <> "" ->
  json_MarshalIndent (context app) = (data, None) ->
  let w' := world_of (tryUpdateAutosaveFile app w) in
  writes (trace w') = writes (trace w) ++ [(autosaveFilePath app, data)]
  /\ (autosaveFilePath app ∉ denied w -> files w' !! autosaveFilePath app = Some data)
  /\ (autosaveFilePath app ∈ denied w -> files w' = files w).
Proof.
  intros Hpath Hdata. unfold tryUpdateAutosaveFile. run.
  apply String.eqb_neq in Hpath. rewrite Hpath.
  unfold writeContextFile. rewrite Hdata. unfold os_WriteFile.
  apply String.eqb_neq in Hpath.
  destruct (bool_decide_reflect (autosaveFilePath app = "" \/ autosaveFilePath app ∈ denied w))
    as [[Hempty|Hden]|Hok]; simpl.
  - contradiction.
  - rewrite !writes_app. simpl. rewrite app_nil_r. split; [reflexivity | split; tauto].
  - rewrite writes_app. simpl. split; [reflexivity | split].
    + intros _. apply lookup_insert_eq.
    + intros Hden. exfalso. apply Hok. now right.
Qed.

(** Without a mirror configured the refresh does nothing. *)
Lemma tryUpdateAutosaveFile_off (app : App C) (w : World) :
  autosaveFilePath app = "" -> tryUpdateAutosaveFile app w = Ret tt app w.
Proof. intros Hoff. unfold tryUpdateAutosaveFile. run. now rewrite Hoff. Qed.

(** Reading a context file writes nothing. *)
Lemma readContextFileFromArguments_reads_only (args : string) (app : App C) (w : World) :
  exists r, readContextFileFromArguments args app w = Ret r app w.
Proof.
  unfold readContextFileFromArguments.
  destruct (args =? "")%string; [eexists; reflexivity |].
  unfold parseContextFile, os_ReadFile. run.
  destruct (files w !! args) as [data|]; [|eexists; reflexivity].
  destruct (json_Unmarshal data) as [msgs [e|]]; [eexists; reflexivity |].
  destruct (parseContextFile_loop args 0 msgs); eexists; reflexivity.
Qed.

(** [/prepend], [/replacefrom], [/appendfrom] and [/prependfrom] change the
    context without refreshing the mirror: whatever their argument, they
    attempt no write and leave every file as it was. *)
Lemma splice_commands_skip_the_mirror (f : CommandFn) (args : string) (app : App C) (w : World) :
  f = prependCommand_fn \/ f = replaceFromCommand_fn
  \/ f = appendFromCommand_fn \/ f = prependFromCommand_fn ->
  let r := call f args app w in
  writes (trace (world_of r)) = writes (trace w) /\ files (world_of r) = files w.
Proof.
  intros [-> | [-> | [-> | ->]]]; simpl.
  - unfold prependCommand.
    destruct (parseSingleMessageFromArguments args) as [[role msg] [e|]]; [now simpl |].
    run. destruct (strings_TrimSpace msg =? "")%string; simpl;
      rewrite ?writes_app; simpl; now rewrite ?app_nil_r.
  - unfold replaceFromCommand. run.
    destruct (readContextFileFromArguments_reads_only args app w) as [[ctx [e|]] ->]; now simpl.
  - unfold appendFromCommand. run.
    destruct (readContextFileFromArguments_reads_only args app w) as [[ctx [e|]] ->]; now simpl.
  - unfold prependFromCommand. run.
    destruct (readContextFileFromArguments_reads_only args app w) as [[ctx [e|]] ->]; now simpl.
Qed.

End Mirror.

(** ** Concrete sessions *)

(** C1. A context change made by [/prepend] is not followed by a write of the
    mirror.  After [/append system a] and [/prepend user hi] with the mirror
    [P] configured, the context has two messages, only the write of the
    append was attempted, and the mirror still reads back as the single
    message [system a]. *)
Theorem prepend_leaves_mirror_stale :
  let r := session ["/append system a"; "/prepend user hi"] mirrored emptyWorld in
  context (app_of r) = [mkMessage "user" "hi"; mkMessage "system" "a"]
  /\ writes (trace (world_of r)) = [("P", fst (json_MarshalIndent [mkMessage "system" "a"]))]
  /\ parseContextFile "P" (app_of r) (world_of r)
     = Ret ([mkMessage "system" "a"], None) (app_of r) (world_of r).
Proof. vm_compute. repeat split. Qed.

(** C2. A failed exchange started by [/escape] leaves the user message in the
    context: on the empty context, [/escape hi] against a service that
    refuses the exchange, or whose stream breaks, ends with the context
    [user hi], where the same failure on the conversational line [hi] ends
    with the empty context. *)
Theorem escape_failure_mutates_context :
  context (app_of (session ["/escape hi"] (makeTestApp refusingAPI) emptyWorld))
  = [mkMessage "user" "hi"]
  /\ context (app_of (session ["/escape hi"] (makeTestApp breakingAPI) emptyWorld))
     = [mkMessage "user" "hi"]
  /\ context (app_of (session ["hi"] (makeTestApp breakingAPI) emptyWorld)) = [].
Proof. vm_compute. repeat split. Qed.

(** C3. With the retry count [2^63], which a 64-bit [uint] holds, the conversion
    [int64(app.maxRetries)] is negative: the loop body never runs,
    [SendContext] is never called, and the client waits on the [nil] channel
    for ever, whatever the service would have answered. *)
Theorem huge_retry_count_never_attempts :
  let app := set_maxRetries (2 ^ 63) (makeTestApp makeTestCompletionAPI) in
  to_int64 (maxRetries app) = - 2 ^ 63
  /\ sendContextAndProcessResponse app emptyWorld = Hang app emptyWorld
  /\ sends (trace (world_of (sendContextAndProcessResponse app emptyWorld))) = [].
Proof. vm_compute. repeat split. Qed.

(** The retry policy at work: with five retries allowed, two refusals and a
    success make three calls and two sleeps, and the response is the drained
    text; with one retry allowed the second refusal is what is returned. *)
Example retry_until_first_success :
  let r := sendContextAndProcessResponse (set_maxRetries 5 (makeTestApp flakyAPI)) emptyWorld in
  r = Ret ("abc def", None) (app_of r) (world_of r)
  /\ length (sends (trace (world_of r))) = 3%nat
  /\ sleeps (trace (world_of r)) = [1000000000; 2000000000].
Proof. vm_compute. repeat split. Qed.

Example retry_budget_exhausted :
  let r := sendContextAndProcessResponse (set_maxRetries 1 (makeTestApp flakyAPI)) emptyWorld in
  r = Ret ("", Some (errorString "failed to send context: rate limited")) (app_of r) (world_of r)
  /\ length (sends (trace (world_of r))) = 2%nat
  /\ sleeps (trace (world_of r)) = [1000000000].
Proof. vm_compute. repeat split. Qed.

(** C4. With four retries against a service that always refuses, and a
    random source that always answers [0.9] (a jitter of [0.3]), the variable
    [waitTime] takes the values 1, 2.3, 4.9 and 10.1 (the recurrence in exact
    arithmetic; the program holds them rounded to [float64]), and the client
    sleeps 1, 2, 4 and 10 seconds: the fraction of each wait is cut off by
    [time.Duration(waitTime)]. *)
Theorem sleeps_are_whole_seconds :
  let app := set_maxRetries 4 (makeTestApp refusingAPI) in
  sleeps (trace (world_of (sendContextAndProcessResponse app jitteryWorld)))
  = [1000000000; 2000000000; 4000000000; 10000000000]
  /\ Forall2 Qeq (backoff 1 (rand_source jitteryWorld) 0 4) [1; 23 # 10; 49 # 10; 101 # 10]%Q.
Proof.
  split; [vm_compute; reflexivity |].
  repeat constructor; vm_compute; reflexivity.
Qed.

(** ** The statements above at concrete inputs *)

Lemma popFromContext_removes_last_n_witness :
  let app := set_context three_messages (makeTestApp makeTestCompletionAPI) in
  (popFromContext 2 app emptyWorld
   = Ret None (set_context [mkMessage "system" "a"] app) emptyWorld
   /\ exists removed, three_messages = [mkMessage "system" "a"] ++ removed /\ len removed = 2)
  /\ (exists e, popFromContext 0 app emptyWorld = Ret (Some e) app emptyWorld)
  /\ (exists e, popFromContext 4 app emptyWorld = Ret (Some e) app emptyWorld).
Proof.
  intros app. split; [|split].
  - apply (proj1 (popFromContext_removes_last_n app emptyWorld 2)).
    unfold len. simpl. lia.
  - apply (proj2 (popFromContext_removes_last_n app emptyWorld 0)). left. lia.
  - apply (proj2 (popFromContext_removes_last_n app emptyWorld 4)). right.
    unfold len. simpl. lia.
Defined.

Lemma parse_after_write_round_trip_witness :
  let ctx := three_messages in
  let app := makeTestApp makeTestCompletionAPI in
  let w' := world_of (writeContextFile "P" ctx app emptyWorld) in
  writeContextFile "P" ctx app emptyWorld = Ret None app w'
  /\ parseContextFile "P" app w' = Ret (ctx, None) app w'.
Proof.
  intros ctx app w'.
  destruct (parse_after_write_round_trip app emptyWorld "P" ctx) as (Hwrite & Hparse & _).
  - repeat constructor.
  - repeat constructor.
  - discriminate.
  - apply not_elem_of_empty.
  - split; [exact Hwrite | exact Hparse].
Defined.

Lemma drain_concatenates_or_fails_witness :
  let app := makeTestApp makeTestCompletionAPI in
  printAndCollectStream
    (make_chan [mkDelta "abc " None; mkDelta "def" None; mkDelta "" (Some io_EOF)] false)
    app emptyWorld
  = Ret ("abc def", None) app
        (emit (EvPrint nl) (echoed [mkDelta "abc " None; mkDelta "def" None] emptyWorld))
  /\ printAndCollectStream
       (make_chan [mkDelta "par" None; mkDelta "" (Some (errorString "connection reset"));
                   mkDelta "lost" None] true)
       app emptyWorld
     = Ret ("", Some (errorString "connection reset")) app
           (echoed [mkDelta "par" None] emptyWorld).
Proof.
  intros app. split.
  - apply (proj1 (drain_concatenates_or_fails app emptyWorld
                    [mkDelta "abc " None; mkDelta "def" None] (mkDelta "" (Some io_EOF))
                    [] false ltac:(repeat constructor))).
    reflexivity.
  - apply (proj2 (drain_concatenates_or_fails app emptyWorld
                    [mkDelta "par" None] (mkDelta "" (Some (errorString "connection reset")))
                    [mkDelta "lost" None] true ltac:(repeat constructor))
                 (errorString "connection reset")); reflexivity.
Defined.

Lemma drain_closed_channel_is_clean_end_witness :
  let app := makeTestApp makeTestCompletionAPI in
  printAndCollectStream (make_chan [mkDelta "abc " None; mkDelta "def" None] true)
    app emptyWorld
  = Ret ("abc def", None) app
        (emit (EvPrint nl) (echoed [mkDelta "abc " None; mkDelta "def" None] emptyWorld)).
Proof.
  intros app.
  apply (drain_closed_channel_is_clean_end app emptyWorld
           [mkDelta "abc " None; mkDelta "def" None]).
  repeat constructor.
Defined.

Lemma forgetful_exchange_keeps_context_witness :
  let app := set_forgetful true
               (set_context [mkMessage "system" "a"] (makeTestApp abcdefAPI)) in
  exists (app' : App MockCompletionAPI) (w' : World),
    appMain (mkMockReadliner ["b"] None 0) app emptyWorld
    = Ret (true, mkMockReadliner ["b"] None 1) app' w'
    /\ context app' = [mkMessage "system" "a"]
    /\ exists k : nat,
         (0 < k)%nat
         /\ sends (trace w') = repeat [mkMessage "system" "a"; mkMessage "user" "b"] k.
Proof.
  intros app.
  set (app1 := set_context (context app ++ [mkMessage "user" "b"]) app).
  set (r := sendContextAndProcessResponse app1 emptyWorld).
  destruct (forgetful_exchange_keeps_context
              (mkMockReadliner ["b"] None 0) (mkMockReadliner ["b"] None 1)
              app (app_of r) emptyWorld (world_of r) "b" "abc def")
    as (app' & w' & Hrun & Hctx & _ & k & Hk & Hsends).
  - reflexivity.
  - vm_compute. discriminate.
  - reflexivity.
  - reflexivity.
  - vm_compute. reflexivity.
  - exists app', w'. split; [exact Hrun |]. split; [exact Hctx |].
    exists k. split; [exact Hk | exact Hsends].
Defined.

Lemma invalid_role_rejected_at_first_index_witness :
  let app := set_context [mkMessage "user" "kept"] (makeTestApp makeTestCompletionAPI) in
  parseContextFile "ctx.json" app narratorWorld
  = Ret ([], Some (invalid_role_error "ctx.json" 2)) app narratorWorld
  /\ replaceFromCommand "ctx.json" app narratorWorld
     = Ret (Some (invalid_role_error "ctx.json" 2)) app narratorWorld.
Proof.
  intros app.
  destruct (invalid_role_rejected_at_first_index app narratorWorld "ctx.json"
              (fst (json_MarshalIndent narrator_messages)) narrator_messages 2%nat
              (mkMessage "narrator" "c"))
    as [Hparse Hreplace].
  - vm_compute. reflexivity.
  - vm_compute. reflexivity.
  - reflexivity.
  - reflexivity.
  - intros j m' Hj Hm'. destruct j as [|[|j]].
    + injection Hm' as <-. reflexivity.
    + injection Hm' as <-. reflexivity.
    + lia.
  - split; [exact Hparse | apply Hreplace; discriminate].
Defined.

(** * Further properties of the session engine *)

Section MoreStore.

Context {C : Type} `{CompletionAPI C} `{Json}.

Lemma set_context_same (app : App C) : set_context (context app) app = app.
Proof. now destruct app. Qed.


(** X2. With a mirror configured, [appendToContext] adds the message to the
    context whatever happens to the write, and attempts exactly one write, of
    the serialized new context to the mirror path.  When the system accepts
    the write the mirror holds that text; when it refuses, no file changes,
    the failure is reported on the error printer, and the message stays in
    the context. *)
Theorem appendToContext_never_rolls_back (msg : Message) (app : App C) (w : World)
    (data : string) :
  autosaveFilePath app <> "" ->
  json_MarshalIndent (context app ++ [msg]) = (data, None) ->
  exists w' : World,
    appendToContext msg app w = Ret tt (set_context (context app ++ [msg]) app) w'
    /\ writes (trace w') = writes (trace w) ++ [(autosaveFilePath app, data)]
    /\ (autosaveFilePath app ∉ denied w ->
        files w' !! autosaveFilePath app = Some data /\ trace w' = trace w ++ [EvWriteFile (autosaveFilePath app) data true])
    /\ (autosaveFilePath app ∈ denied w ->
        files w' = files w
        /\ exists report, trace w' = trace w ++ [EvWriteFile (autosaveFilePath app) data false;
                                                   EvPrintError report]).
Proof.
  intros Hpath Hdata.
  exists (world_of (tryUpdateAutosaveFile (set_context (context app ++ [msg]) app) w)).
  split; [apply appendToContext_returns |].
  unfold tryUpdateAutosaveFile. run.
  apply String.eqb_neq in Hpath. rewrite Hpath. apply String.eqb_neq in Hpath.
  unfold writeContextFile. rewrite Hdata. unfold os_WriteFile.
  destruct (bool_decide_reflect (autosaveFilePath app = "" \/ autosaveFilePath app ∈ denied w))
    as [[Hempty|Hden]|Hok]; simpl.
  - contradiction.
  - rewrite !writes_app. simpl. rewrite app_nil_r.
    split; [reflexivity |]. split; [intros Hno; contradiction |].
    intros _. split; [reflexivity |]. eexists. rewrite <- app_assoc. reflexivity.
  - rewrite writes_app. simpl. split; [reflexivity |]. split.
    + intros _. split; [apply lookup_insert_eq | reflexivity].
    + intros Hden. exfalso. apply Hok. now right.
Qed.


End MoreStore.

Section MoreExchange.

Context {C : Type} `{CompletionAPI C} `{Json}.

(** X5. An exchange, however it ends (a response, an error, a block), leaves
    the application as it was except for the state of the completion client,
    changes and writes no file, and calls [SendContext] at most
    [int64(maxRetries) + 1] times (never, when that is negative), each time
    with the context of the application. *)
Theorem exchange_touches_only_the_client (app : App C) (w : World) :
  let r := sendContextAndProcessResponse app w in
  app_of r = set_capi (capi (app_of r)) app
  /\ files (world_of r) = files w
  /\ writes (trace (world_of r)) = writes (trace w)
  /\ exists k : nat,
       sends (trace (world_of r)) = sends (trace w) ++ repeat (context app) k
       /\ Z.of_nat k <= Z.max 0 (to_int64 (maxRetries app) + 1).
Proof.
  intros r. destruct (send_frame app w) as (Hfr & Hfiles & Hwrites & k & Hk & Hle & _).
  fold r in Hfr, Hfiles, Hwrites, Hk.
  split; [exact Hfr | split; [exact Hfiles | split; [exact Hwrites |]]].
  exists k. split; assumption.
Qed.

(** X7. Without forgetful mode, a successful exchange on a conversational
    input line ends with the user message and the response, in this order,
    at the end of the context; and when a mirror is configured and the system
    accepts the write, the mirror holds the serialized new context. *)
Theorem plain_exchange_success_records_both {R : Type} `{Readliner R}
    (reader reader' : R) (app app2 : App C) (w w2 : World) (raw resp : string) :
  let line := strings_TrimSpace raw in
  let app1 := set_context (context app ++ [mkMessage "user" line]) app in
  let w1 := world_of (tryUpdateAutosaveFile app1 w) in
  Readline reader = (reader', (raw, None)) ->
  line <> "" ->
  first_byte_is "/" line && negb (slashCommandsDisabled app) = false ->
  forgetful app = false ->
  sendContextAndProcessResponse app1 w1 = Ret (resp, None) app2 w2 ->
  exists (app' : App C) (w' : World),
    appMain reader app w = Ret (true, reader') app' w'
    /\ context app' = context app ++ [mkMessage "user" line; mkMessage "assistant" resp]
    /\ forall data : string,
         autosaveFilePath app <> "" ->
         autosaveFilePath app ∉ denied w2 ->
         json_MarshalIndent (context app') = (data, None) ->
         files w' !! autosaveFilePath app = Some data.
Proof.
  intros line app1 w1 Hread Hline Hplain Hforget Hsend.
  rewrite (appMain_plain reader reader' app w raw Hread Hline Hplain).
  fold line app1 w1.
  destruct (send_frame app1 w1) as (Hfr & _).
  rewrite Hsend in Hfr. simpl in Hfr.
  unfold bind at 1. rewrite Hsend. unfold bind at 1. unfold get_app at 1.
  rewrite (frame_forgetful _ _ Hfr). simpl. rewrite Hforget.
  unfold bind at 1. rewrite appendToContext_returns. unfold ret.
  rewrite (frame_context _ _ Hfr). simpl.
  do 2 eexists. split; [reflexivity |]. split.
  - simpl. rewrite <- app_assoc. reflexivity.
  - intros data Hpath Hden Hdata. simpl in Hdata.
    set (app3 := set_context ((context app ++ [mkMessage "user" line])
                                ++ [mkMessage "assistant" resp]) app2).
    assert (Hauto : autosaveFilePath app3 = autosaveFilePath app).
    { subst app3. simpl. apply (frame_autosave _ _ Hfr). }
    destruct (tryUpdateAutosaveFile_mirrors app3 w2 data) as (_ & Hfile & _).
    + now rewrite Hauto.
    + exact Hdata.
    + rewrite Hauto in Hfile. now apply Hfile.
Qed.

(** X8. [/send] and [/escape] with a successful exchange: [/send] appends
    the response as an assistant message; [/escape text] appends the text,
    untrimmed, as a user message and the response after it. *)
Theorem exchange_commands_record_the_response (app : App C) (w : World)
    (messageContent : string) :
  (forall (resp : string) (app2 : App C) (w2 : World),
     sendContextAndProcessResponse app w = Ret (resp, None) app2 w2 ->
     exists (app' : App C) (w' : World),
       sendCommand "" app w = Ret None app' w'
       /\ context app' = context app ++ [mkMessage "assistant" resp])
  /\
  (forall (resp : string) (app2 : App C) (w2 : World),
     let app1 := set_context (context app ++ [mkMessage "user" messageContent]) app in
     sendContextAndProcessResponse app1 (world_of (tryUpdateAutosaveFile app1 w))
     = Ret (resp, None) app2 w2 ->
     exists (app' : App C) (w' : World),
       escapeCommand messageContent app w = Ret None app' w'
       /\ context app'
          = context app ++ [mkMessage "user" messageContent; mkMessage "assistant" resp]).
Proof.
  split.
  - intros resp app2 w2 Hsend.
    destruct (send_frame app w) as (Hfr & _). rewrite Hsend in Hfr. simpl in Hfr.
    unfold sendCommand. simpl. unfold bind at 1. rewrite Hsend.
    unfold bind at 1. rewrite appendToContext_returns. unfold ret.
    do 2 eexists. split; [reflexivity |]. simpl. now rewrite (frame_context _ _ Hfr).
  - intros resp app2 w2 app1 Hsend.
    destruct (send_frame app1 (world_of (tryUpdateAutosaveFile app1 w))) as (Hfr & _).
    rewrite Hsend in Hfr. simpl in Hfr.
    unfold escapeCommand. unfold bind at 1. rewrite appendToContext_returns. fold app1.
    unfold bind at 1. rewrite Hsend.
    unfold bind at 1. rewrite appendToContext_returns. unfold ret.
    do 2 eexists. split; [reflexivity |]. simpl.
    rewrite (frame_context _ _ Hfr). simpl. now rewrite <- app_assoc.
Qed.

(** X11. Invariant of the session: if every role in the context is valid
    before the loop of [mainLoop] runs, every role is valid after any number
    of input lines, whatever the lines, the files, the editor and the
    completion service do, and whether the loop returns, blocks or exits. *)
Theorem session_keeps_valid_roles {R : Type} `{Readliner R}
    (fuel : nat) (reader : R) (app : App C) (w : World) :
  valid_roles (context app) ->
  valid_roles (context (app_of (mainLoop_for fuel reader app w))).
Proof.
  intros Hvalid.
  assert (Hkeeps := mainLoop_for_keeps_valid_roles fuel reader app w Hvalid).
  destruct (mainLoop_for fuel reader app w) as [a app' w'|app' w'|code app' w']; simpl.
  - now destruct Hkeeps.
  - exact Hkeeps.
  - exact Hkeeps.
Qed.

End MoreExchange.

Section MoreCommands.

Context {C : Type} `{CompletionAPI C} `{Json}.

(** The names of the command table. *)
Lemma registered_lookup_none (name : string) (app : App C) (w : World) :
  ~ In name ["help"; "save"; "replacefrom"; "appendfrom"; "prependfrom"; "clear"; "print";
             "append"; "prepend"; "model"; "pop"; "escape"; "nano"; "ns"; "send";
             "autosave"; "exit"] ->
  commandHandlers (app_of (registerCommandHandlers app w)) !! name = None.
Proof.
  intros Hname. unfold registerCommandHandlers, modify_app.
  cbn [app_of commandHandlers set_commandHandlers].
  apply not_elem_of_list_to_map_1. intros Hin. apply Hname.
  apply list_elem_of_In in Hin. exact Hin.
Qed.

(** X12. A line that begins with the slash, commands being enabled, and whose
    command name is none of the seventeen registered ones is answered with
    an [unknown command] error and nothing else: the application is the one
    after registration, no file is written, no service is called. *)
Theorem unregistered_command_changes_nothing {R : Type} `{Readliner R}
    (reader reader' : R) (app : App C) (w : World) (raw : string) :
  let line := strings_TrimSpace raw in
  let name := strings_TrimSpace (from_1 (fst (fst (strings_Cut line " ")))) in
  Readline reader = (reader', (raw, None)) ->
  first_byte_is "/" line = true ->
  slashCommandsDisabled app = false ->
  ~ In name ["help"; "save"; "replacefrom"; "appendfrom"; "prependfrom"; "clear"; "print";
             "append"; "prepend"; "model"; "pop"; "escape"; "nano"; "ns"; "send";
             "autosave"; "exit"] ->
  bind registerCommandHandlers (fun _ => appMain reader) app w
  = Ret (true, reader') (app_of (registerCommandHandlers app w))
        (emit (EvPrintError ("unknown command: " +:+ name +:+ nl)) w).
Proof.
  intros line name Hread Hslash Henabled Hname.
  assert (Hlookup := registered_lookup_none name app w Hname).
  unfold bind at 1. unfold registerCommandHandlers at 1. unfold modify_app at 1.
  unfold registerCommandHandlers, modify_app in Hlookup. cbn [app_of] in Hlookup |- *.
  unfold appMain. rewrite Hread. fold line.
  assert (Hne : (line =? "")%string = false).
  { destruct line; [discriminate Hslash | reflexivity]. }
  rewrite Hne. unfold bind at 1. unfold get_app at 1.
  rewrite Hslash. cbn [slashCommandsDisabled set_commandHandlers]. rewrite Henabled.
  cbn [negb andb].
  destruct (strings_Cut line " ") as [[commandName arguments] found] eqn:Hcut.
  subst name. cbn [fst] in Hlookup. cbn [commandHandlers]. rewrite Hlookup.
  reflexivity.
Qed.

Lemma ParseInt_range (s : string) (n : Z) :
  strconv_ParseInt s 32 = (n, None) -> - 2 ^ 31 <= n <= 2 ^ 31 - 1.
Proof.
  unfold strconv_ParseInt.
  destruct (match list_ascii_of_string s with
            | [] => (false, list_ascii_of_string s)
            | c :: ds => _
            end) as [neg ds].
  destruct ds as [|d ds]; [discriminate |].
  destruct (parse_digits (d :: ds) 0) as [v|]; [|discriminate].
  change (32 - 1) with 31.
  destruct (Z.ltb_spec (if neg then - v else v) (- 2 ^ 31)); [discriminate |].
  destruct (Z.ltb_spec (2 ^ 31 - 1) (if neg then - v else v)); [discriminate |].
  intros [= <-]. lia.
Qed.

Lemma parseSingleInteger_range (args : string) (d n : Z) :
  parseSingleIntegerFromArguments args d = (n, None) ->
  (args = "" /\ n = d) \/ (args <> "" /\ - 2 ^ 31 <= n <= 2 ^ 31 - 1).
Proof.
  unfold parseSingleIntegerFromArguments.
  destruct (String.eqb_spec args ""); [intros [= <-]; now left |].
  destruct (strconv_ParseInt args 32) as [m [e|]] eqn:Hparse; [discriminate |].
  intros [= <-]. right. split; [assumption | exact (ParseInt_range _ _ Hparse)].
Qed.

(** X13. [/pop]: with no argument and at least two messages it removes the
    last two.  Whatever the argument, either an error is returned and neither
    the application nor the world has changed, or no error is returned and
    the context has lost its last [n] messages for some [1 <= n <= len]. *)
Theorem pop_command_pops_or_refuses (args : string) (app : App C) (w : World) :
  (2 <= len (context app) ->
   exists w' : World,
     popCommand "" app w
     = Ret None (set_context (take (Z.to_nat (len (context app) - 2)) (context app)) app) w')
  /\
  match popCommand args app w with
  | Ret None app' _ =>
      exists n : Z,
        1 <= n <= len (context app)
        /\ context app' = take (Z.to_nat (len (context app) - n)) (context app)
  | Ret (Some _) app' w' => app' = app /\ w' = w
  | Hang _ _ | Exit _ _ _ => False
  end.
Proof.
  split.
  - intros Hlen. unfold popCommand. simpl.
    rewrite popFromContext_in_range by lia. eexists. reflexivity.
  - unfold popCommand.
    destruct (parseSingleIntegerFromArguments args 2) as [n [e|]]; [now simpl |].
    destruct (Z_lt_le_dec n 1) as [Hlo|Hlo].
    { destruct (popFromContext_out_of_range app w n) as [e ->]; [lia | now split]. }
    destruct (Z_lt_le_dec (len (context app)) n) as [Hhi|Hhi].
    { destruct (popFromContext_out_of_range app w n) as [e ->]; [lia | now split]. }
    rewrite popFromContext_in_range by lia. exists n. split; [lia | reflexivity].
Qed.

(** X14. [/append] and [/prepend]: either an error is returned and nothing
    has changed, or exactly one message has been added, at the back for
    [/append] and at the front for [/prepend]; its role is the text before
    the first space and is valid, its content the trimmed rest. *)
Theorem append_commands_add_one_valid_message (args : string) (app : App C) (w : World) :
  let m := mkMessage (fst (fst (strings_Cut args " ")))
                     (strings_TrimSpace (snd (fst (strings_Cut args " ")))) in
  match appendCommand args app w with
  | Ret None app' _ => isRoleValid (Role m) = true /\ context app' = context app ++ [m]
  | Ret (Some _) app' w' => app' = app /\ w' = w
  | Hang _ _ | Exit _ _ _ => False
  end
  /\
  match prependCommand args app w with
  | Ret None app' _ => isRoleValid (Role m) = true /\ context app' = m :: context app
  | Ret (Some _) app' w' => app' = app /\ w' = w
  | Hang _ _ | Exit _ _ _ => False
  end.
Proof.
  intros m. subst m.
  unfold appendCommand, prependCommand, parseSingleMessageFromArguments.
  destruct (args =? "")%string; [now split |].
  destruct (strings_Cut args " ") as [[role msg] found]. cbn [fst snd].
  destruct (isRoleValid role) eqn:Hrole; cbn [negb]; [|now split].
  split.
  - destruct (strings_TrimSpace msg =? "")%string;
      unfold bind, ret, PrintWarning, log; rewrite appendToContext_returns; now split.
  - destruct (strings_TrimSpace msg =? "")%string; run; now split.
Qed.

(** X15. [/clear]: without an argument the context becomes empty and the
    mirror, when one is configured and the write is accepted, holds the
    serialized empty context; with an argument the command is refused and
    nothing has changed. *)
Theorem clear_command_empties_or_refuses (args : string) (app : App C) (w : World) :
  (args = "" ->
   exists w' : World,
     clearCommand args app w = Ret None (set_context [] app) w'
     /\ forall data : string,
          autosaveFilePath app <> "" ->
          autosaveFilePath app ∉ denied w ->
          json_MarshalIndent [] = (data, None) ->
          files w' !! autosaveFilePath app = Some data)
  /\ (args <> "" -> clearCommand args app w = Ret (Some ErrExpectNoArguments) app w).
Proof.
  split.
  - intros ->. unfold clearCommand. run.
    rewrite tryUpdateAutosaveFile_returns. eexists. split; [reflexivity |].
    intros data Hpath Hden Hdata.
    destruct (tryUpdateAutosaveFile_mirrors (set_context [] app) w data Hpath Hdata)
      as (_ & Hfile & _).
    now apply Hfile.
  - intros Hargs. unfold clearCommand. apply String.eqb_neq in Hargs. now rewrite Hargs.
Qed.

(** X16. [/autosave]: the command never returns an error and always sets
    the path, also when the write that follows is refused.  With a path the
    system accepts, the file holds the serialized context at once; with the
    empty path the mirror is off: nothing is written, now or by a later
    append. *)
Theorem autosave_command_mirrors_at_once (path : string) (app : App C) (w : World) :
  (exists w' : World,
     autosaveCommand path app w = Ret None (set_autosaveFilePath path app) w')
  /\ (forall data : string,
        path <> "" -> path ∉ denied w ->
        json_MarshalIndent (context app) = (data, None) ->
        files (world_of (autosaveCommand path app w)) !! path = Some data)
  /\ (path = "" ->
      world_of (autosaveCommand path app w) = w
      /\ forall msg : Message,
           world_of (appendToContext msg (set_autosaveFilePath path app) w) = w).
Proof.
  assert (Hrun : autosaveCommand path app w
                 = Ret None (set_autosaveFilePath path app)
                       (world_of (tryUpdateAutosaveFile (set_autosaveFilePath path app) w))).
  { unfold autosaveCommand. run. now rewrite tryUpdateAutosaveFile_returns. }
  split; [eexists; exact Hrun |]. rewrite Hrun. cbn [world_of]. split.
  - intros data Hpath Hden Hdata.
    destruct (tryUpdateAutosaveFile_mirrors (set_autosaveFilePath path app) w data)
      as (_ & Hfile & _); [exact Hpath | exact Hdata |]. now apply Hfile.
  - intros ->. split.
    + now rewrite tryUpdateAutosaveFile_off.
    + intros msg. rewrite appendToContext_returns. cbn [world_of].
      now rewrite tryUpdateAutosaveFile_off.
Qed.

End MoreCommands.

Section MoreLoading.

Context {C : Type} `{CompletionAPI C} `{Json}.

(** What [readContextFileFromArguments] answers: an error and no message, or
    the messages of the document the file holds, all of valid roles.  In both
    cases nothing has changed. *)
Lemma readContextFileFromArguments_outcome (args : string) (app : App C) (w : World) :
  (exists e, readContextFileFromArguments args app w = Ret ([], Some e) app w)
  \/ (exists (msgs : list Message) (data : string),
        args <> "" /\ files w !! args = Some data /\ json_Unmarshal data = (msgs, None)
        /\ valid_roles msgs
        /\ readContextFileFromArguments args app w = Ret (msgs, None) app w).
Proof.
  unfold readContextFileFromArguments.
  destruct (String.eqb_spec args ""); [left; eexists; reflexivity |].
  unfold parseContextFile, os_ReadFile. run.
  destruct (files w !! args) as [data|] eqn:Hfile; [|left; eexists; reflexivity].
  destruct (json_Unmarshal data) as [msgs [e|]] eqn:Hdata; [left; eexists; reflexivity |].
  destruct (parseContextFile_loop args 0 msgs) eqn:Hloop; [left; eexists; reflexivity |].
  right. exists msgs, data. repeat (split; [assumption || reflexivity |]).
  split; [|reflexivity]. now apply (loop_accepts_valid args msgs 0).
Qed.

(** X17. The three commands that load a file are all-or-nothing.  Either
    they return an error and neither the application nor the world has
    changed, or the file holds a document whose messages all have valid
    roles, and these messages replace the context ([/replacefrom]), follow
    it ([/appendfrom]) or precede it ([/prependfrom]); the world is unchanged
    then, too. *)
Theorem load_commands_are_all_or_nothing (path : string) (app : App C) (w : World) :
  let loaded (splice : list Message -> list Message) (r : Res C (option error)) :=
    (exists e, r = Ret (Some e) app w)
    \/ (exists (msgs : list Message) (data : string),
          files w !! path = Some data /\ json_Unmarshal data = (msgs, None)
          /\ valid_roles msgs
          /\ r = Ret None (set_context (splice msgs) app) w) in
  loaded (fun msgs => msgs) (replaceFromCommand path app w)
  /\ loaded (fun msgs => context app ++ msgs) (appendFromCommand path app w)
  /\ loaded (fun msgs => msgs ++ context app) (prependFromCommand path app w).
Proof.
  intros loaded. subst loaded. cbv beta.
  unfold replaceFromCommand, appendFromCommand, prependFromCommand, bind.
  destruct (readContextFileFromArguments_outcome path app w)
    as [[e ->] | (msgs & data & _ & Hfile & Hdata & Hroles & ->)].
  - repeat split; left; eexists; reflexivity.
  - repeat split; right; exists msgs, data; repeat (split; [assumption |]); reflexivity.
Qed.

(** X18. What [/save] has written, the load commands read back.  For a
    context of valid roles whose serialization the codec reads back, and a
    path the system accepts: [/save] returns no error and leaves the
    application as it was; then [/replacefrom] of the same path gives the
    same context again, [/appendfrom] and [/prependfrom] double it. *)
Theorem save_then_load_round_trip (path data : string) (app : App C) (w : World) :
  valid_roles (context app) ->
  path <> "" ->
  path ∉ denied w ->
  json_MarshalIndent (context app) = (data, None) ->
  json_Unmarshal data = (context app, None) ->
  exists w' : World,
    saveCommand path app w = Ret None app w'
    /\ files w' !! path = Some data
    /\ replaceFromCommand path app w' = Ret None app w'
    /\ appendFromCommand path app w'
       = Ret None (set_context (context app ++ context app) app) w'
    /\ prependFromCommand path app w'
       = Ret None (set_context (context app ++ context app) app) w'.
Proof.
  intros Hroles Hpath Hden Hdata Hback.
  assert (Hsave : saveCommand path app w
                  = Ret None app (emit (EvWriteFile path data true)
                                       (set_files (<[path := data]> (files w)) w))).
  { unfold saveCommand. apply String.eqb_neq in Hpath. rewrite Hpath.
    unfold bind, get_app, writeContextFile. rewrite Hdata. unfold os_WriteFile.
    rewrite bool_decide_eq_false_2; [reflexivity |].
    apply String.eqb_neq in Hpath. intros [? | ?]; contradiction. }
  eexists. split; [exact Hsave |].
  assert (Hread : forall a : App C,
             readContextFileFromArguments path a
               (emit (EvWriteFile path data true) (set_files (<[path := data]> (files w)) w))
             = Ret (context app, None) a
                 (emit (EvWriteFile path data true)
                       (set_files (<[path := data]> (files w)) w))).
  { intros a. unfold readContextFileFromArguments.
    apply String.eqb_neq in Hpath. rewrite Hpath.
    unfold parseContextFile, os_ReadFile. run.
    rewrite lookup_insert_eq. rewrite Hback.
    now rewrite (valid_roles_loop path (context app) Hroles). }
  split; [simpl; apply lookup_insert_eq |].
  unfold replaceFromCommand, appendFromCommand, prependFromCommand, bind.
  rewrite !Hread. unfold modify_app, ret. rewrite set_context_same.
  repeat split.
Qed.

(** X20. [/nano] and [/ns] append nothing unless the editor hands back some
    text.  With a role that is not valid the editor is not even launched:
    the error is returned and nothing has changed.  With a valid role, when
    the editor fails or the text it hands back is blank, an error is
    returned, the context is as before, and neither a write nor a request
    has been made.  For [/ns] the role is [user] when none is given. *)
Theorem nano_commands_need_some_text (role : string) (app : App C) (w : World) :
  let role' := if (role =? "")%string then "user" else role in
  let refused := errorString ("invalid role: " +:+ dq +:+ role +:+ dq) in
  let after_editor := emit EvEditor (tick_editor w) in
  (isRoleValid role = false -> nanoCommand role app w = Ret (Some refused) app w)
  /\ (isRoleValid role' = false ->
      nanoSendCommand role app w
      = Ret (Some (errorString ("invalid role: " +:+ dq +:+ role' +:+ dq))) app w)
  /\ (snd (editor w (editor_calls w)) <> None
      \/ strings_TrimSpace (fst (editor w (editor_calls w))) = "" ->
      (isRoleValid role = true ->
       exists e, nanoCommand role app w = Ret (Some e) app after_editor)
      /\ (isRoleValid role' = true ->
          exists e, nanoSendCommand role app w = Ret (Some e) app after_editor)).
Proof.
  intros role' refused after_editor. subst role' refused after_editor.
  split; [|split].
  - intros Hrole. unfold nanoCommand. now rewrite Hrole.
  - intros Hrole. unfold nanoSendCommand. now rewrite Hrole.
  - intros Hblank. split; intros Hrole.
    + unfold nanoCommand. rewrite Hrole. cbn [negb].
      unfold bind at 1. unfold presentTextEditor.
      destruct (editor w (editor_calls w)) as [content [e|]]; [eexists; reflexivity |].
      destruct Hblank as [Hfail | Hblank]; [now contradiction Hfail |].
      cbn [fst] in Hblank. rewrite Hblank. eexists; reflexivity.
    + unfold nanoSendCommand. rewrite Hrole. cbn [negb].
      unfold bind at 1. unfold presentTextEditor.
      destruct (editor w (editor_calls w)) as [content [e|]]; [eexists; reflexivity |].
      destruct Hblank as [Hfail | Hblank]; [now contradiction Hfail |].
      cbn [fst] in Hblank. rewrite Hblank. eexists; reflexivity.
Qed.

(** X21. [/exit] ends the program only with a status it could read: with
    no argument the status is 0, with an argument the 32-bit integer it
    spells; an argument that spells none is answered with an error, and the
    program goes on with nothing changed.  The command never returns
    without an error. *)
Theorem exit_command_exits_with_the_given_status (code : string) (app : App C) (w : World) :
  match exitCommand code app w with
  | Exit n app' w' =>
      app' = app /\ w' = w /\ (code = "" -> n = 0)
      /\ (code <> "" -> strconv_ParseInt code 32 = (n, None) /\ - 2 ^ 31 <= n <= 2 ^ 31 - 1)
  | Ret (Some _) app' w' => app' = app /\ w' = w /\ snd (strconv_ParseInt code 32) <> None
  | Ret None _ _ | Hang _ _ => False
  end.
Proof.
  unfold exitCommand, parseSingleIntegerFromArguments.
  destruct (String.eqb_spec code "") as [-> | Hcode].
  - unfold os_Exit. split; [reflexivity |]. split; [reflexivity |].
    split; [reflexivity | intros Hcode; now contradiction Hcode].
  - destruct (strconv_ParseInt code 32) as [n [e|]] eqn:Hparse.
    + now repeat split.
    + unfold os_Exit. split; [reflexivity |]. split; [reflexivity |].
      split; [intros ->; now contradiction Hcode |].
      intros _. split; [reflexivity | exact (ParseInt_range code n Hparse)].
Qed.

End MoreLoading.

Section Quiet.

Context {C : Type} `{CompletionAPI C} `{Json}.

(** X22. [/print] shows the context and does nothing else: it returns no
    error, the application is as before, no file has changed, and the events
    it has added to the trace are, in this order: a warning on the printer
    when an argument was given; the colour sequence that
    [color.Set(color.Bold, color.FgWhite)] writes to the standard output,
    when colours are on; and for each message of the context, in order, two
    calls of the printer, one with the header line (the brackets in cyan, the
    role in bold white, as the colour package of the run makes them) and one
    with the content followed by an empty line. *)
Theorem print_command_only_prints (args : string) (app : App C) (w : World) :
  let color := colors w in
  let warning :=
    if (args =? "")%string then []
    else [EvPrintWarning ("this command takes no arguments. Printing context anyways" +:+ nl)] in
  let switch :=
    match color_BoldFgWhite_Set color with
    | Some sequence => [EvStdout sequence]
    | None => []
    end in
  let shown :=
    flat_map (fun msg => [EvPrint (color_CyanString color "["
                                     +:+ color_BoldFgWhite_Sprintf color (Role msg)
                                     +:+ color_CyanString color "]" +:+ nl);
                          EvPrint (Content msg +:+ nl +:+ nl)]) (context app) in
  exists w' : World,
    printCommand args app w = Ret None app w'
    /\ trace w' = trace w ++ warning ++ switch ++ shown
    /\ files w' = files w.
Proof.
  intros color warning switch shown. unfold printCommand.
  set (body := fun msg : Message =>
                 let* _ := Print (color_CyanString color "["
                                    +:+ color_BoldFgWhite_Sprintf color (Role msg)
                                    +:+ color_CyanString color "]" +:+ nl) in
                 Print (C := C) (Content msg +:+ nl +:+ nl)).
  assert (Hloop : forall (ctx : list Message) (w0 : World),
             exists w1,
               for_each ctx body app w0 = Ret tt app w1
               /\ trace w1
                  = trace w0
                    ++ flat_map (fun msg =>
                                   [EvPrint (color_CyanString color "["
                                               +:+ color_BoldFgWhite_Sprintf color (Role msg)
                                               +:+ color_CyanString color "]" +:+ nl);
                                    EvPrint (Content msg +:+ nl +:+ nl)]) ctx
               /\ files w1 = files w0).
  { induction ctx as [|m ctx IH]; intros w0; cbn [for_each flat_map].
    - exists w0. now rewrite app_nil_r.
    - unfold bind at 1.
      change (body m app w0)
        with (Ret tt app
                  (emit (EvPrint (Content m +:+ nl +:+ nl))
                        (emit (EvPrint (color_CyanString color "["
                                          +:+ color_BoldFgWhite_Sprintf color (Role m)
                                          +:+ color_CyanString color "]" +:+ nl)) w0))).
      destruct (IH (emit (EvPrint (Content m +:+ nl +:+ nl))
                         (emit (EvPrint (color_CyanString color "["
                                           +:+ color_BoldFgWhite_Sprintf color (Role m)
                                           +:+ color_CyanString color "]" +:+ nl)) w0)))
        as (w1 & -> & Htrace & Hfiles).
      exists w1. split; [reflexivity |]. rewrite Htrace, Hfiles. cbn [emit trace files].
      now rewrite <- !app_assoc. }
  assert (Hwarn : exists w0 : World,
             (if negb (args =? "")%string
              then PrintWarning
                     ("this command takes no arguments. Printing context anyways" +:+ nl)
              else ret tt) app w = Ret tt app w0
             /\ trace w0 = trace w ++ warning /\ files w0 = files w /\ colors w0 = color).
  { subst warning. destruct (args =? "")%string; cbn [negb].
    - exists w. unfold ret. now rewrite app_nil_r.
    - eexists. unfold PrintWarning, log. split; [reflexivity |]. now split. }
  destruct Hwarn as (w0 & Hrun0 & Htrace0 & Hfiles0 & Hcolors0).
  unfold bind at 1. rewrite Hrun0.
  assert (Hset : exists w2 : World,
             color_Set_BoldFgWhite app w0 = Ret tt app w2
             /\ trace w2 = trace w0 ++ switch /\ files w2 = files w0 /\ colors w2 = color).
  { subst switch. unfold color_Set_BoldFgWhite. rewrite Hcolors0.
    destruct (color_BoldFgWhite_Set color) as [sequence|].
    - eexists. split; [reflexivity |]. now split.
    - exists w0. split; [reflexivity |]. now rewrite app_nil_r. }
  destruct Hset as (w2 & Hrun2 & Htrace2 & Hfiles2 & Hcolors2).
  unfold bind at 1. rewrite Hrun2.
  unfold bind at 1. unfold get_colors. rewrite Hcolors2.
  unfold bind at 1. unfold get_app. unfold bind at 1. fold body.
  destruct (Hloop (context app) w2) as (w1 & Hrun & Htrace & Hfiles).
  rewrite Hrun. exists w1. split; [reflexivity |].
  rewrite Htrace, Htrace2, Htrace0, Hfiles, Hfiles2, Hfiles0.
  split; [now rewrite <- !app_assoc | reflexivity].
Qed.

End Quiet.

Section Wrapping.

Lemma slen_app (a b : string) : slen (a +:+ b) = slen a + slen b.
Proof.
  unfold slen. induction a as [|ch a IH]; [reflexivity |].
  change (Z.of_nat (S (String.length (a +:+ b))) = Z.of_nat (S (String.length a)) + Z.of_nat (String.length b)).
  lia.
Qed.

Lemma slen_zero (s : string) : slen s = 0 -> s = "".
Proof. destruct s; [reflexivity | unfold slen; simpl; lia]. Qed.

Lemma slen_nonneg (s : string) : 0 <= slen s.
Proof. unfold slen. lia. Qed.

(** [strings.Fields] yields no empty word. *)
Lemma flush_word_nonempty (cur : list ascii) : Forall (fun w => w <> "") (flush_word cur).
Proof.
  destruct cur as [|c cur]; [constructor |].
  constructor; [discriminate | constructor].
Qed.

Lemma Fields_loop_nonempty (fuel : nat) :
  forall l cur, Forall (fun w => w <> "") (Fields_loop fuel l cur).
Proof.
  induction fuel as [|fuel IH]; intros l cur; cbn [Fields_loop]; [apply flush_word_nonempty |].
  destruct l as [|c l]; [apply flush_word_nonempty |].
  destruct (strip_any unicode_spaces (c :: l)) as [rest|].
  - apply Forall_app. split; [apply flush_word_nonempty | apply IH].
  - apply IH.
Qed.

Lemma strings_Fields_nonempty (s : string) : Forall (fun w => w <> "") (strings_Fields s).
Proof. apply Fields_loop_nonempty. Qed.

Lemma concat_snoc (sep w : string) (g : list string) :
  g <> [] -> String.concat sep (g ++ [w]) = String.concat sep g +:+ sep +:+ w.
Proof.
  induction g as [|a g IH]; intros Hg; [contradiction |].
  destruct g as [|b g]; [reflexivity |].
  change (a +:+ sep +:+ String.concat sep ((b :: g) ++ [w])
          = (a +:+ sep +:+ String.concat sep (b :: g)) +:+ sep +:+ w).
  rewrite IH by discriminate. now rewrite !string_app_assoc.
Qed.

Lemma concat_empty (sep : string) (g : list string) :
  Forall (fun w => w <> "") g -> String.concat sep g = "" -> g = [].
Proof.
  destruct g as [|a g]; [reflexivity |]. intros Hg Hnil. exfalso.
  apply Forall_cons in Hg as [Ha _]. destruct a as [|ch a]; [now apply Ha |].
  destruct g; discriminate Hnil.
Qed.

(** What the loop of [textWrap] maintains: the finished lines and the
    current line are the words read so far, cut into consecutive groups and
    joined with one space. *)
Lemma textWrap_fold_groups (maxLineLen : Z) (words : list string) :
  Forall (fun w => w <> "") words ->
  forall (groups : list (list string)) (g : list string),
    Forall (fun w => w <> "") g ->
    exists (groups' : list (list string)) (g' : list string),
      fold_left (textWrap_step maxLineLen) words
                (map (fun g => strings_Join g " ") groups, strings_Join g " ")
      = (map (fun g => strings_Join g " ") groups', strings_Join g' " ")
      /\ Forall (fun w => w <> "") g'
      /\ concat groups' ++ g' = (concat groups ++ g) ++ words.
Proof.
  induction 1 as [|word words Hword _ IH]; intros groups g Hg.
  - exists groups, g. simpl. now rewrite app_nil_r.
  - cbn [fold_left]. unfold textWrap_step at 2.
    destruct (maxLineLen <? slen (strings_Join g " ") + slen word + 1).
    + destruct (IH (groups ++ [g]) [word]) as (groups' & g' & Hfold & Hg' & Hcat).
      { constructor; [assumption | constructor]. }
      exists groups', g'. rewrite map_app in Hfold. split; [exact Hfold |].
      split; [exact Hg' |]. rewrite Hcat, concat_app. simpl.
      now rewrite app_nil_r, <- !app_assoc.
    + destruct (Z.eqb_spec (slen (strings_Join g " ")) 0) as [Hz | Hnz]; cbn [negb].
      * assert (Hempty : g = []).
        { apply (concat_empty " "); [assumption | now apply slen_zero]. }
        subst g. destruct (IH groups [word]) as (groups' & g' & Hfold & Hg' & Hcat).
        { constructor; [assumption | constructor]. }
        exists groups', g'. split; [exact Hfold |]. split; [exact Hg' |].
        rewrite Hcat. now rewrite app_nil_r, <- !app_assoc.
      * assert (Hg0 : g <> []) by (intros ->; now apply Hnz).
        destruct (IH groups (g ++ [word])) as (groups' & g' & Hfold & Hg' & Hcat).
        { apply Forall_app. split; [assumption | constructor; [assumption | constructor]]. }
        exists groups', g'. split.
        { rewrite <- Hfold. unfold strings_Join. now rewrite (concat_snoc " " word g Hg0). }
        split; [exact Hg' |]. rewrite Hcat. now rewrite <- !app_assoc.
Qed.

(** X23. [textWrap] loses no word and keeps their order: its lines are the
    words of the text ([strings.Fields]), cut into consecutive groups, each
    group joined with single spaces.  (A group can be empty: the line is
    empty then.) *)
Theorem textWrap_keeps_the_words (text : string) (maxLineLen : Z) :
  exists groups : list (list string),
    concat groups = strings_Fields text
    /\ textWrap text maxLineLen = map (fun g => strings_Join g " ") groups.
Proof.
  unfold textWrap.
  destruct (textWrap_fold_groups maxLineLen (strings_Fields text)
              (strings_Fields_nonempty text) [] [])
    as (groups & g & Hfold & Hg & Hcat); [constructor |].
  change (map (fun g => strings_Join g " ") [], strings_Join [] " ") with
    (@nil string, "") in Hfold.
  rewrite Hfold. simpl in Hcat.
  destruct (Z.eqb_spec (slen (strings_Join g " ")) 0) as [Hz | Hnz]; cbn [negb].
  - assert (Hempty : g = []).
    { apply (concat_empty " "); [assumption | now apply slen_zero]. }
    subst g. exists groups. rewrite app_nil_r in Hcat. now split.
  - exists (groups ++ [g]). split.
    + rewrite concat_app. simpl. now rewrite app_nil_r.
    + now rewrite map_app.
Qed.

(** The loop keeps every line within the limit as long as every word is. *)
Lemma textWrap_fold_fits (maxLineLen : Z) (words : list string) :
  Forall (fun w => slen w <= maxLineLen) words ->
  forall (lines : list string) (currentLine : string),
    Forall (fun l => slen l <= maxLineLen) lines ->
    slen currentLine <= maxLineLen ->
    let st := fold_left (textWrap_step maxLineLen) words (lines, currentLine) in
    Forall (fun l => slen l <= maxLineLen) (fst st) /\ slen (snd st) <= maxLineLen.
Proof.
  induction 1 as [|word words Hword _ IH]; intros lines currentLine Hlines Hcur.
  - now split.
  - cbv zeta. cbn [fold_left].
    assert (Hstep : exists l c,
               textWrap_step maxLineLen (lines, currentLine) word = (l, c)
               /\ Forall (fun l => slen l <= maxLineLen) l /\ slen c <= maxLineLen).
    { unfold textWrap_step.
      destruct (Z.ltb_spec maxLineLen (slen currentLine + slen word + 1)).
      - eexists _, _. split; [reflexivity |]. split; [|assumption].
        apply Forall_app. split; [assumption | constructor; [assumption | constructor]].
      - destruct (Z.eqb_spec (slen currentLine) 0); cbn [negb];
          (eexists _, _; split; [reflexivity |]; split; [assumption |]).
        + rewrite slen_app. lia.
        + rewrite !slen_app. change (slen " ") with 1. lia. }
    destruct Hstep as (l & c & -> & Hl & Hc). now apply IH.
Qed.

(** X24. When no word of the text is longer than [maxLineLen], no line of
    [textWrap] is. *)
Theorem textWrap_lines_fit (text : string) (maxLineLen : Z) :
  (forall word, In word (strings_Fields text) -> slen word <= maxLineLen) ->
  forall line, In line (textWrap text maxLineLen) -> slen line <= maxLineLen.
Proof.
  intros Hwords line Hline. unfold textWrap in Hline.
  assert (Hmax : strings_Fields text = [] \/ 0 <= maxLineLen).
  { destruct (strings_Fields text) as [|word ws]; [now left | right].
    specialize (Hwords word (or_introl eq_refl)). pose proof (slen_nonneg word). lia. }
  destruct Hmax as [Hnone | Hmax].
  { rewrite Hnone in Hline. simpl in Hline. contradiction. }
  destruct (textWrap_fold_fits maxLineLen (strings_Fields text)) with (lines := @nil string)
    (currentLine := "") as [Hlines Hcur].
  { apply Forall_forall. intros w Hw. apply Hwords. now apply list_elem_of_In. }
  { constructor. }
  { exact Hmax. }
  destruct (fold_left (textWrap_step maxLineLen) (strings_Fields text) ([], ""))
    as [lines currentLine].
  cbn [fst snd] in Hlines, Hcur.
  rewrite Forall_forall in Hlines.
  destruct (negb (slen currentLine =? 0)).
  - apply in_app_or in Hline as [Hin | [<- | []]]; [|exact Hcur].
    apply Hlines. now apply list_elem_of_In.
  - apply Hlines. now apply list_elem_of_In.
Qed.

(** The loop only ever adds lines at the end. *)
Lemma textWrap_fold_extends (maxLineLen : Z) (words : list string) :
  forall (lines : list string) (currentLine : string),
    exists more, fst (fold_left (textWrap_step maxLineLen) words (lines, currentLine))
                 = lines ++ more.
Proof.
  induction words as [|word words IH]; intros lines currentLine.
  - exists []. simpl. now rewrite app_nil_r.
  - cbn [fold_left]. unfold textWrap_step at 2.
    destruct (maxLineLen <? slen currentLine + slen word + 1).
    + destruct (IH (lines ++ [currentLine]) word) as [more ->].
      exists (currentLine :: more). now rewrite <- app_assoc.
    + destruct (negb (slen currentLine =? 0)); apply IH.
Qed.

(** Once the current line is not empty, it never is again. *)
Lemma textWrap_fold_current_nonempty (maxLineLen : Z) (words : list string) :
  Forall (fun w => w <> "") words ->
  forall (lines : list string) (currentLine : string),
    currentLine <> "" ->
    snd (fold_left (textWrap_step maxLineLen) words (lines, currentLine)) <> "".
Proof.
  induction 1 as [|word words Hword _ IH]; intros lines currentLine Hcur; [exact Hcur |].
  cbn [fold_left]. unfold textWrap_step at 2.
  destruct (maxLineLen <? slen currentLine + slen word + 1); [now apply IH |].
  destruct (negb (slen currentLine =? 0)); apply IH;
    destruct currentLine; (contradiction || discriminate).
Qed.

(** X25. A text whose first word has [maxLineLen] bytes or more is wrapped
    with an empty first line, followed by at least one more line: the test
    that closes the current line does not look whether there is one. *)
Theorem textWrap_long_first_word_leaves_empty_line (text word : string)
    (rest : list string) (maxLineLen : Z) :
  strings_Fields text = word :: rest ->
  maxLineLen <= slen word ->
  exists lines, textWrap text maxLineLen = "" :: lines /\ lines <> [].
Proof.
  intros Hfields Hlong. unfold textWrap. rewrite Hfields. cbn [fold_left].
  unfold textWrap_step at 2. change (slen "") with 0.
  destruct (Z.ltb_spec maxLineLen (0 + slen word + 1)); [|lia].
  pose proof (strings_Fields_nonempty text) as Hne. rewrite Hfields in Hne.
  apply Forall_cons in Hne as [Hword Hrest].
  destruct (textWrap_fold_extends maxLineLen rest ([] ++ [""]) word) as [more Hmore].
  pose proof (textWrap_fold_current_nonempty maxLineLen rest Hrest ([] ++ [""]) word Hword)
    as Hcur.
  destruct (fold_left (textWrap_step maxLineLen) rest ([] ++ [""], word))
    as [lines currentLine].
  cbn [fst snd] in Hmore, Hcur. subst lines.
  destruct (Z.eqb_spec (slen currentLine) 0) as [Hz | Hnz]; cbn [negb].
  - now apply slen_zero in Hz.
  - exists (more ++ [currentLine]). split; [reflexivity |]. now destruct more.
Qed.

End Wrapping.

Section PlainTextFacts.

(** *** White space *)

Lemma strip_prefix_length (p l rest : list ascii) :
  strip_prefix p l = Some rest -> length l = (length p + length rest)%nat.
Proof.
  revert l. induction p as [|a p IH]; intros l Hstrip; simpl in Hstrip.
  - now injection Hstrip as ->.
  - destruct l as [|b l]; [discriminate |].
    destruct (Ascii.eqb a b); [|discriminate]. simpl. now rewrite (IH l Hstrip).
Qed.

Lemma strip_any_shorter (ps : list (list ascii)) (l rest : list ascii) :
  Forall (fun p => p <> []) ps -> strip_any ps l = Some rest -> (length rest < length l)%nat.
Proof.
  induction 1 as [|p ps Hp _ IH]; simpl; [discriminate |].
  destruct (strip_prefix p l) as [rest'|] eqn:Hstrip; [|exact IH].
  intros [= ->]. apply strip_prefix_length in Hstrip.
  destruct p; [contradiction | simpl in Hstrip; lia].
Qed.

Lemma trim_left_length (ps : list (list ascii)) (fuel : nat) :
  Forall (fun p => p <> []) ps ->
  forall l, (length (trim_left ps fuel l) <= length l)%nat.
Proof.
  intros Hps. induction fuel as [|fuel IH]; intros l; simpl; [lia |].
  destruct (strip_any ps l) as [rest|] eqn:Hstrip; [|lia].
  specialize (IH rest). apply (strip_any_shorter ps l rest Hps) in Hstrip. lia.
Qed.

Lemma trim_left_fixed (ps : list (list ascii)) (fuel : nat) (l : list ascii) :
  Forall (fun p => p <> []) ps ->
  fuel <> 0%nat ->
  length (trim_left ps fuel l) = length l ->
  strip_any ps l = None.
Proof.
  intros Hps Hfuel Hlen. destruct fuel as [|fuel]; [contradiction |].
  simpl in Hlen. destruct (strip_any ps l) as [rest|] eqn:Hstrip; [|reflexivity].
  pose proof (trim_left_length ps fuel Hps rest).
  apply (strip_any_shorter ps l rest Hps) in Hstrip. lia.
Qed.

Lemma trim_left_none (ps : list (list ascii)) (fuel : nat) (l : list ascii) :
  strip_any ps l = None -> trim_left ps fuel l = l.
Proof. intros Hnone. destruct fuel; simpl; [reflexivity | now rewrite Hnone]. Qed.

Lemma unicode_spaces_nonempty : Forall (fun p : list ascii => p <> []) unicode_spaces.
Proof. repeat (constructor; [discriminate |]). constructor. Qed.

Lemma unicode_spaces_rev_nonempty :
  Forall (fun p : list ascii => p <> []) (map (@rev ascii) unicode_spaces).
Proof. repeat (constructor; [discriminate |]). constructor. Qed.

(** A text [strings.TrimSpace] leaves as it is has no white space at either
    end. *)
Lemma trimmed_ends (s : string) :
  s <> "" -> strings_TrimSpace s = s ->
  strip_any unicode_spaces (list_ascii_of_string s) = None
  /\ strip_any (map (@rev ascii) unicode_spaces) (rev (list_ascii_of_string s)) = None.
Proof.
  intros Hs Htrim. unfold strings_TrimSpace in Htrim.
  set (l := list_ascii_of_string s) in *.
  assert (Hl : length l <> 0%nat).
  { subst l. destruct s; [contradiction | discriminate]. }
  remember (trim_left unicode_spaces (length l) l) as l1 eqn:El1.
  remember (trim_left (map (@rev ascii) unicode_spaces) (length l1) (rev l1)) as r eqn:Er.
  cbv zeta in Htrim.
  apply (f_equal list_ascii_of_string) in Htrim.
  rewrite list_ascii_of_string_of_list_ascii in Htrim. fold l in Htrim.
  assert (H1 : (length l1 <= length l)%nat)
    by (rewrite El1; apply (trim_left_length _ _ unicode_spaces_nonempty)).
  assert (H2 : (length r <= length (rev l1))%nat)
    by (rewrite Er; apply (trim_left_length _ _ unicode_spaces_rev_nonempty)).
  assert (H3 : length r = length l) by (rewrite <- Htrim; now rewrite length_rev).
  rewrite length_rev in H2.
  assert (Hleft : strip_any unicode_spaces l = None).
  { apply (trim_left_fixed _ (length l) _ unicode_spaces_nonempty Hl).
    rewrite <- El1. lia. }
  split; [exact Hleft |].
  assert (E : l1 = l) by (rewrite El1; now apply trim_left_none).
  rewrite E in Er.
  apply (trim_left_fixed _ (length l) _ unicode_spaces_rev_nonempty Hl).
  rewrite <- Er. rewrite length_rev. lia.
Qed.

(** A newline after a text that does not begin with white space does not
    make it begin with some: no white space character ends in the newline
    byte, apart from the newline itself. *)
Lemma strip_prefix_newline (p l : list ascii) :
  l <> [] -> List.last p "000"%char <> "010"%char \/ length p = 1%nat ->
  strip_prefix p l = None -> strip_prefix p (l ++ ["010"%char]) = None.
Proof.
  revert l. induction p as [|a p IH]; intros l Hl Hp Hstrip; [discriminate |].
  destruct l as [|b l]; [contradiction |]. simpl in *.
  destruct (Ascii.eqb a b); [|reflexivity].
  destruct p as [|a' p]; [discriminate |].
  destruct Hp as [Hp | Hp]; [|discriminate].
  destruct l as [|b' l].
  - simpl. destruct (Ascii.eqb_spec a' "010"%char) as [-> | _]; [|reflexivity].
    destruct p as [|a'' p]; [now contradiction Hp | reflexivity].
  - apply IH; [discriminate | now left | exact Hstrip].
Qed.

Lemma strip_any_newline (ps : list (list ascii)) (l : list ascii) :
  l <> [] ->
  Forall (fun p => List.last p "000"%char <> "010"%char \/ length p = 1%nat) ps ->
  strip_any ps l = None -> strip_any ps (l ++ ["010"%char]) = None.
Proof.
  intros Hl. induction 1 as [|p ps Hp _ IH]; simpl; [reflexivity |].
  destruct (strip_prefix p l) eqn:Hstrip; [discriminate |].
  intros Hrest. rewrite (strip_prefix_newline p l Hl Hp Hstrip). now apply IH.
Qed.

Lemma unicode_spaces_newline :
  Forall (fun p => List.last p "000"%char <> "010"%char \/ length p = 1%nat) unicode_spaces.
Proof.
  repeat (constructor; [first [now right | left; discriminate] |]). constructor.
Qed.

Lemma list_ascii_app (a b : string) :
  list_ascii_of_string (a +:+ b) = list_ascii_of_string a ++ list_ascii_of_string b.
Proof.
  induction a as [|ch a IH]; [reflexivity |].
  change (ch :: list_ascii_of_string (a +:+ b)
          = ch :: (list_ascii_of_string a ++ list_ascii_of_string b)).
  now rewrite IH.
Qed.

(** The content buffer of a one-line message, trimmed, is the line. *)
Lemma TrimSpace_line_newline (s : string) :
  s <> "" -> strings_TrimSpace s = s -> strings_TrimSpace (s +:+ nl) = s.
Proof.
  intros Hs Htrim. destruct (trimmed_ends s Hs Htrim) as [Hleft Hright].
  unfold strings_TrimSpace. rewrite list_ascii_app.
  change (list_ascii_of_string nl) with ["010"%char].
  set (l := list_ascii_of_string s) in *.
  assert (Hl : l <> []) by (subst l; destruct s; [contradiction | discriminate]).
  rewrite (trim_left_none unicode_spaces _ (l ++ ["010"%char]))
    by (apply strip_any_newline; [exact Hl | exact unicode_spaces_newline | exact Hleft]).
  rewrite rev_app_distr. rewrite length_app. rewrite Nat.add_comm.
  change (length ["010"%char] + length l)%nat with (S (length l)).
  change (rev ["010"%char] ++ rev l) with ("010"%char :: rev l).
  cbn [trim_left].
  change (strip_any (map (@rev ascii) unicode_spaces) ("010"%char :: rev l))
    with (Some (rev l)).
  cbv iota beta.
  rewrite (trim_left_none _ _ (rev l) Hright). rewrite rev_involutive.
  subst l. apply string_of_list_ascii_of_string.
Qed.

(** *** Lines *)

Lemma Split_loop_line (s rest : list ascii) :
  forallb (fun c => negb (Ascii.eqb c "010")) s = true ->
  forall fuel, (length (s ++ "010"%char :: rest) <= fuel)%nat ->
    Split_loop ["010"%char] fuel (s ++ "010"%char :: rest)
    = s :: Split_loop ["010"%char] (fuel - S (length s)) rest.
Proof.
  induction s as [|c s IH]; intros Hline fuel Hfuel.
  - destruct fuel as [|fuel]; [simpl in Hfuel; lia |].
    simpl. now rewrite Nat.sub_0_r.
  - simpl in Hline. apply andb_prop in Hline as [Hc Hline].
    destruct fuel as [|fuel]; [simpl in Hfuel; lia |].
    change ((c :: s) ++ "010"%char :: rest) with (c :: (s ++ "010"%char :: rest)).
    cbn [Split_loop strip_prefix].
    rewrite Ascii.eqb_sym. apply negb_true_iff in Hc. rewrite Hc.
    rewrite (IH Hline fuel) by (simpl in Hfuel; lia). reflexivity.
Qed.

Lemma Split_loop_blank (rest : list ascii) (fuel : nat) :
  (S (length rest) <= fuel)%nat ->
  Split_loop ["010"%char] fuel ("010"%char :: rest)
  = [] :: Split_loop ["010"%char] (fuel - 1) rest.
Proof. intros Hfuel. exact (Split_loop_line [] rest eq_refl fuel Hfuel). Qed.

Lemma Split_loop_end (fuel : nat) : Split_loop ["010"%char] fuel [] = [[]].
Proof. now destruct fuel. Qed.

Lemma render_loop (ctx : list Message) (acc : string) :
  fold_left (fun result msg =>
               (result +:+ ("[" +:+ Role msg +:+ "]" +:+ nl)) +:+ (Content msg +:+ nl +:+ nl))
            ctx acc
  = acc +:+ uncoloured ctx.
Proof.
  revert acc. unfold uncoloured, plainTextRepresentation.
  induction ctx as [|m ctx IH]; intros acc; cbn [fold_left].
  - now rewrite string_app_nil_r.
  - rewrite IH. rewrite (IH (_ +:+ _)). now rewrite !string_app_assoc.
Qed.

Lemma render_cons (m : Message) (ctx : list Message) :
  uncoloured (m :: ctx)
  = ("[" +:+ Role m +:+ "]") +:+ nl +:+ Content m +:+ nl +:+ nl +:+ uncoloured ctx.
Proof.
  unfold uncoloured at 1. unfold plainTextRepresentation. cbn [fold_left].
  rewrite render_loop. now rewrite !string_app_assoc.
Qed.

Lemma valid_role_cases (role : string) :
  isRoleValid role = true -> role = "user" \/ role = "assistant" \/ role = "system".
Proof.
  unfold isRoleValid. intros Hrole.
  apply orb_prop in Hrole as [Hrole | Hrole];
    [apply orb_prop in Hrole as [Hrole | Hrole] |];
    apply String.eqb_eq in Hrole; auto.
Qed.

Lemma single_line_app (a b : string) :
  single_line (a +:+ b) = single_line a && single_line b.
Proof. unfold single_line. rewrite list_ascii_app. apply forallb_app. Qed.

(** The lines of a rendered context: three for each message, and the empty
    piece after the last newline. *)
Lemma Split_render (ctx : list Message) :
  Forall (fun m => isRoleValid (Role m) = true /\ single_line (Content m) = true) ctx ->
  strings_Split (uncoloured ctx) nl = flat_map rendered_lines ctx ++ [""].
Proof.
  intros Hctx. unfold strings_Split.
  change (list_ascii_of_string nl) with ["010"%char].
  generalize (Nat.le_refl (length (list_ascii_of_string (uncoloured ctx)))).
  generalize (length (list_ascii_of_string (uncoloured ctx))) at 2 3. intros fuel.
  revert fuel. induction Hctx as [|m ctx [Hrole Hline] _ IH]; intros fuel Hfuel.
  - change (uncoloured []) with "". now destruct fuel.
  - assert (Hhead : forallb (fun c => negb (Ascii.eqb c "010"))
                      (list_ascii_of_string ("[" +:+ Role m +:+ "]")) = true).
    { destruct (valid_role_cases _ Hrole) as [-> | [-> | ->]]; reflexivity. }
    rewrite render_cons in *.
    set (hdr := "[" +:+ Role m +:+ "]") in *.
    rewrite !list_ascii_app in *.
    change (list_ascii_of_string nl) with ["010"%char] in *.
    cbn [Datatypes.app] in *.
    rewrite (Split_loop_line _ _ Hhead) by exact Hfuel.
    repeat first [rewrite length_app in Hfuel | progress cbn [length] in Hfuel].
    rewrite (Split_loop_line _ _ Hline)
      by (repeat first [rewrite length_app | progress cbn [length]]; lia).
    rewrite Split_loop_blank
      by (repeat first [rewrite length_app | progress cbn [length]]; lia).
    cbn [map flat_map rendered_lines Datatypes.app].
    rewrite !string_of_list_ascii_of_string.
    f_equal. f_equal. f_equal. apply IH. cbn [length]. lia.
Qed.

(** *** The reader *)

Lemma header_line (role : string) :
  isRoleValid role = true ->
  strings_TrimSpace ("[" +:+ role +:+ "]") = "[" +:+ role +:+ "]"
  /\ reads_as_header ("[" +:+ role +:+ "]") = true
  /\ String.substring 1 (String.length ("[" +:+ role +:+ "]") - 2) ("[" +:+ role +:+ "]") = role
  /\ (role =? "")%string = false.
Proof.
  intros Hrole. destruct (valid_role_cases _ Hrole) as [-> | [-> | ->]];
    repeat split; vm_compute; reflexivity.
Qed.

(** One more message read: the one before it is closed, the new one is
    pending. *)
Lemma parsePlain_message (m : Message) (rest : list string) (acc : list Message)
    (content role : string) :
  isRoleValid (Role m) = true -> plain_line (Content m) ->
  parsePlain_loop (rendered_lines m ++ rest) acc content role
  = parsePlain_loop rest
      (if negb (role =? "")%string then close_message acc role content else acc)
      (Content m +:+ nl) (Role m).
Proof.
  intros Hrole (Hne & Htrim & _ & Hhead).
  destruct (header_line _ Hrole) as (Ht & Hh & Hsub & Hr).
  unfold rendered_lines. cbn [Datatypes.app parsePlain_loop].
  rewrite Ht. unfold reads_as_header in Hh. rewrite Hh. rewrite Hsub, Hrole. cbn [negb].
  rewrite Htrim. unfold reads_as_header in Hhead. rewrite Hhead. rewrite Hr. cbn [negb andb].
  assert (Hlen : (0 <? slen (Content m)) = true).
  { destruct (Content m); [contradiction | reflexivity]. }
  rewrite Hlen.
  change (strings_TrimSpace "") with "". cbn.
  reflexivity.
Qed.

Lemma last_cons_default {A} (l : list A) :
  forall a d, List.last (a :: l) d = List.last l a.
Proof.
  induction l as [|b l IH]; intros a d; [reflexivity |].
  change (List.last (a :: b :: l) d) with (List.last (b :: l) d). now rewrite !IH.
Qed.

Lemma parsePlain_messages (msgs : list Message) :
  plain_messages msgs ->
  forall (m : Message) (rest : list string) (acc : list Message),
    isRoleValid (Role m) = true -> plain_line (Content m) ->
    parsePlain_loop (flat_map rendered_lines msgs ++ rest) acc (Content m +:+ nl) (Role m)
    = parsePlain_loop rest (acc ++ removelast (m :: msgs))
        (Content (List.last msgs m) +:+ nl) (Role (List.last msgs m)).
Proof.
  induction 1 as [|m' msgs [Hrole' Hline'] _ IH]; intros m rest acc Hrole Hline.
  - simpl. now rewrite app_nil_r.
  - cbn [flat_map]. rewrite <- app_assoc.
    rewrite (parsePlain_message m' _ _ _ _ Hrole' Hline').
    destruct (header_line _ Hrole) as (_ & _ & _ & ->). cbn [negb].
    rewrite (IH m' rest _ Hrole' Hline').
    unfold close_message. destruct Hline as (Hne & Htrim & _).
    rewrite (TrimSpace_line_newline _ Hne Htrim).
    replace (mkMessage (Role m) (Content m)) with m by now destruct m.
    rewrite (last_cons_default msgs m' m).
    change (removelast (m :: m' :: msgs)) with (m :: removelast (m' :: msgs)).
    now rewrite <- app_assoc.
Qed.

(** After the last message: a header followed by nothing but blank lines
    closes the message before it and adds none. *)
Lemma parsePlain_empty_message (role : string) (acc : list Message) (content r : string) :
  isRoleValid role = true ->
  parsePlain_loop (rendered_lines (mkMessage role "") ++ [""]) acc content r
  = (if negb (r =? "")%string then close_message acc r content else acc, None).
Proof.
  intros Hrole. destruct (header_line _ Hrole) as (Ht & Hh & Hsub & Hr).
  unfold rendered_lines. cbn [Datatypes.app parsePlain_loop Role Content].
  rewrite Ht. unfold reads_as_header in Hh. rewrite Hh. rewrite Hsub, Hrole. cbn [negb].
  change (strings_TrimSpace "") with "". rewrite Hr. reflexivity.
Qed.

Lemma parsePlain_end (acc : list Message) (m : Message) :
  plain_line (Content m) ->
  parsePlain_loop [""] acc (Content m +:+ nl) (Role m) = (acc ++ [m], None).
Proof.
  intros (Hne & Htrim & _). cbn [parsePlain_loop].
  change (strings_TrimSpace "") with "".
  change (slen "") with 0. change (3 <=? 0) with false. change (0 <? 0) with false.
  cbn [andb]. rewrite andb_false_r.
  change (negb ("" =? "")%string) with false. cbv iota.
  assert (Hlen : (0 <? slen (Content m +:+ nl)) = true).
  { rewrite slen_app. pose proof (slen_nonneg (Content m)). change (slen nl) with 1.
    apply Z.ltb_lt. lia. }
  rewrite Hlen. unfold close_message. rewrite (TrimSpace_line_newline _ Hne Htrim).
  now destruct m.
Qed.

Lemma plain_last (msgs : list Message) :
  forall m : Message,
    plain_messages (m :: msgs) ->
    isRoleValid (Role (List.last msgs m)) = true /\ plain_line (Content (List.last msgs m)).
Proof.
  induction msgs as [|b msgs IH]; intros m Hall; apply Forall_cons in Hall as [Hm Hall].
  - exact Hm.
  - rewrite last_cons_default. now apply IH.
Qed.

Lemma plain_single_lines (ctx : list Message) :
  plain_messages ctx ->
  Forall (fun m => isRoleValid (Role m) = true /\ single_line (Content m) = true) ctx.
Proof.
  intros Hctx. eapply Forall_impl; [exact Hctx |].
  intros m [Hrole (_ & _ & Hline & _)]. now split.
Qed.

(** What the loop maintains: the messages closed so far have valid roles,
    and so has the pending one, if there is one; without a pending role the
    content buffer is empty. *)
Lemma parsePlain_loop_valid (lines : list string) :
  forall (acc : list Message) (content role : string) (ctx : list Message),
    valid_roles acc ->
    (role = "" -> content = "") ->
    (role <> "" -> isRoleValid role = true) ->
    parsePlain_loop lines acc content role = (ctx, None) ->
    valid_roles ctx.
Proof.
  induction lines as [|line lines IH]; intros acc content role ctx Hacc Hnone Hrole;
    cbn [parsePlain_loop].
  - destruct (String.eqb_spec role "") as [Hr | Hr].
    + rewrite (Hnone Hr). intros [= <-]. exact Hacc.
    + destruct (0 <? slen content); intros [= <-]; [|exact Hacc].
      apply Forall_app. split; [exact Hacc |]. constructor; [now apply Hrole | constructor].
  - set (l := strings_TrimSpace line).
    destruct ((3 <=? slen l) && first_byte_is "[" l && last_byte_is "]" l).
    + destruct (isRoleValid (String.substring 1 (String.length l - 2) l)) eqn:Hnew;
        cbn [negb]; [|discriminate].
      apply IH; [|reflexivity | now intros _].
      destruct (String.eqb_spec role "") as [Hr | Hr]; cbn [negb]; [exact Hacc |].
      apply Forall_app. split; [exact Hacc |]. constructor; [now apply Hrole | constructor].
    + destruct (String.eqb_spec role "") as [Hr | Hr]; cbn [negb andb].
      * destruct (l =? "")%string; cbn [negb]; [|discriminate].
        now apply IH.
      * destruct (0 <? slen l).
        -- apply IH; [exact Hacc | now intros Hr' | exact Hrole].
        -- destruct (l =? "")%string; cbn [negb]; [|discriminate].
           now apply IH.
Qed.

Lemma parsePlain_loop_error (lines : list string) :
  forall (acc : list Message) (content role : string) (ctx : list Message) (e : error),
    parsePlain_loop lines acc content role = (ctx, Some e) -> ctx = [].
Proof.
  induction lines as [|line lines IH]; intros acc content role ctx e; cbn [parsePlain_loop].
  - destruct (0 <? slen content); discriminate.
  - set (l := strings_TrimSpace line).
    destruct ((3 <=? slen l) && first_byte_is "[" l && last_byte_is "]" l).
    + destruct (negb (isRoleValid (String.substring 1 (String.length l - 2) l)));
        [now intros [= <- _] | apply IH].
    + destruct (negb (role =? "")%string && (0 <? slen l)); [apply IH |].
      destruct (negb (l =? "")%string); [now intros [= <- _] | apply IH].
Qed.

Variables CyanString BoldFgWhiteString : string -> string.

(** X26. The uncoloured rendering of a context is read back as the same
    context, provided every role is valid and every content is one line,
    not empty, with no white space around it and not of the shape
    [[...]] of a header.  The colouring functions play no part. *)
Theorem plain_text_round_trip (ctx : list Message) :
  plain_messages ctx ->
  parseUncoloredPlainTextRepresentation
    (plainTextRepresentation CyanString BoldFgWhiteString ctx false)
  = (ctx, None).
Proof.
  intros Hctx. change (plainTextRepresentation _ _ ctx false) with (uncoloured ctx).
  unfold parseUncoloredPlainTextRepresentation.
  rewrite (Split_render ctx (plain_single_lines ctx Hctx)).
  destruct ctx as [|m msgs]; [reflexivity |].
  pose proof (plain_last msgs m Hctx) as [_ Hlast].
  apply Forall_cons in Hctx as [[Hrole Hline] Hmsgs].
  cbn [flat_map]. rewrite <- !app_assoc.
  rewrite (parsePlain_message m _ _ _ _ Hrole Hline).
  change (negb ("" =? "")%string) with false. cbv iota.
  rewrite (parsePlain_messages msgs Hmsgs m [""] [] Hrole Hline).
  rewrite (parsePlain_end _ _ Hlast). cbn [Datatypes.app].
  rewrite <- (last_cons_default msgs m m).
  rewrite <- app_removelast_last by discriminate. reflexivity.
Qed.

(** X27. A last message whose content is empty does not survive the round
    trip: written after messages that do, it is rendered, and the reader
    drops it without an error. *)
Theorem plain_text_drops_empty_last_message (ctx : list Message) (role : string) :
  plain_messages ctx ->
  isRoleValid role = true ->
  parseUncoloredPlainTextRepresentation
    (plainTextRepresentation CyanString BoldFgWhiteString (ctx ++ [mkMessage role ""]) false)
  = (ctx, None).
Proof.
  intros Hctx Hrole. change (plainTextRepresentation _ _ ?c false) with (uncoloured c).
  unfold parseUncoloredPlainTextRepresentation.
  rewrite Split_render.
  2:{ apply Forall_app. split; [now apply plain_single_lines |].
      constructor; [now split | constructor]. }
  rewrite flat_map_app. cbn [flat_map]. rewrite app_nil_r. rewrite <- app_assoc.
  destruct ctx as [|m msgs].
  - cbn [flat_map Datatypes.app]. now rewrite (parsePlain_empty_message role [] "" "" Hrole).
  - pose proof (plain_last msgs m Hctx) as [Hlastrole Hlast].
    apply Forall_cons in Hctx as [[Hm Hline] Hmsgs].
    cbn [flat_map]. rewrite <- !app_assoc.
    rewrite (parsePlain_message m _ _ _ _ Hm Hline).
    change (negb ("" =? "")%string) with false. cbv iota.
    rewrite (parsePlain_messages msgs Hmsgs m _ [] Hm Hline).
    rewrite (parsePlain_empty_message role _ _ _ Hrole).
    destruct (header_line _ Hlastrole) as (_ & _ & _ & ->). cbn [negb].
    unfold close_message. destruct Hlast as (Hne & Htrim & _).
    rewrite (TrimSpace_line_newline _ Hne Htrim). cbn [Datatypes.app].
    replace (mkMessage (Role (List.last msgs m)) (Content (List.last msgs m)))
      with (List.last msgs m) by now destruct (List.last msgs m).
    rewrite <- (last_cons_default msgs m m).
    now rewrite <- app_removelast_last by discriminate.
Qed.

(** X28. Whatever text it is given, when
    [parseUncoloredPlainTextRepresentation] returns no error every message
    it returns has a valid role; when it returns an error it returns no
    message. *)
Theorem parsed_plain_text_has_valid_roles (repr : string) :
  match parseUncoloredPlainTextRepresentation repr with
  | (ctx, None) => valid_roles ctx
  | (ctx, Some _) => ctx = []
  end.
Proof.
  unfold parseUncoloredPlainTextRepresentation.
  destruct (parsePlain_loop (strings_Split repr nl) [] "" "") as [ctx [e|]] eqn:Hparse.
  - exact (parsePlain_loop_error _ _ _ _ _ _ Hparse).
  - apply (parsePlain_loop_valid (strings_Split repr nl) [] "" "" ctx).
    + constructor.
    + reflexivity.
    + intros Hrole. now contradiction Hrole.
    + exact Hparse.
Qed.

End PlainTextFacts.

(** ** The further statements at concrete inputs *)

Lemma drain_open_channel_blocks_witness :
  let app := makeTestApp makeTestCompletionAPI in
  printAndCollectStream (make_chan [mkDelta "abc " None; mkDelta "def" None] false)
    app emptyWorld
  = Hang app (echoed [mkDelta "abc " None; mkDelta "def" None] emptyWorld).
Proof.
  intros app.
  apply (drain_open_channel_blocks app emptyWorld [mkDelta "abc " None; mkDelta "def" None]).
  repeat constructor.
Defined.

Lemma appendToContext_never_rolls_back_witness :
  let msg := mkMessage "user" "hi" in
  let data := fst (json_MarshalIndent [msg]) in
  exists w' : World,
    appendToContext msg mirrored emptyWorld = Ret tt (set_context [msg] mirrored) w'
    /\ files w' !! "P" = Some data.
Proof.
  intros msg data.
  destruct (appendToContext_never_rolls_back msg mirrored emptyWorld data)
    as (w' & Hrun & _ & Hok & _).
  - vm_compute. discriminate.
  - vm_compute. reflexivity.
  - exists w'. split; [exact Hrun |]. apply Hok. apply not_elem_of_empty.
Defined.


Lemma retry_policy_in_range_witness :
  let app := set_maxRetries 5 (makeTestApp flakyAPI) in
  let outs := outcomes (capi app) (context app) 6 in
  let r := sendContextAndProcessResponse app emptyWorld in
  sends (trace (world_of r)) = repeat [] (attempts outs) /\ attempts outs = 3%nat.
Proof.
  intros app outs r.
  destruct (retry_policy_in_range app emptyWorld) as (Hsends & _).
  - simpl. lia.
  - split; [exact Hsends | reflexivity].
Defined.

Lemma retry_sleeps_are_truncated_backoff_witness :
  let app := set_maxRetries 3 (makeTestApp refusingAPI) in
  sleeps (trace (world_of (sendContextAndProcessResponse app roundingWorld)))
  = [1000000000; 2000000000; 5000000000].
Proof.
  intros app.
  refine (eq_trans (retry_sleeps_are_truncated_backoff app roundingWorld _) _).
  - simpl. lia.
  - vm_compute. reflexivity.
Defined.

Lemma plain_exchange_failure_restores_context_witness :
  let app := set_context [mkMessage "system" "a"] (makeTestApp refusingAPI) in
  exists (app' : App MockCompletionAPI) (w' : World),
    appMain (mkMockReadliner ["b"] None 0) app emptyWorld
    = Ret (true, mkMockReadliner ["b"] None 1) app' w'
    /\ context app' = [mkMessage "system" "a"].
Proof.
  intros app.
  set (app1 := set_context (context app ++ [mkMessage "user" "b"]) app).
  set (r := sendContextAndProcessResponse app1 emptyWorld).
  destruct (plain_exchange_failure_restores_context
              (mkMockReadliner ["b"] None 0) (mkMockReadliner ["b"] None 1)
              app (app_of r) emptyWorld (world_of r) "b" ""
              (errorString "failed to send context: connection refused"))
    as (app' & w' & Hrun & Hctx).
  - reflexivity.
  - vm_compute. discriminate.
  - reflexivity.
  - vm_compute. reflexivity.
  - exists app', w'. split; [exact Hrun | exact Hctx].
Defined.

Lemma plain_exchange_success_records_both_witness :
  let app := set_context [mkMessage "system" "a"] (makeTestApp abcdefAPI) in
  exists (app' : App MockCompletionAPI) (w' : World),
    appMain (mkMockReadliner ["b"] None 0) app emptyWorld
    = Ret (true, mkMockReadliner ["b"] None 1) app' w'
    /\ context app'
       = [mkMessage "system" "a"; mkMessage "user" "b"; mkMessage "assistant" "abc def"].
Proof.
  intros app.
  set (app1 := set_context (context app ++ [mkMessage "user" "b"]) app).
  set (r := sendContextAndProcessResponse app1 emptyWorld).
  destruct (plain_exchange_success_records_both
              (mkMockReadliner ["b"] None 0) (mkMockReadliner ["b"] None 1)
              app (app_of r) emptyWorld (world_of r) "b" "abc def")
    as (app' & w' & Hrun & Hctx & _).
  - reflexivity.
  - vm_compute. discriminate.
  - reflexivity.
  - reflexivity.
  - vm_compute. reflexivity.
  - exists app', w'. split; [exact Hrun | exact Hctx].
Defined.

Lemma send_failure_keeps_context_witness :
  let app := set_context [mkMessage "user" "hi"] (makeTestApp refusingAPI) in
  let r := sendContextAndProcessResponse app emptyWorld in
  sendCommand "" app emptyWorld
  = Ret (Some (errorString "failed to send context: connection refused"))
        (app_of r) (world_of r)
  /\ context (app_of r) = [mkMessage "user" "hi"].
Proof.
  intros app r.
  apply (send_failure_keeps_context app (app_of r) emptyWorld (world_of r) "").
  vm_compute. reflexivity.
Defined.

Lemma escape_failure_keeps_user_message_witness :
  let app := makeTestApp refusingAPI in
  let app1 := set_context [mkMessage "user" "hi"] app in
  let r := sendContextAndProcessResponse app1 emptyWorld in
  escapeCommand "hi" app emptyWorld
  = Ret (Some (errorString "failed to send context: connection refused"))
        (app_of r) (world_of r)
  /\ context (app_of r) = [mkMessage "user" "hi"].
Proof.
  intros app app1 r.
  apply (escape_failure_keeps_user_message app (app_of r) emptyWorld (world_of r) "hi" "").
  vm_compute. reflexivity.
Defined.

Lemma session_keeps_valid_roles_witness :
  valid_roles
    (context (app_of (mainLoop_for 2 (mkMockReadliner ["hello"; "again"] None 0)
                        (makeTestApp abcdefAPI) emptyWorld))).
Proof.
  apply (session_keeps_valid_roles 2 (mkMockReadliner ["hello"; "again"] None 0)
           (makeTestApp abcdefAPI) emptyWorld).
  constructor.
Defined.

Lemma unregistered_command_changes_nothing_witness :
  let app := makeTestApp makeTestCompletionAPI in
  bind registerCommandHandlers
       (fun _ => appMain (mkMockReadliner ["/frobnicate now"] None 0)) app emptyWorld
  = Ret (true, mkMockReadliner ["/frobnicate now"] None 1)
        (app_of (registerCommandHandlers app emptyWorld))
        (emit (EvPrintError ("unknown command: " +:+ "frobnicate" +:+ nl)) emptyWorld).
Proof.
  intros app.
  apply (unregistered_command_changes_nothing
           (mkMockReadliner ["/frobnicate now"] None 0)
           (mkMockReadliner ["/frobnicate now"] None 1) app emptyWorld "/frobnicate now").
  - reflexivity.
  - vm_compute. reflexivity.
  - reflexivity.
  - intros Hin. vm_compute in Hin.
    repeat (destruct Hin as [Hin | Hin]; [discriminate Hin |]). exact Hin.
Defined.

Lemma save_then_load_round_trip_witness :
  let app := set_context three_messages (makeTestApp makeTestCompletionAPI) in
  exists w' : World,
    saveCommand "P" app emptyWorld = Ret None app w'
    /\ replaceFromCommand "P" app w' = Ret None app w'.
Proof.
  intros app.
  destruct (save_then_load_round_trip "P" (fst (json_MarshalIndent three_messages))
              app emptyWorld)
    as (w' & Hsave & _ & Hload & _).
  - repeat constructor.
  - discriminate.
  - apply not_elem_of_empty.
  - vm_compute. reflexivity.
  - vm_compute. reflexivity.
  - exists w'. split; [exact Hsave | exact Hload].
Defined.

Lemma reference_codec_round_trip_witness :
  let ctx := [mkMessage "system" "a"; mkMessage "user" (String "097" (String "200" EmptyString))] in
  let read := [mkMessage "system" "a";
               mkMessage "user" (String "097" (String "239" (String "191"
                                   (String "189" EmptyString))))] in
  let app := makeTestApp makeTestCompletionAPI in
  let w' := world_of (writeContextFile "P" ctx app emptyWorld) in
  writeContextFile "P" ctx app emptyWorld = Ret None app w'
  /\ parseContextFile "P" app w' = Ret (read, None) app w'.
Proof.
  intros ctx read app w'.
  apply (reference_codec_round_trip app emptyWorld "P" ctx).
  - repeat constructor.
  - discriminate.
  - apply not_elem_of_empty.
Defined.

Lemma textWrap_lines_fit_witness :
  List.Forall (fun line => slen line <= 11) (textWrap "the quick brown fox jumps" 11).
Proof.
  apply List.Forall_forall.
  apply (textWrap_lines_fit "the quick brown fox jumps" 11).
  intros word Hin. vm_compute in Hin.
  repeat (destruct Hin as [<- | Hin]; [vm_compute; discriminate |]). contradiction.
Defined.

Lemma textWrap_long_first_word_leaves_empty_line_witness :
  exists lines, textWrap "abcdef gh" 3 = "" :: lines /\ lines <> [].
Proof.
  apply (textWrap_long_first_word_leaves_empty_line "abcdef gh" "abcdef" ["gh"] 3).
  - vm_compute. reflexivity.
  - vm_compute. discriminate.
Defined.

Lemma plain_text_round_trip_witness :
  let ctx := [mkMessage "system" "be brief"; mkMessage "user" "hi there";
              mkMessage "assistant" "ok"] in
  parseUncoloredPlainTextRepresentation
    (plainTextRepresentation (fun s => "<" +:+ s +:+ ">") (fun s => s) ctx false)
  = (ctx, None).
Proof.
  intros ctx.
  apply (plain_text_round_trip (fun s => "<" +:+ s +:+ ">") (fun s => s) ctx).
  repeat constructor; discriminate.
Defined.

Lemma plain_text_drops_empty_last_message_witness :
  parseUncoloredPlainTextRepresentation
    (plainTextRepresentation (fun s => s) (fun s => s)
       ([mkMessage "user" "hi"] ++ [mkMessage "assistant" ""]) false)
  = ([mkMessage "user" "hi"], None).
Proof.
  apply (plain_text_drops_empty_last_message (fun s => s) (fun s => s)
           [mkMessage "user" "hi"] "assistant").
  - repeat constructor; discriminate.
  - reflexivity.
Defined.
